(** * istar / idock worker: a shallow embedding of [src/idock/src/main.cpp]

    The worker's [main] precalculates the scoring function, then loops over
    jobs: it claims a slice of the ligand library, filters every ligand of
    the slice on nine descriptors, creates the grid maps the ligand needs,
    runs the Monte Carlo tasks and appends the best energy to a csv file.

    Each part of [main] the properties below speak about is translated here
    next to the lines it comes from.  Numbers of type [double] are IEEE
    binary64 values ([PrimFloat.float]), and so are those of the scalar type
    [fl]; [size_t] values are [nat] or [Z]. *)

From Stdlib Require Import Floats.PrimFloat.
From Stdlib Require Uint63.
From Stdlib Require FloatAxioms.
From Stdlib Require Import ZArith List Lia Bool Ascii Sorted.
From stdpp Require Import base option list gmap strings.

Local Open Scope Z_scope.

(** ** The slice table (main.cpp, lines 215-219) *)

Module Slices.

(** [const size_t slices[101] = { 0, 121712, ... , 12171187 };] *)
Definition slices : list Z :=
  [ 0; 121712; 243424; 365136; 486848; 608560; 730272; 851984; 973696;
    1095408; 1217120; 1338832; 1460544; 1582256; 1703968; 1825680; 1947392;
    2069104; 2190816; 2312528; 2434240; 2555952; 2677664; 2799376; 2921088;
    3042800; 3164512; 3286224; 3407936; 3529648; 3651360; 3773072; 3894784;
    4016496; 4138208; 4259920; 4381632; 4503344; 4625056; 4746768; 4868480;
    4990192; 5111904; 5233616; 5355328; 5477040; 5598752; 5720464; 5842176;
    5963888; 6085600; 6207312; 6329024; 6450736; 6572448; 6694160; 6815872;
    6937584; 7059296; 7181008; 7302720; 7424432; 7546144; 7667856; 7789568;
    7911280; 8032992; 8154704; 8276416; 8398128; 8519840; 8641552; 8763264;
    8884976; 9006688; 9128400; 9250112; 9371824; 9493536; 9615248; 9736960;
    9858672; 9980384; 10102096; 10223808; 10345520; 10467232; 10588944;
    10710655; 10832366; 10954077; 11075788; 11197499; 11319210; 11440921;
    11562632; 11684343; 11806054; 11927765; 12049476; 12171187 ].

(** [const size_t num_ligands = 12171187;] *)
Definition num_ligands : Z := 12171187.

(** [slices[s]]: the array has 101 elements; an index outside it is not a
    read the program defines, so the model has no value there. *)
Definition slices_at (s : nat) : option Z := slices !! s.

(** [const size_t start_lig = slices[s];] *)
Definition start_lig (s : nat) : option Z := slices_at s.

(** [const size_t end_lig = slices[s + 1];] *)
Definition end_lig (s : nat) : option Z := slices_at (s + 1).

(** The pair of bounds the ligand loop of slice [s] runs between. *)
Definition slice_range (s : nat) : option (Z * Z) :=
  a ← start_lig s; b ← end_lig s; Some (a, b).

(** [for (size_t i = start_lig; i < end_lig; ++i)]: the indices visited. *)
Definition ligand_loop (a b : Z) : list Z :=
  (fun k : nat => a + Z.of_nat k) <$> seq 0 (Z.to_nat (b - a)).

(** The ligands slice [s] processes, in order. *)
Definition slice_ligands (s : nat) : option (list Z) :=
  '(a, b) ← slice_range s; Some (ligand_loop a b).

(** Boolean check of one slice: both bounds are in the table and ascend. *)
Definition slice_ok (s : nat) : bool :=
  match slices !! s, slices !! (s + 1)%nat with
  | Some a, Some b => bool_decide (a < b)
  | _, _ => false
  end.

Lemma slices_length : length slices = 101%nat.
Proof. reflexivity. Qed.

Lemma ligand_loop_spec (a b i : Z) : i ∈ ligand_loop a b ↔ a <= i < b.
Proof.
  unfold ligand_loop. rewrite list_elem_of_fmap. split.
  - intros (k & -> & Hk). apply list_elem_of_In, in_seq in Hk. lia.
  - intros Hi. exists (Z.to_nat (i - a)). split; [lia|].
    apply list_elem_of_In, in_seq. lia.
Qed.

Lemma ligand_loop_cons (a b : Z) :
  a < b → ligand_loop a b = a :: ligand_loop (a + 1) b.
Proof.
  intros Hab. unfold ligand_loop.
  replace (Z.to_nat (b - a)) with (S (Z.to_nat (b - (a + 1)))) by lia.
  cbn [seq]. rewrite fmap_cons. f_equal; [lia|].
  rewrite <- fmap_S_seq, <- list_fmap_compose.
  apply list_fmap_ext. intros _ k _. simpl. lia.
Qed.

Lemma slice_ok_all : forallb slice_ok (seq 0 100) = true.
Proof. vm_compute. reflexivity. Qed.

Lemma slice_ok_lt (s : nat) : (s < 100)%nat → slice_ok s = true.
Proof.
  intros Hs. pose proof slice_ok_all as H.
  rewrite forallb_forall in H. apply H, in_seq. lia.
Qed.

(** C2 (as stated, at s = 100): the claim lets slice 100 cover ligands
    12049476..12171186, but [slices[100]] is 12171187 and [slices[101]] lies
    outside the 101-element table, so slice 100 has no range at all. *)
Lemma C2_slice_100_counterexample :
  start_lig 100 = Some 12171187 ∧ end_lig 100 = None ∧
  ¬ (slice_range 100 = Some (12049476, 12171187)).
Proof.
  split; [reflexivity|]. split; [reflexivity|].
  intros H. vm_compute in H. discriminate H.
Qed.

(** C2 (amended): for every slice index [s] in 0..99 the ligand loop runs
    over exactly [slices[s], slices[s+1]), a non-empty range of the table;
    slice 0 covers ligands 0..121711 and the last slice, 99, covers
    12049476..12171186. *)
Theorem C2_slice_range (s : nat) :
  (s < 100)%nat →
  ∃ a b : Z,
    slices !! s = Some a ∧ slices !! (s + 1)%nat = Some b ∧
    slice_range s = Some (a, b) ∧ a < b <= num_ligands ∧
    slice_ligands s = Some (ligand_loop a b) ∧
    (∀ i : Z, i ∈ ligand_loop a b ↔ a <= i < b) ∧
    slice_range 0 = Some (0, 121712) ∧
    slice_range 99 = Some (12049476, 12171187).
Proof.
  intros Hs. pose proof (slice_ok_lt s Hs) as Hok. unfold slice_ok in Hok.
  destruct (slices !! s) as [a|] eqn:Ha; [|discriminate].
  destruct (slices !! (s + 1)%nat) as [b|] eqn:Hb; [|discriminate].
  apply bool_decide_eq_true in Hok.
  assert (Hrange : slice_range s = Some (a, b)).
  { unfold slice_range, start_lig, end_lig, slices_at. rewrite Ha, Hb. reflexivity. }
  assert (Hmax : b <= num_ligands).
  { assert (Hall : Forall (fun x => x <= num_ligands) slices).
    { unfold num_ligands. repeat constructor; lia. }
    rewrite Forall_lookup in Hall. exact (Hall _ _ Hb). }
  exists a, b. split_and!; try assumption; try reflexivity.
  - unfold slice_ligands. rewrite Hrange. reflexivity.
  - intros i. apply ligand_loop_spec.
Qed.

(** C2 at the last slice. *)
Lemma C2_slice_range_witness :
  ∃ a b : Z,
    slices !! 99%nat = Some a ∧ slices !! (99 + 1)%nat = Some b ∧
    slice_range 99 = Some (a, b) ∧ a < b <= num_ligands ∧
    slice_ligands 99 = Some (ligand_loop a b) ∧
    (∀ i : Z, i ∈ ligand_loop a b ↔ a <= i < b) ∧
    slice_range 0 = Some (0, 121712) ∧
    slice_range 99 = Some (12049476, 12171187).
Proof. apply (C2_slice_range 99). lia. Defined.

(** *** The slices together *)

Lemma ligand_loop_app (a b c : Z) :
  a <= b → b <= c → ligand_loop a b ++ ligand_loop b c = ligand_loop a c.
Proof.
  intros Hab Hbc. unfold ligand_loop.
  replace (Z.to_nat (c - a)) with (Z.to_nat (b - a) + Z.to_nat (c - b))%nat by lia.
  rewrite seq_app, fmap_app. f_equal. simpl.
  replace (seq (Z.to_nat (b - a)) (Z.to_nat (c - b)))
    with (Nat.add (Z.to_nat (b - a)) <$> seq 0 (Z.to_nat (c - b)))
    by (rewrite fmap_add_seq, Nat.add_0_r; reflexivity).
  rewrite <- list_fmap_compose. apply list_fmap_ext. intros _ k _. simpl. lia.
Qed.

Lemma ligand_loop_length (a b : Z) : length (ligand_loop a b) = Z.to_nat (b - a).
Proof. unfold ligand_loop. rewrite length_fmap, length_seq. reflexivity. Qed.

(** Boundary [s] of the table, 0 outside it. *)
Definition boundary (s : nat) : Z := default 0 (slices !! s).

Lemma boundary_step (s : nat) : (s < 100)%nat → boundary s < boundary (S s).
Proof.
  intros Hs. pose proof (slice_ok_lt s Hs) as H. unfold slice_ok in H. unfold boundary.
  replace (s + 1)%nat with (S s) in H by lia.
  destruct (slices !! s); [|discriminate]. destruct (slices !! S s); [|discriminate].
  apply bool_decide_eq_true in H. exact H.
Qed.

Definition balanced (s : nat) : bool :=
  let d := boundary (S s) - boundary s in (d =? 121712) || (d =? 121711).

Lemma boundary_size (s : nat) :
  (s < 100)%nat →
  boundary (S s) - boundary s = 121712 ∨ boundary (S s) - boundary s = 121711.
Proof.
  intros Hs.
  assert (Hall : forallb balanced (seq 0 100) = true) by (vm_compute; reflexivity).
  rewrite forallb_forall in Hall. specialize (Hall s ltac:(apply in_seq; lia)).
  unfold balanced in Hall. apply orb_true_iff in Hall. rewrite !Z.eqb_eq in Hall. exact Hall.
Qed.

Lemma boundary_mono (s s' : nat) : (s ≤ s')%nat → (s' ≤ 100)%nat → boundary s <= boundary s'.
Proof.
  induction 1 as [|s' Hle IH]; intros Hs'; [lia|].
  pose proof (boundary_step s' ltac:(lia)). specialize (IH ltac:(lia)). lia.
Qed.

Lemma slice_ligands_boundary (s : nat) :
  (s < 100)%nat → slice_ligands s = Some (ligand_loop (boundary s) (boundary (S s))).
Proof.
  intros Hs. pose proof (slice_ok_lt s Hs) as H. unfold slice_ok in H.
  unfold slice_ligands, slice_range, start_lig, end_lig, slices_at, boundary.
  replace (s + 1)%nat with (S s) in * by lia.
  destruct (slices !! s); [|discriminate]. destruct (slices !! S s); [|discriminate].
  reflexivity.
Qed.

Lemma slice_ligands_inv (s : nat) (part : list Z) :
  slice_ligands s = Some part → (s < 100)%nat.
Proof.
  unfold slice_ligands, slice_range, start_lig, end_lig, slices_at. intros H.
  destruct (slices !! s) as [a|]; [|discriminate].
  destruct (slices !! (s + 1)%nat) as [b|] eqn:Hb; [|discriminate].
  apply lookup_lt_Some in Hb. rewrite slices_length in Hb. lia.
Qed.

Lemma concat_boundaries (n : nat) :
  (n ≤ 100)%nat →
  concat ((λ s, ligand_loop (boundary s) (boundary (S s))) <$> seq 0 n)
  = ligand_loop (boundary 0) (boundary n).
Proof.
  induction n as [|n IH]; intros Hn.
  - unfold ligand_loop. rewrite Z.sub_diag. reflexivity.
  - rewrite seq_S, fmap_app, concat_app, IH by lia. simpl. rewrite app_nil_r.
    apply ligand_loop_app.
    + apply boundary_mono; lia.
    + pose proof (boundary_step n ltac:(lia)). lia.
Qed.

(** The hundred slices split the library: taken in order they visit the
    ligands 0 .. num_ligands - 1 one after the other, every ligand in one
    slice and no other, and every slice has 121712 or 121711 ligands. *)
Theorem slices_partition_library :
  ∃ parts : list (list Z),
    Forall2 (λ s part, slice_ligands s = Some part) (seq 0 100) parts ∧
    concat parts = ligand_loop 0 num_ligands ∧
    Forall (λ part, Z.of_nat (length part) = 121712 ∨ Z.of_nat (length part) = 121711) parts ∧
    (∀ i : Z, 0 <= i < num_ligands →
       ∃ s part, slice_ligands s = Some part ∧ i ∈ part ∧
         ∀ s' part', slice_ligands s' = Some part' → i ∈ part' → s' = s).
Proof.
  set (parts := (λ s, ligand_loop (boundary s) (boundary (S s))) <$> seq 0 100).
  assert (H2 : Forall2 (λ s part, slice_ligands s = Some part) (seq 0 100) parts).
  { apply Forall2_fmap_r, Forall_Forall2_diag, Forall_forall. intros s Hs.
    apply list_elem_of_In, in_seq in Hs. apply slice_ligands_boundary. lia. }
  assert (Hc : concat parts = ligand_loop 0 num_ligands).
  { unfold parts. rewrite concat_boundaries by lia. reflexivity. }
  exists parts. split_and!; [exact H2 | exact Hc | |].
  - apply Forall_fmap, Forall_forall. intros s Hs. apply list_elem_of_In, in_seq in Hs.
    unfold compose. rewrite ligand_loop_length.
    pose proof (boundary_step s ltac:(lia)).
    destruct (boundary_size s ltac:(lia)); lia.
  - intros i Hi.
    assert (Hin : i ∈ concat parts) by (rewrite Hc; apply ligand_loop_spec; exact Hi).
    apply (list_elem_of_join i parts) in Hin as (part & Hipart & Hpart).
    apply list_elem_of_lookup in Hpart as [s Hs].
    destruct (Forall2_lookup_r _ _ _ _ _ H2 Hs) as (s0 & Hs0 & Hsl).
    exists s0, part. split_and!; [exact Hsl | exact Hipart |].
    intros s' part' Hsl' Hi'.
    pose proof (slice_ligands_inv _ _ Hsl) as Hlt. pose proof (slice_ligands_inv _ _ Hsl') as Hlt'.
    rewrite slice_ligands_boundary in Hsl, Hsl' by assumption.
    injection Hsl as <-. injection Hsl' as <-.
    apply ligand_loop_spec in Hipart, Hi'.
    destruct (Nat.lt_trichotomy s' s0) as [Hlt0 | [Heq | Hgt0]]; [|exact Heq|]; exfalso.
    + pose proof (boundary_mono (S s') s0 ltac:(lia) ltac:(lia)). lia.
    + pose proof (boundary_mono (S s0) s' ltac:(lia) ltac:(lia)). lia.
Qed.

End Slices.

(** ** Distance samples of the scoring function (main.cpp, lines 126-133) *)

Module Samples.

Section Rs.

(** The constants of [scoring_function] that [main] reads.  Their
    declarations are in scoring_function.hpp, so they are parameters here. *)
Variable Num_Samples : nat.
Variable Factor_Inverse : float.

(** [rs[i] = sqrt(i * scoring_function::Factor_Inverse);]: the index is
    converted to [fl], and the product and the square root are each rounded
    to nearest. *)
Definition rs_at (i : Z) : float :=
  PrimFloat.sqrt (PrimFloat.mul (PrimFloat.of_uint63 (Uint63.of_Z i)) Factor_Inverse).

(** [vector<fl> rs(Num_Samples, 0)] after the loop over
    [i < Num_Samples] has assigned every element. *)
Definition rs : list float := (λ i : nat, rs_at (Z.of_nat i)) <$> seq 0 Num_Samples.



End Rs.














End Samples.

(** ** The step sizes of the line search (main.cpp, lines 152-158) *)

Module Alphas.

(** The factor [0.1] of line 157, the binary64 value nearest to one tenth. *)
Definition tenth : float := 0x1.999999999999ap-4%float.

(** Lines 153-158: [alphas[0] = 1] and [alphas[i] = alphas[i - 1] * 0.1]
    for [1 <= i < num_alphas], as the list of the [num_alphas] elements
    (an array of at least one element). *)
Fixpoint alphas_from (a : float) (n : nat) : list float :=
  match n with
  | O => []
  | S n' => a :: alphas_from (PrimFloat.mul a tenth) n'
  end.

Definition alphas (num_alphas : nat) : list float := alphas_from 1 num_alphas.

(** The value of element [i]. *)
Definition alpha (i : nat) : float := Nat.iter i (λ a, PrimFloat.mul a tenth) 1%float.

(** Element [i] is positive and above element [i + 1]. *)
Definition descends (i : nat) : bool :=
  PrimFloat.ltb 0 (alpha i) && PrimFloat.ltb (alpha (S i)) (alpha i).

Lemma alphas_from_lookup (n : nat) :
  ∀ (a : float) (i : nat), (i < n)%nat →
    alphas_from a n !! i = Some (Nat.iter i (λ a, PrimFloat.mul a tenth) a).
Proof.
  induction n as [|n IH]; intros a i Hi; [lia|].
  destruct i as [|i]; [reflexivity|]. cbn [alphas_from lookup list_lookup].
  rewrite IH by lia. rewrite Nat.iter_succ_r. reflexivity.
Qed.

Lemma alphas_from_length (n : nat) : ∀ a, length (alphas_from a n) = n.
Proof. induction n as [|n IH]; intros a; simpl; [reflexivity | rewrite IH; reflexivity]. Qed.

Lemma alphas_lookup (n i : nat) (a : float) :
  alphas n !! i = Some a ↔ (i < n)%nat ∧ a = alpha i.
Proof.
  split.
  - intros H. assert (Hi : (i < n)%nat).
    { apply lookup_lt_Some in H. unfold alphas in H. rewrite alphas_from_length in H.
      exact H. }
    split; [exact Hi|]. unfold alphas in H. rewrite alphas_from_lookup in H by exact Hi.
    injection H as <-. reflexivity.
  - intros [Hi ->]. apply alphas_from_lookup, Hi.
Qed.

Lemma alpha_underflow (i : nat) : (324 ≤ i)%nat → alpha i = 0%float.
Proof.
  induction 1 as [|i Hi IH]; [vm_compute; reflexivity|].
  change (alpha (S i)) with (PrimFloat.mul (alpha i) tenth). rewrite IH. reflexivity.
Qed.

(** The step sizes are positive and descend strictly up to index 323; in
    binary64 the product underflows after that, and every element from
    index 324 on is zero. *)
Theorem alphas_descend (num_alphas i : nat) (a : float) :
  alphas num_alphas !! i = Some a →
  ((i ≤ 323)%nat → PrimFloat.ltb 0 a = true ∧
     ∀ b, alphas num_alphas !! S i = Some b → PrimFloat.ltb b a = true) ∧
  ((324 ≤ i)%nat → a = 0%float).
Proof.
  intros Ha. apply alphas_lookup in Ha as [Hi ->]. split.
  - intros Hle.
    assert (Hall : forallb descends (seq 0 324) = true) by (vm_compute; reflexivity).
    rewrite forallb_forall in Hall. specialize (Hall i ltac:(apply in_seq; lia)).
    unfold descends in Hall. apply andb_true_iff in Hall as [H0 H1].
    split; [exact H0|]. intros b Hb. apply alphas_lookup in Hb as [_ ->]. exact H1.
  - apply alpha_underflow.
Qed.

(** Five step sizes: the third is positive and above the fourth. *)
Lemma alphas_descend_witness :
  PrimFloat.ltb 0 (alpha 2) = true ∧
  ∀ b, alphas 5 !! 3%nat = Some b → PrimFloat.ltb b (alpha 2) = true.
Proof.
  apply (alphas_descend 5 2 (alpha 2)); [reflexivity | lia].
Defined.

End Alphas.

(** ** The job document, the filter bounds and the descriptor fields
       (main.cpp, lines 91-109, 190-213 and 310-324) *)

Module Job.

(** [double] values compared with [<=] as the processor compares them. *)
Definition fle (a b : float) : bool := PrimFloat.leb a b.

(** Conversion of a [size_t] or [int64_t] value to [double], as the usual
    arithmetic conversions do before a comparison with a [double].  It is
    exact below 2^53, far above what a default or a three-column field
    holds. *)
Definition double_of_Z (z : Z) : float :=
  if z <? 0 then PrimFloat.opp (PrimFloat.of_uint63 (Uint63.of_Z (- z)))
  else PrimFloat.of_uint63 (Uint63.of_Z z).

(** A field of the job document: the two element types [main] reads. *)
Inductive bson :=
| BDouble (d : float)
| BString (s : string).

(** The document [p] returned by the cursor: field name to element. *)
Abbreviation doc := (gmap string bson).

(** [p[k].Double()]: the element must hold a double; any other element
    makes the driver throw. *)
Definition Double (p : doc) (k : string) : option float :=
  match p !! k with
  | Some (BDouble d) => Some d
  | _ => None
  end.

(** [p[k].String()]. *)
Definition String_ (p : doc) (k : string) : option string :=
  match p !! k with
  | Some (BString s) => Some s
  | _ => None
  end.

(** [p[k].ok() ? p[k].Double() : dflt]. *)
Definition Double_or (p : doc) (k : string) (dflt : float) : option float :=
  match p !! k with
  | None => Some dflt
  | Some _ => Double p k
  end.

(** The default values of the optional arguments (lines 92-109). *)
Record defaults := Defaults {
  default_mwt_lb : float;  default_mwt_ub : float;
  default_logp_lb : float; default_logp_ub : float;
  default_ad_lb : float;   default_ad_ub : float;
  default_pd_lb : float;   default_pd_ub : float;
  default_hbd_lb : Z;      default_hbd_ub : Z;
  default_hba_lb : Z;      default_hba_ub : Z;
  default_tpsa_lb : Z;     default_tpsa_ub : Z;
  default_charge_lb : Z;   default_charge_ub : Z;
  default_nrb_lb : Z;      default_nrb_ub : Z
}.

Definition main_defaults : defaults := {|
  default_mwt_lb := 400;   default_mwt_ub := 500;
  default_logp_lb := -1;   default_logp_ub := 6;
  default_ad_lb := -50;    default_ad_ub := 50;
  default_pd_lb := -150;   default_pd_ub := 0;
  default_hbd_lb := 1;     default_hbd_ub := 6;
  default_hba_lb := 1;     default_hba_ub := 10;
  default_tpsa_lb := 20;   default_tpsa_ub := 80;
  default_charge_lb := 0;  default_charge_ub := 0;
  default_nrb_lb := 2;     default_nrb_ub := 9
|}.

(** The same defaults with other values for the two charge constants. *)
Definition with_default_charge (d : defaults) (lb ub : Z) : defaults :=
  Defaults (default_mwt_lb d) (default_mwt_ub d) (default_logp_lb d) (default_logp_ub d)
    (default_ad_lb d) (default_ad_ub d) (default_pd_lb d) (default_pd_ub d)
    (default_hbd_lb d) (default_hbd_ub d) (default_hba_lb d) (default_hba_ub d)
    (default_tpsa_lb d) (default_tpsa_ub d) lb ub
    (default_nrb_lb d) (default_nrb_ub d).

(** The eighteen filter bounds of a job, all of type [double]. *)
Record bounds := Bounds {
  mwt_lb : float;    mwt_ub : float;
  logp_lb : float;   logp_ub : float;
  ad_lb : float;     ad_ub : float;
  pd_lb : float;     pd_ub : float;
  hbd_lb : float;    hbd_ub : float;
  hba_lb : float;    hba_ub : float;
  tpsa_lb : float;   tpsa_ub : float;
  charge_lb : float; charge_ub : float;
  nrb_lb : float;    nrb_ub : float
}.

(** Lines 196-213, one [Double_or] per bound, in the order of the source. *)
Definition job_bounds (d : defaults) (p : doc) : option bounds :=
  mwt_lb ← Double_or p "mwt_lb" (default_mwt_lb d);
  mwt_ub ← Double_or p "mwt_ub" (default_mwt_ub d);
  logp_lb ← Double_or p "logp_lb" (default_logp_lb d);
  logp_ub ← Double_or p "logp_ub" (default_logp_ub d);
  ad_lb ← Double_or p "ad_lb" (default_ad_lb d);
  ad_ub ← Double_or p "ad_ub" (default_ad_ub d);
  pd_lb ← Double_or p "pd_lb" (default_pd_lb d);
  pd_ub ← Double_or p "pd_ub" (default_pd_ub d);
  hbd_lb ← Double_or p "hbd_lb" (double_of_Z (default_hbd_lb d));
  hbd_ub ← Double_or p "hbd_ub" (double_of_Z (default_hbd_ub d));
  hba_lb ← Double_or p "hba_lb" (double_of_Z (default_hba_lb d));
  hba_ub ← Double_or p "hba_ub" (double_of_Z (default_hba_ub d));
  tpsa_lb ← Double_or p "tpsa_lb" (double_of_Z (default_tpsa_lb d));
  tpsa_ub ← Double_or p "tpsa_ub" (double_of_Z (default_tpsa_ub d));
  charge_lb ← Double_or p "charge_lb" (double_of_Z (default_nrb_lb d));
  charge_ub ← Double_or p "charge_ub" (double_of_Z (default_nrb_ub d));
  nrb_lb ← Double_or p "nrb_lb" (double_of_Z (default_nrb_lb d));
  nrb_ub ← Double_or p "nrb_ub" (double_of_Z (default_nrb_ub d));
  Some (Bounds mwt_lb mwt_ub logp_lb logp_ub ad_lb ad_ub pd_lb pd_ub
          hbd_lb hbd_ub hba_lb hba_ub tpsa_lb tpsa_ub
          charge_lb charge_ub nrb_lb nrb_ub).

(** The names of the optional bound fields of a document. *)
Definition bound_keys : list string :=
  [ "mwt_lb"; "mwt_ub"; "logp_lb"; "logp_ub"; "ad_lb"; "ad_ub"; "pd_lb"; "pd_ub";
    "hbd_lb"; "hbd_ub"; "hba_lb"; "hba_ub"; "tpsa_lb"; "tpsa_ub";
    "charge_lb"; "charge_ub"; "nrb_lb"; "nrb_ub" ].

(** A document is well typed when every bound it carries is a double. *)
Definition bounds_typed (p : doc) : Prop :=
  ∀ k, k ∈ bound_keys → p !! k = None ∨ ∃ x, p !! k = Some (BDouble x).

(** The first line of a ligand record and its columns. *)

(** [std::string::substr(pos, len)]: throws when [pos] is beyond the end,
    otherwise returns at most [len] characters from offset [pos]. *)
Definition substr (s : string) (pos len : nat) : option string :=
  if decide (pos ≤ String.length s)%nat then Some (String.substring pos len s) else None.

(** Modelled from the spec: [right_cast<T>(line, i, j)] of the missing
    utility header.  The spec's column table puts the field of the call
    [right_cast(line, i, j)] on the 1-based columns [i + 1 .. j], that is the
    [j - i] characters from offset [i]; [lexical_cast<T>] then converts
    them. *)
Definition right_cast_text (line : string) (i j : nat) : option string :=
  substr line i (j - i).

(** The characters of the 1-based inclusive column range [a .. b] of a line,
    as the format description of the library counts them. *)
Definition columns (line : string) (a b : nat) : list Ascii.ascii :=
  take (b + 1 - a) (drop (a - 1) (String.list_ascii_of_string line)).

Definition column_text (line : string) (a b : nat) : string :=
  String.string_of_list_ascii (columns line a b).

(** The nine descriptors of a ligand (lines 312-320); the five integral
    ones keep their integer value. *)
Record descriptors := Descriptors {
  mwt : float; logp : float; ad : float; pd : float;
  hbd : Z; hba : Z; tpsa : Z; charge : Z; nrb : Z
}.

Section Cast.

(** [boost::lexical_cast] at the three types [main] asks for; [None] is a
    [bad_lexical_cast]. *)
Variable lexical_cast_fl : string → option float.
Variable lexical_cast_size_t : string → option Z.
Variable lexical_cast_int64 : string → option Z.

Definition right_cast_fl (line : string) (i j : nat) : option float :=
  right_cast_text line i j ≫= lexical_cast_fl.
Definition right_cast_size_t (line : string) (i j : nat) : option Z :=
  right_cast_text line i j ≫= lexical_cast_size_t.
Definition right_cast_int64 (line : string) (i j : nat) : option Z :=
  right_cast_text line i j ≫= lexical_cast_int64.

(** Lines 312-320. *)
Definition parse_descriptors (line : string) : option descriptors :=
  mwt ← right_cast_fl line 21 28;
  logp ← right_cast_fl line 30 37;
  ad ← right_cast_fl line 39 46;
  pd ← right_cast_fl line 48 55;
  hbd ← right_cast_size_t line 57 59;
  hba ← right_cast_size_t line 61 63;
  tpsa ← right_cast_size_t line 65 67;
  charge ← right_cast_int64 line 69 71;
  nrb ← right_cast_size_t line 73 75;
  Some (Descriptors mwt logp ad pd hbd hba tpsa charge nrb).

(** The descriptors read from given column texts, field by field. *)
Definition descriptors_of_columns (line : string) : option descriptors :=
  mwt ← lexical_cast_fl (column_text line 22 28);
  logp ← lexical_cast_fl (column_text line 31 37);
  ad ← lexical_cast_fl (column_text line 40 46);
  pd ← lexical_cast_fl (column_text line 49 55);
  hbd ← lexical_cast_size_t (column_text line 58 59);
  hba ← lexical_cast_size_t (column_text line 62 63);
  tpsa ← lexical_cast_size_t (column_text line 66 67);
  charge ← lexical_cast_int64 (column_text line 70 71);
  nrb ← lexical_cast_size_t (column_text line 74 75);
  Some (Descriptors mwt logp ad pd hbd hba tpsa charge nrb).

End Cast.

(** [line.substr(10, 8)], the ZINC id (line 324). *)
Definition zinc_id_of (line : string) : option string := substr line 10 8.

(** The condition of line 321 whose negation skips the ligand. *)
Definition passes_filter (b : bounds) (d : descriptors) : bool :=
  fle (mwt_lb b) (mwt d) && fle (mwt d) (mwt_ub b) &&
  fle (logp_lb b) (logp d) && fle (logp d) (logp_ub b) &&
  fle (ad_lb b) (ad d) && fle (ad d) (ad_ub b) &&
  fle (pd_lb b) (pd d) && fle (pd d) (pd_ub b) &&
  fle (hbd_lb b) (double_of_Z (hbd d)) && fle (double_of_Z (hbd d)) (hbd_ub b) &&
  fle (hba_lb b) (double_of_Z (hba d)) && fle (double_of_Z (hba d)) (hba_ub b) &&
  fle (tpsa_lb b) (double_of_Z (tpsa d)) && fle (double_of_Z (tpsa d)) (tpsa_ub b) &&
  fle (charge_lb b) (double_of_Z (charge d)) && fle (double_of_Z (charge d)) (charge_ub b) &&
  fle (nrb_lb b) (double_of_Z (nrb d)) && fle (double_of_Z (nrb d)) (nrb_ub b).

(** The nine filters as triples (lower bound, value, upper bound). *)
Definition filter_fields (b : bounds) (d : descriptors) : list (float * float * float) :=
  [ (mwt_lb b, mwt d, mwt_ub b);
    (logp_lb b, logp d, logp_ub b);
    (ad_lb b, ad d, ad_ub b);
    (pd_lb b, pd d, pd_ub b);
    (hbd_lb b, double_of_Z (hbd d), hbd_ub b);
    (hba_lb b, double_of_Z (hba d), hba_ub b);
    (tpsa_lb b, double_of_Z (tpsa d), tpsa_ub b);
    (charge_lb b, double_of_Z (charge d), charge_ub b);
    (nrb_lb b, double_of_Z (nrb d), nrb_ub b) ].

(** The inclusive range test on one triple. *)
Definition in_range (f : float * float * float) : Prop :=
  fle f.1.1 f.1.2 = true ∧ fle f.1.2 f.2 = true.

(** *** Facts about the bounds *)

Lemma Double_or_absent (p : doc) (k : string) (dflt : float) :
  p !! k = None → Double_or p k dflt = Some dflt.
Proof. intros H. unfold Double_or. rewrite H. reflexivity. Qed.

Lemma Double_or_present (p : doc) (k : string) (dflt x : float) :
  p !! k = Some (BDouble x) → Double_or p k dflt = Some x.
Proof. intros H. unfold Double_or, Double. rewrite H. reflexivity. Qed.

Lemma Double_or_typed (p : doc) (k : string) (dflt : float) :
  bounds_typed p → k ∈ bound_keys → is_Some (Double_or p k dflt).
Proof.
  intros Hp Hk. destruct (Hp k Hk) as [Hn | [x Hx]].
  - rewrite Double_or_absent by exact Hn. eauto.
  - rewrite (Double_or_present _ _ _ x) by exact Hx. eauto.
Qed.

Ltac bound_key :=
  unfold bound_keys;
  repeat first [apply list_elem_of_here | apply list_elem_of_further].

Ltac next_bound Hp :=
  match goal with
  | |- context [Double_or ?p ?k ?d] =>
      let x := fresh "x" in
      let Hx := fresh "Hx" in
      destruct (Double_or_typed p k d Hp ltac:(bound_key)) as [x Hx];
      rewrite Hx; clear Hx; cbn [mbind option_bind]
  end.

(** The bounds never read [default_charge_lb] or [default_charge_ub]. *)
Lemma job_bounds_ignores_default_charge (d : defaults) (p : doc) (lb ub : Z) :
  job_bounds (with_default_charge d lb ub) p = job_bounds d p.
Proof. reflexivity. Qed.

(** *** Facts about the columns *)

Lemma substring_take_drop (s : string) (pos len : nat) :
  String.substring pos len s
  = String.string_of_list_ascii (take len (drop pos (String.list_ascii_of_string s))).
Proof.
  revert pos len. induction s as [|c s IH]; intros pos len.
  - destruct pos, len; reflexivity.
  - destruct pos as [|pos].
    + destruct len as [|len]; [reflexivity|]. simpl. rewrite IH. reflexivity.
    + simpl. rewrite IH. reflexivity.
Qed.

Lemma substr_columns (line : string) (i j : nat) :
  (i ≤ String.length line)%nat →
  substr line i (j - i) = Some (column_text line (i + 1) j).
Proof.
  intros Hi. unfold substr. rewrite decide_True by exact Hi.
  rewrite substring_take_drop. unfold column_text, columns.
  replace (j + 1 - (i + 1))%nat with (j - i)%nat by lia.
  replace (i + 1 - 1)%nat with i by lia. reflexivity.
Qed.

Lemma length_list_ascii (s : string) :
  length (String.list_ascii_of_string s) = String.length s.
Proof. induction s as [|c s IH]; simpl; [reflexivity | rewrite IH; reflexivity]. Qed.

Lemma columns_length (line : string) (a b : nat) :
  (1 ≤ a)%nat → (b ≤ String.length line)%nat →
  length (columns line a b) = (b + 1 - a)%nat.
Proof.
  intros Ha Hb. unfold columns.
  rewrite length_take, length_drop, length_list_ascii. lia.
Qed.

(** The [k]-th character of a column range is the character of the line at
    column [a + k], counted from 1. *)
Lemma columns_lookup (line : string) (a b k : nat) :
  (1 ≤ a)%nat → (a + k ≤ b)%nat →
  columns line a b !! k = String.list_ascii_of_string line !! (a + k - 1)%nat.
Proof.
  intros Ha Hk. unfold columns.
  rewrite lookup_take_lt by lia. rewrite lookup_drop. f_equal. lia.
Qed.

(** *** Facts about the filter *)

Lemma passes_filter_iff (b : bounds) (d : descriptors) :
  passes_filter b d = true ↔ Forall in_range (filter_fields b d).
Proof.
  unfold passes_filter, filter_fields, in_range.
  rewrite !andb_true_iff, !Forall_cons, Forall_nil. simpl. tauto.
Qed.

Lemma passes_filter_false (b : bounds) (d : descriptors) :
  passes_filter b d = false ↔ ¬ Forall in_range (filter_fields b d).
Proof. rewrite <- not_true_iff_false, passes_filter_iff. reflexivity. Qed.

(** C5: when the document has neither [charge_lb] nor [charge_ub], the two
    charge bounds are the defaults of the rotatable-bond filter,
    [default_nrb_lb] = 2 and [default_nrb_ub] = 9, and no value given to
    [default_charge_lb] and [default_charge_ub] changes any bound. *)
Theorem C5_charge_fallback (p : doc) :
  p !! "charge_lb" = None → p !! "charge_ub" = None → bounds_typed p →
  ∃ b : bounds,
    job_bounds main_defaults p = Some b ∧
    charge_lb b = double_of_Z (default_nrb_lb main_defaults) ∧
    charge_ub b = double_of_Z (default_nrb_ub main_defaults) ∧
    charge_lb b = 2%float ∧ charge_ub b = 9%float ∧
    default_charge_lb main_defaults = 0 ∧ default_charge_ub main_defaults = 0 ∧
    ∀ lb ub : Z, job_bounds (with_default_charge main_defaults lb ub) p = Some b.
Proof.
  intros Hlb Hub Hp.
  assert (Hex : ∃ b, job_bounds main_defaults p = Some b ∧
                     charge_lb b = double_of_Z (default_nrb_lb main_defaults) ∧
                     charge_ub b = double_of_Z (default_nrb_ub main_defaults)).
  { unfold job_bounds.
    rewrite (Double_or_absent p "charge_lb") by exact Hlb.
    rewrite (Double_or_absent p "charge_ub") by exact Hub.
    do 16 next_bound Hp. eexists. split; [reflexivity|]. split; reflexivity. }
  destruct Hex as (b & Hb & H1 & H2). exists b.
  split; [exact Hb|]. split; [exact H1|]. split; [exact H2|].
  split; [rewrite H1; reflexivity|]. split; [rewrite H2; reflexivity|].
  split_and!.
  - reflexivity.
  - reflexivity.
  - intros lb ub. rewrite job_bounds_ignores_default_charge. exact Hb.
Qed.

Lemma bounds_typed_empty : bounds_typed (∅ : doc).
Proof. intros k _. left. apply lookup_empty. Qed.

(** C5 on the empty document. *)
Lemma C5_charge_fallback_witness :
  ∃ b : bounds,
    job_bounds main_defaults (∅ : doc) = Some b ∧
    charge_lb b = double_of_Z (default_nrb_lb main_defaults) ∧
    charge_ub b = double_of_Z (default_nrb_ub main_defaults) ∧
    charge_lb b = 2%float ∧ charge_ub b = 9%float ∧
    default_charge_lb main_defaults = 0 ∧ default_charge_ub main_defaults = 0 ∧
    ∀ lb ub : Z, job_bounds (with_default_charge main_defaults lb ub) ∅ = Some b.
Proof.
  apply (C5_charge_fallback ∅).
  - reflexivity.
  - reflexivity.
  - exact bounds_typed_empty.
Defined.

(** C6: on a first line of at least 75 characters the ten fields are read
    from the 1-based inclusive columns 11..18 (compound id), 22..28 (mwt),
    31..37 (logp), 40..46 (ad), 49..55 (pd), 58..59 (hbd), 62..63 (hba),
    66..67 (tpsa), 70..71 (charge) and 74..75 (nrb), and from nothing else. *)
Theorem C6_descriptor_columns
  (cast_fl : string → option float) (cast_size_t cast_int64 : string → option Z)
  (line : string) :
  (75 ≤ String.length line)%nat →
  zinc_id_of line = Some (column_text line 11 18) ∧
  right_cast_text line 21 28 = Some (column_text line 22 28) ∧
  right_cast_text line 30 37 = Some (column_text line 31 37) ∧
  right_cast_text line 39 46 = Some (column_text line 40 46) ∧
  right_cast_text line 48 55 = Some (column_text line 49 55) ∧
  right_cast_text line 57 59 = Some (column_text line 58 59) ∧
  right_cast_text line 61 63 = Some (column_text line 62 63) ∧
  right_cast_text line 65 67 = Some (column_text line 66 67) ∧
  right_cast_text line 69 71 = Some (column_text line 70 71) ∧
  right_cast_text line 73 75 = Some (column_text line 74 75) ∧
  parse_descriptors cast_fl cast_size_t cast_int64 line
    = descriptors_of_columns cast_fl cast_size_t cast_int64 line ∧
  (∀ a b k : nat, (1 ≤ a)%nat → (a + k ≤ b)%nat →
     columns line a b !! k = String.list_ascii_of_string line !! (a + k - 1)%nat) ∧
  length (columns line 11 18) = 8%nat ∧ length (columns line 22 28) = 7%nat ∧
  length (columns line 58 59) = 2%nat ∧ length (columns line 74 75) = 2%nat.
Proof.
  intros Hlen.
  assert (Hrc : ∀ i j : nat, (i ≤ 75)%nat →
            right_cast_text line i j = Some (column_text line (i + 1) j)).
  { intros i j Hi. unfold right_cast_text. apply substr_columns. lia. }
  split_and!.
  - unfold zinc_id_of. exact (substr_columns line 10 18 ltac:(lia)).
  - exact (Hrc 21 28 ltac:(lia))%nat.
  - exact (Hrc 30 37 ltac:(lia))%nat.
  - exact (Hrc 39 46 ltac:(lia))%nat.
  - exact (Hrc 48 55 ltac:(lia))%nat.
  - exact (Hrc 57 59 ltac:(lia))%nat.
  - exact (Hrc 61 63 ltac:(lia))%nat.
  - exact (Hrc 65 67 ltac:(lia))%nat.
  - exact (Hrc 69 71 ltac:(lia))%nat.
  - exact (Hrc 73 75 ltac:(lia))%nat.
  - unfold parse_descriptors, descriptors_of_columns,
      right_cast_fl, right_cast_size_t, right_cast_int64.
    rewrite !Hrc by lia. reflexivity.
  - intros a b k. apply columns_lookup.
  - apply columns_length; lia.
  - apply columns_length; lia.
  - apply columns_length; lia.
  - apply columns_length; lia.
Qed.

(** *** Comparisons with a NaN and with a converted integer *)

Lemma leb_nan_l (x y : float) : PrimFloat.is_nan x = true → fle x y = false.
Proof.
  intros H. unfold fle. rewrite FloatAxioms.leb_spec. unfold FloatOps.Prim2SF at 1.
  rewrite H. reflexivity.
Qed.

Lemma leb_nan_r (x y : float) : PrimFloat.is_nan y = true → fle x y = false.
Proof.
  intros H. unfold fle. rewrite FloatAxioms.leb_spec. unfold FloatOps.Prim2SF at 2. rewrite H.
  destruct (FloatOps.Prim2SF x) as [| | |]; reflexivity.
Qed.

(** The conversion of an unsigned integer has no negative sign. *)
Lemma of_uint63_sign (n : Uint63.int) :
  match FloatOps.Prim2SF (PrimFloat.of_uint63 n) with
  | SpecFloat.S754_zero s | SpecFloat.S754_infinity s | SpecFloat.S754_finite s _ _ => s = false
  | SpecFloat.S754_nan => True
  end.
Proof.
  rewrite FloatAxioms.of_uint63_spec.
  pose proof (Uint63.to_Z_bounded n) as Hb.
  destruct (Uint63.to_Z n) as [|m|m]; [reflexivity| |lia].
  unfold SpecFloat.binary_normalize, SpecFloat.binary_round.
  destruct (SpecFloat.shl_align _ _ _) as [mz ez].
  unfold SpecFloat.binary_round_aux.
  destruct (SpecFloat.shr_fexp _ _ _ _ _) as [mrs' e'].
  destruct (SpecFloat.shr_fexp _ _ _ _ _) as [mrs'' e''].
  destruct (SpecFloat.shr_m mrs''); [reflexivity| |exact I].
  destruct (Z.leb _ _); reflexivity.
Qed.

Lemma fle_2_below (c : Z) : c < 2 → fle 2 (double_of_Z c) = false.
Proof.
  intros Hc. unfold fle, double_of_Z.
  destruct (Z.ltb_spec c 0) as [Hneg|Hpos].
  - rewrite FloatAxioms.leb_spec, FloatAxioms.opp_spec.
    pose proof (of_uint63_sign (Uint63.of_Z (- c))) as Hs.
    destruct (FloatOps.Prim2SF (of_uint63 (Uint63.of_Z (- c)))) as [s|s| |s m e];
      try subst s; reflexivity.
  - assert (c = 0 ∨ c = 1) as [-> | ->] by lia; reflexivity.
Qed.

(** The bounds of a job, field by field. *)
Lemma job_bounds_fields (d : defaults) (p : doc) (b : bounds) :
  job_bounds d p = Some b →
  Double_or p "mwt_lb" (default_mwt_lb d) = Some (mwt_lb b) ∧
  Double_or p "mwt_ub" (default_mwt_ub d) = Some (mwt_ub b) ∧
  Double_or p "logp_lb" (default_logp_lb d) = Some (logp_lb b) ∧
  Double_or p "logp_ub" (default_logp_ub d) = Some (logp_ub b) ∧
  Double_or p "ad_lb" (default_ad_lb d) = Some (ad_lb b) ∧
  Double_or p "ad_ub" (default_ad_ub d) = Some (ad_ub b) ∧
  Double_or p "pd_lb" (default_pd_lb d) = Some (pd_lb b) ∧
  Double_or p "pd_ub" (default_pd_ub d) = Some (pd_ub b) ∧
  Double_or p "hbd_lb" (double_of_Z (default_hbd_lb d)) = Some (hbd_lb b) ∧
  Double_or p "hbd_ub" (double_of_Z (default_hbd_ub d)) = Some (hbd_ub b) ∧
  Double_or p "hba_lb" (double_of_Z (default_hba_lb d)) = Some (hba_lb b) ∧
  Double_or p "hba_ub" (double_of_Z (default_hba_ub d)) = Some (hba_ub b) ∧
  Double_or p "tpsa_lb" (double_of_Z (default_tpsa_lb d)) = Some (tpsa_lb b) ∧
  Double_or p "tpsa_ub" (double_of_Z (default_tpsa_ub d)) = Some (tpsa_ub b) ∧
  Double_or p "charge_lb" (double_of_Z (default_nrb_lb d)) = Some (charge_lb b) ∧
  Double_or p "charge_ub" (double_of_Z (default_nrb_ub d)) = Some (charge_ub b) ∧
  Double_or p "nrb_lb" (double_of_Z (default_nrb_lb d)) = Some (nrb_lb b) ∧
  Double_or p "nrb_ub" (double_of_Z (default_nrb_ub d)) = Some (nrb_ub b).
Proof.
  unfold job_bounds. intros H.
  repeat match type of H with
         | (?x ≫= _) = Some _ => destruct x; cbn [mbind option_bind] in H; [|discriminate]
         end.
  injection H as <-. split_and!; reflexivity.
Qed.

Lemma passes_filter_ranges (b : bounds) (d : descriptors) :
  passes_filter b d = true →
  (fle (mwt_lb b) (mwt d) = true ∧ fle (mwt d) (mwt_ub b) = true) ∧
  (fle (logp_lb b) (logp d) = true ∧ fle (logp d) (logp_ub b) = true) ∧
  (fle (ad_lb b) (ad d) = true ∧ fle (ad d) (ad_ub b) = true) ∧
  (fle (pd_lb b) (pd d) = true ∧ fle (pd d) (pd_ub b) = true) ∧
  (fle (hbd_lb b) (double_of_Z (hbd d)) = true ∧ fle (double_of_Z (hbd d)) (hbd_ub b) = true) ∧
  (fle (hba_lb b) (double_of_Z (hba d)) = true ∧ fle (double_of_Z (hba d)) (hba_ub b) = true) ∧
  (fle (tpsa_lb b) (double_of_Z (tpsa d)) = true ∧ fle (double_of_Z (tpsa d)) (tpsa_ub b) = true) ∧
  (fle (charge_lb b) (double_of_Z (charge d)) = true ∧
   fle (double_of_Z (charge d)) (charge_ub b) = true) ∧
  (fle (nrb_lb b) (double_of_Z (nrb d)) = true ∧ fle (double_of_Z (nrb d)) (nrb_ub b) = true).
Proof.
  unfold passes_filter. rewrite !andb_true_iff. tauto.
Qed.

(** A job that does not give [charge_lb]: the lower charge bound is
    [default_nrb_lb] = 2, so every ligand of charge below 2, the neutral
    ones among them, is skipped. *)
Theorem default_charge_bound_rejects (p : doc) (b : bounds) (d : descriptors) :
  p !! "charge_lb" = None → job_bounds main_defaults p = Some b → charge d < 2 →
  passes_filter b d = false.
Proof.
  intros Hp Hb Hc. apply job_bounds_fields in Hb.
  destruct Hb as (_ & _ & _ & _ & _ & _ & _ & _ & _ & _ & _ & _ & _ & _ & Hlb & _).
  rewrite (Double_or_absent _ _ _ Hp) in Hlb. injection Hlb as Hlb.
  destruct (passes_filter b d) eqn:E; [|reflexivity].
  apply passes_filter_ranges in E.
  destruct E as (_ & _ & _ & _ & _ & _ & _ & [E _] & _).
  rewrite <- Hlb in E. change (double_of_Z 2) with 2%float in E.
  rewrite (fle_2_below _ Hc) in E. discriminate.
Qed.

(** A bound that is a NaN makes both comparisons with it false: no ligand
    passes the filter of such a job. *)
Theorem nan_bound_rejects (p : doc) (b : bounds) (d : descriptors) (k : string) (x : float) :
  k ∈ bound_keys → p !! k = Some (BDouble x) → PrimFloat.is_nan x = true →
  job_bounds main_defaults p = Some b →
  passes_filter b d = false.
Proof.
  intros Hk Hp Hx Hb. apply job_bounds_fields in Hb.
  destruct (passes_filter b d) eqn:E; [|reflexivity]. exfalso.
  apply passes_filter_ranges in E.
  unfold bound_keys in Hk. rewrite !elem_of_cons, elem_of_nil in Hk.
  repeat match goal with
         | H : _ ∧ _ |- _ => destruct H
         end.
  repeat match goal with
         | H : _ ∨ _ |- _ => destruct H
         end; try contradiction; subst k;
  repeat match goal with
         | H : Double_or p ?k ?dflt = Some ?f |- _ =>
             first [ rewrite (Double_or_present p k dflt x Hp) in H; injection H as H
                   | clear H ]
         end;
  match goal with
  | H : x = ?f |- _ => subst
  end;
  repeat match goal with
         | H : fle ?a ?c = true |- _ =>
             first [ rewrite (leb_nan_l a c Hx) in H; discriminate
                   | rewrite (leb_nan_r a c Hx) in H; discriminate
                   | clear H ]
         end.
Qed.

(** The element of a bound key, when there is one, is a double or not. *)
Definition typed_bound (p : doc) (k : string) : bool :=
  match p !! k with
  | Some (BString _) => false
  | _ => true
  end.

Lemma bounds_typed_forall (p : doc) :
  Forall (λ k, typed_bound p k = true) bound_keys → bounds_typed p.
Proof.
  intros H k Hk. rewrite Forall_forall in H. specialize (H k Hk).
  unfold typed_bound in H. destruct (p !! k) as [[x|s]|]; [right; eauto | discriminate | left; reflexivity].
Qed.

Lemma job_bounds_typed (d : defaults) (p : doc) :
  bounds_typed p → is_Some (job_bounds d p).
Proof. intros Hp. unfold job_bounds. do 18 next_bound Hp. eauto. Qed.

(** Reading the bounds throws exactly when the document gives one of the
    eighteen bounds as something that is not a double; a bound that is
    missing never throws. *)
Theorem job_bounds_throws (d : defaults) (p : doc) :
  job_bounds d p = None ↔ ∃ k s, k ∈ bound_keys ∧ p !! k = Some (BString s).
Proof.
  split.
  - intros Hnone.
    destruct (decide (Forall (λ k, typed_bound p k = true) bound_keys)) as [Hall|Hnot].
    + apply bounds_typed_forall, (job_bounds_typed d) in Hall.
      rewrite Hnone in Hall. destruct Hall as [? ?]. discriminate.
    + apply not_Forall_Exists in Hnot; [|intros k; apply _].
      apply Exists_exists in Hnot as (k & Hk & Hbad). unfold compose, typed_bound in Hbad.
      destruct (p !! k) as [[x|s]|] eqn:Hp; try (exfalso; apply Hbad; reflexivity).
      exists k, s. auto.
  - intros (k & s & Hk & Hp). destruct (job_bounds d p) as [b|] eqn:Hb; [|reflexivity].
    exfalso. apply job_bounds_fields in Hb.
    unfold bound_keys in Hk. rewrite !elem_of_cons, elem_of_nil in Hk.
    repeat match goal with
           | H : _ ∧ _ |- _ => destruct H
           end.
    repeat match goal with
           | H : _ ∨ _ |- _ => destruct H
           end; try contradiction; subst k;
    repeat match goal with
           | H : Double_or p _ _ = Some _ |- _ =>
               first [ unfold Double_or, Double in H; rewrite Hp in H; discriminate H
                     | clear H ]
           end.
Qed.

(** A neutral ligand that is within every other default bound, under the
    bounds of the empty document; with a charge of 2 it would pass. *)
Lemma default_charge_bound_rejects_witness :
  ∃ b : bounds,
    job_bounds main_defaults (∅ : doc) = Some b ∧
    passes_filter b (Descriptors 450 2 0 (-10) 2 4 40 0 5) = false ∧
    passes_filter b (Descriptors 450 2 0 (-10) 2 4 40 2 5) = true.
Proof.
  eexists. split; [reflexivity|]. split.
  - apply (default_charge_bound_rejects ∅); [reflexivity | reflexivity | simpl; lia].
  - vm_compute. reflexivity.
Defined.

(** The same ligand, of charge 2, under a job whose [mwt_ub] is a NaN. *)
Lemma nan_bound_rejects_witness :
  ∃ b : bounds,
    job_bounds main_defaults (<["mwt_ub" := BDouble PrimFloat.nan]> (∅ : doc)) = Some b ∧
    passes_filter b (Descriptors 450 2 0 (-10) 2 4 40 2 5) = false.
Proof.
  eexists. split; [vm_compute; reflexivity|].
  apply (nan_bound_rejects (<["mwt_ub" := BDouble PrimFloat.nan]> (∅ : doc)) _ _
           "mwt_ub" PrimFloat.nan);
    [bound_key | vm_compute; reflexivity | reflexivity | vm_compute; reflexivity].
Defined.

End Job.

(** ** The job queue (main.cpp, lines 166-186 and 421) *)

Module Queue.

Import Job.

(** The collection [istar.jobs]: its documents, in the order in which a
    query without a sort visits them. *)
Abbreviation collection := (list doc).

(** The condition [{progress: n}] of a query: the element is a number equal
    to [n].  Numbers are doubles, as the bounds of the document are. *)
Definition progress_is (n : float) (p : doc) : bool :=
  match p !! "progress" with
  | Some (BDouble x) => PrimFloat.eqb x n
  | _ => false
  end.

(** The condition [{_id: id}]. *)
Definition id_is (id : string) (p : doc) : bool :=
  match p !! "_id" with
  | Some (BString s) => bool_decide (s = id)
  | _ => false
  end.

(** [c.query(ns, q, 1)] followed by [cursor->more()] and [cursor->next()]:
    the first document that matches, if there is one. *)
Definition query_one (q : doc → bool) (db : collection) : option doc :=
  head (filter (λ p, q p) db).

(** The modifier [{$inc: {progress: 1}}]: a number is incremented, a
    missing element is set to the increment, and an element that is not a
    number is left as it is (the server reports an error that [main] only
    prints). *)
Definition inc_progress (p : doc) : doc :=
  match p !! "progress" with
  | Some (BDouble x) => <["progress" := BDouble (x + 1)]> p
  | Some (BString _) => p
  | None => <["progress" := BDouble 1]> p
  end.

(** [c.update(ns, q, u)] with neither [upsert] nor [multi]: the first
    document that matches is modified. *)
Fixpoint update_one (q : doc → bool) (u : doc → doc) (db : collection) : collection :=
  match db with
  | [] => []
  | p :: db' => if q p then u p :: db' else p :: update_one q u db'
  end.

(** Lines 168-180: what an iteration of [while (true)] gets from the
    queue.  [_id] and [slice] are read with [String()], which throws on an
    element of another type, before the update is sent. *)
Inductive fetched :=
| NoJob
| Malformed
| Claimed (p : doc) (id slice : string) (db' : collection).

Definition fetch (db : collection) : fetched :=
  match query_one (progress_is 0) db with
  | None => NoJob
  | Some p =>
      match String_ p "_id", String_ p "slice" with
      | Some id, Some slice =>
          Claimed p id slice (update_one (id_is id) inc_progress db)
      | _, _ => Malformed
      end
  end.

(** Line 421: [c.query(ns, QUERY("_id" << _id << "progress" << 100), 1)->more()]. *)
Definition all_slices_done (id : string) (db : collection) : bool :=
  bool_decide (is_Some (query_one (λ p, id_is id p && progress_is 100 p) db)).

(** The pending documents: those the query of line 168 matches. *)
Definition pending (db : collection) : list doc := filter (λ p, progress_is 0 p) db.

(** No two documents of a collection have the same [_id]. *)
Definition unique_ids (db : collection) : Prop := NoDup ((λ p : doc, p !! "_id") <$> db).

(** A document [fetch] can claim: [_id] and [slice] are strings. *)
Definition claimable (p : doc) : Prop := is_Some (String_ p "_id") ∧ is_Some (String_ p "slice").

(** The documents claimed by the first [n] iterations that find a job. *)
Fixpoint claimed (n : nat) (db : collection) : list doc :=
  match n with
  | O => []
  | S n' =>
      match fetch db with
      | Claimed p _ _ db' => p :: claimed n' db'
      | _ => []
      end
  end.

(** *** Facts *)

Lemma eqb_zero (x : float) : PrimFloat.eqb x 0 = true → x = 0%float ∨ x = (-0)%float.
Proof.
  rewrite FloatAxioms.eqb_spec. intros H.
  rewrite <- (FloatAxioms.SF2Prim_Prim2SF x).
  change (FloatOps.Prim2SF 0) with (SpecFloat.S754_zero false) in H.
  destruct (FloatOps.Prim2SF x) as [s|s| |s m e]; try destruct s; try discriminate H.
  - right. reflexivity.
  - left. reflexivity.
Qed.

Lemma inc_progress_pending (p : doc) :
  progress_is 0 p = true →
  inc_progress p = <["progress" := BDouble 1]> p ∧
  progress_is 0 (inc_progress p) = false ∧
  progress_is 1 (inc_progress p) = true ∧
  progress_is 100 (inc_progress p) = false ∧
  inc_progress p !! "_id" = p !! "_id".
Proof.
  unfold progress_is, inc_progress. destruct (p !! "progress") as [[x|s]|] eqn:Hp; try discriminate.
  intros Hx.
  assert (Hone : (x + 1)%float = 1%float).
  { destruct (eqb_zero x Hx) as [-> | ->]; reflexivity. }
  rewrite Hone, lookup_insert_eq. split_and!; try reflexivity.
  apply lookup_insert_ne. discriminate.
Qed.

Lemma unique_ids_cons (p : doc) (db : collection) :
  unique_ids (p :: db) → unique_ids db ∧ ∀ q, q ∈ db → q !! "_id" ≠ p !! "_id".
Proof.
  unfold unique_ids. rewrite fmap_cons, NoDup_cons. intros [Hp Hdb]. split; [exact Hdb|].
  intros q Hq Heq. apply Hp. rewrite <- Heq. apply list_elem_of_fmap. eauto.
Qed.

Lemma query_one_elem (q : doc → bool) (db : collection) (p : doc) :
  query_one q db = Some p → p ∈ db ∧ q p = true.
Proof.
  unfold query_one. intros H. apply head_Some_elem_of in H.
  apply list_elem_of_filter in H as [Hq Hp]. split; [exact Hp|].
  destruct (q p); [reflexivity | contradiction].
Qed.

Lemma id_is_lookup (id : string) (p : doc) : id_is id p = true ↔ p !! "_id" = Some (BString id).
Proof.
  unfold id_is. destruct (p !! "_id") as [[x|s]|]; try (split; discriminate).
  rewrite bool_decide_eq_true. split; congruence.
Qed.

Lemma String_id (p : doc) (id : string) : String_ p "_id" = Some id → id_is id p = true.
Proof.
  unfold String_. intros H. apply id_is_lookup.
  destruct (p !! "_id") as [[x|s]|]; try discriminate. congruence.
Qed.

(** Claiming the head of the pending documents. *)
Lemma update_head_pending (db : collection) (p : doc) (id : string) :
  unique_ids db → query_one (progress_is 0) db = Some p → id_is id p = true →
  pending (update_one (id_is id) inc_progress db) = tail (pending db) ∧
  unique_ids (update_one (id_is id) inc_progress db) ∧
  (∀ q, q ∈ update_one (id_is id) inc_progress db → id_is id q = true → q = inc_progress p) ∧
  length (update_one (id_is id) inc_progress db) = length db.
Proof.
  intros Hu Hq Hid. induction db as [|q db IH]; [discriminate Hq|].
  destruct (unique_ids_cons _ _ Hu) as [Hu' Hne].
  unfold query_one in Hq. unfold pending. cbn [update_one].
  destruct (progress_is 0 q) eqn:Hpq.
  - rewrite filter_cons_True in Hq by (cbv beta; rewrite Hpq; exact I).
    injection Hq as ->. rewrite Hid.
    destruct (inc_progress_pending p Hpq) as (_ & H0 & _ & _ & Hid').
    rewrite (filter_cons_True _ p) by (cbv beta; rewrite Hpq; exact I).
    rewrite (filter_cons_False _ (inc_progress p)) by (cbv beta; rewrite H0; auto). split_and!.
    + reflexivity.
    + unfold unique_ids in *. rewrite fmap_cons in *. rewrite Hid'. exact Hu.
    + intros q Hq Hq'. apply elem_of_cons in Hq as [-> | Hq]; [reflexivity|]. exfalso.
      apply (Hne q Hq). apply id_is_lookup in Hid, Hq'. congruence.
    + reflexivity.
  - rewrite filter_cons_False in Hq by (cbv beta; rewrite Hpq; auto).
    assert (Hpdb : p ∈ db) by (apply (query_one_elem _ _ _ Hq)).
    assert (Hqid : id_is id q = false).
    { destruct (id_is id q) eqn:E; [|reflexivity]. exfalso.
      apply (Hne p Hpdb). apply id_is_lookup in Hid, E. congruence. }
    rewrite Hqid. destruct (IH Hu' Hq) as (IH1 & IH2 & IH3 & IH4).
    rewrite !filter_cons_False by (cbv beta; rewrite Hpq; auto). split_and!.
    + exact IH1.
    + unfold unique_ids in *. rewrite fmap_cons. apply NoDup_cons. split; [|exact IH2].
      intros Hin. apply list_elem_of_fmap in Hin as (r & Hr & Hrin).
      destruct (decide (id_is id r = true)) as [Hrid|Hrid].
      * apply id_is_lookup in Hrid. rewrite Hrid in Hr.
        apply id_is_lookup in Hr. congruence.
      * assert (Hrdb : r ∈ db).
        { clear -Hrin Hrid. induction db as [|a db IH]; [inversion Hrin|].
          cbn [update_one] in Hrin. destruct (id_is id a) eqn:Ha.
          - apply elem_of_cons in Hrin as [-> | Hrin].
            + exfalso. apply Hrid. apply id_is_lookup. apply id_is_lookup in Ha.
              unfold inc_progress. destruct (a !! "progress") as [[x|s]|];
                rewrite ?lookup_insert_ne by discriminate; exact Ha.
            + apply list_elem_of_further, Hrin.
          - apply elem_of_cons in Hrin as [-> | Hrin];
              [apply list_elem_of_here | apply list_elem_of_further, IH, Hrin]. }
        apply (Hne r Hrdb). symmetry. exact Hr.
    + intros r Hr Hrid. apply elem_of_cons in Hr as [-> | Hr]; [congruence|].
      apply IH3; assumption.
    + simpl. rewrite IH4. reflexivity.
Qed.

Lemma update_one_insert (db : collection) (id : string) (u : doc → doc) :
  unique_ids db → ∀ (i : nat) (p : doc), db !! i = Some p → id_is id p = true →
  update_one (id_is id) u db = <[i := u p]> db.
Proof.
  induction db as [|q db IH]; intros Hu i p Hi Hid; [discriminate Hi|].
  destruct (unique_ids_cons _ _ Hu) as [Hu' Hne]. cbn [update_one].
  destruct i as [|i]; simpl in Hi.
  - injection Hi as ->. rewrite Hid. reflexivity.
  - assert (Hq : id_is id q = false).
    { destruct (id_is id q) eqn:E; [|reflexivity]. exfalso.
      apply (Hne p); [apply list_elem_of_lookup; eauto|].
      apply id_is_lookup in Hid, E. congruence. }
    rewrite Hq. simpl. f_equal. apply IH; assumption.
Qed.

Lemma fetch_inv (db : collection) (p : doc) (id slice : string) (db' : collection) :
  fetch db = Claimed p id slice db' →
  query_one (progress_is 0) db = Some p ∧ String_ p "_id" = Some id ∧
  String_ p "slice" = Some slice ∧ db' = update_one (id_is id) inc_progress db.
Proof.
  unfold fetch. destruct (query_one (progress_is 0) db) as [q|]; [|discriminate].
  destruct (String_ q "_id") as [i|] eqn:Hi; [|discriminate].
  destruct (String_ q "slice") as [s|] eqn:Hs; [|discriminate].
  intros H. injection H as -> -> -> <-. split_and!; reflexivity || assumption.
Qed.

Lemma claim_not_done (db : collection) (p : doc) (id : string) :
  unique_ids db → query_one (progress_is 0) db = Some p → id_is id p = true →
  all_slices_done id (update_one (id_is id) inc_progress db) = false.
Proof.
  intros Hu Hq Hid.
  destruct (update_head_pending db p id Hu Hq Hid) as (_ & _ & H3 & _).
  destruct (query_one_elem _ _ _ Hq) as [_ Hp0].
  unfold all_slices_done, query_one. apply bool_decide_eq_false.
  intros [q Hq']. apply head_Some_elem_of, list_elem_of_filter in Hq' as [Hq1 Hq2].
  destruct (id_is id q) eqn:E; [|contradiction].
  rewrite (H3 q Hq2 E) in Hq1.
  destruct (inc_progress_pending p Hp0) as (_ & _ & _ & H100 & _).
  rewrite H100 in Hq1. exact Hq1.
Qed.

Lemma fetch_none (db : collection) : pending db = [] → fetch db = NoJob.
Proof. intros Hp. unfold fetch, query_one. fold (pending db). rewrite Hp. reflexivity. Qed.

Lemma fetch_head (db : collection) (p : doc) (l : list doc) :
  pending db = p :: l → claimable p →
  ∃ id slice,
    query_one (progress_is 0) db = Some p ∧ id_is id p = true ∧
    fetch db = Claimed p id slice (update_one (id_is id) inc_progress db).
Proof.
  intros Hp [[id Hid] [sl Hsl]]. exists id, sl.
  assert (Hq : query_one (progress_is 0) db = Some p).
  { unfold query_one. fold (pending db). rewrite Hp. reflexivity. }
  split_and!; [exact Hq | apply String_id, Hid |].
  unfold fetch. rewrite Hq, Hid, Hsl. reflexivity.
Qed.

(** A fetch claims the first pending document: afterwards that document,
    and no other, has changed, its progress is 1, it is pending no more,
    and the query of line 421 for progress 100 finds nothing. *)
Theorem fetch_claims_head (db : collection) (p : doc) (id slice : string) (db' : collection) :
  unique_ids db → fetch db = Claimed p id slice db' →
  head (pending db) = Some p ∧
  p !! "_id" = Some (BString id) ∧
  (∃ i : nat, db !! i = Some p ∧ db' = <[i := <["progress" := BDouble 1]> p]> db) ∧
  pending db' = tail (pending db) ∧
  all_slices_done id db' = false ∧
  unique_ids db'.
Proof.
  intros Hu Hf. apply fetch_inv in Hf as (Hq & Hid & Hs & ->).
  pose proof (String_id _ _ Hid) as Hid'.
  destruct (update_head_pending db p id Hu Hq Hid') as (H1 & H2 & H3 & _).
  destruct (query_one_elem _ _ _ Hq) as [Hp Hp0].
  split_and!.
  - exact Hq.
  - apply id_is_lookup, Hid'.
  - apply list_elem_of_lookup in Hp as [i Hi]. exists i. split; [exact Hi|].
    rewrite (update_one_insert db id inc_progress Hu i p Hi Hid').
    destruct (inc_progress_pending p Hp0) as (-> & _). reflexivity.
  - exact H1.
  - apply (claim_not_done db p id Hu Hq Hid').
  - exact H2.
Qed.

(** The worker is handed the pending documents of the collection one by
    one, each once, in the order of the collection. *)
Theorem claimed_pending (n : nat) :
  ∀ db : collection,
    unique_ids db → Forall claimable (pending db) →
    claimed n db = take n (pending db) ∧
    (fetch db = NoJob ↔ pending db = []).
Proof.
  assert (Hno : ∀ db, fetch db = NoJob ↔ pending db = []).
  { intros db. unfold fetch, query_one. fold (pending db).
    destruct (pending db) as [|p l]; simpl; [split; reflexivity|].
    split; [|discriminate].
    destruct (String_ p "_id"), (String_ p "slice"); discriminate. }
  induction n as [|n IH]; intros db Hu Hall; (split; [|apply Hno]); [reflexivity|].
  cbn [claimed]. destruct (pending db) as [|p l] eqn:Hp.
  - rewrite (fetch_none db Hp). reflexivity.
  - apply Forall_cons in Hall as [Hc Hl].
    destruct (fetch_head db p l Hp Hc) as (id & sl & Hq & Hid & Hf).
    rewrite Hf.
    destruct (update_head_pending db p id Hu Hq Hid) as (Hp' & Hu' & _).
    rewrite Hp in Hp'. simpl in Hp'.
    destruct (IH _ Hu' ltac:(rewrite Hp'; exact Hl)) as [-> _]. rewrite Hp'. reflexivity.
Qed.

(** A collection of two documents: one whose slice is taken, one that is
    pending. *)
Definition taken_job : doc :=
  list_to_map [("_id", BString "a"); ("slice", BString "0"); ("progress", BDouble 1)].

Definition pending_job : doc :=
  list_to_map [("_id", BString "b"); ("slice", BString "1"); ("progress", BDouble 0)].

Lemma unique_ids_jobs : unique_ids [taken_job; pending_job].
Proof.
  unfold unique_ids. rewrite !fmap_cons. apply NoDup_cons. split; [|apply NoDup_singleton].
  intros H. apply list_elem_of_singleton in H. vm_compute in H. discriminate H.
Qed.

Lemma pending_jobs : pending [taken_job; pending_job] = [pending_job].
Proof. vm_compute. reflexivity. Qed.

(** A fetch on the two documents claims the pending one. *)
Lemma fetch_claims_head_witness :
  head (pending [taken_job; pending_job]) = Some pending_job ∧
  pending (update_one (id_is "b") inc_progress [taken_job; pending_job])
    = tail (pending [taken_job; pending_job]) ∧
  all_slices_done "b" (update_one (id_is "b") inc_progress [taken_job; pending_job]) = false.
Proof.
  destruct (fetch_claims_head [taken_job; pending_job] pending_job "b" "1"
              (update_one (id_is "b") inc_progress [taken_job; pending_job])
              unique_ids_jobs ltac:(vm_compute; reflexivity))
    as (H1 & _ & _ & H4 & H5 & _).
  split_and!; assumption.
Defined.

(** Three iterations on the two documents claim the pending one, once. *)
Lemma claimed_pending_witness :
  claimed 3 [taken_job; pending_job] = take 3 (pending [taken_job; pending_job]) ∧
  (fetch [taken_job; pending_job] = NoJob ↔ pending [taken_job; pending_job] = []).
Proof.
  apply (claimed_pending 3 [taken_job; pending_job] unique_ids_jobs).
  rewrite pending_jobs. constructor; [|constructor].
  split; eexists; vm_compute; reflexivity.
Defined.

End Queue.

(** ** Locating a ligand in the library (main.cpp, lines 295-311) *)

Module Library.

(** An input file stream: the characters of the file, the read position
    and the two state bits the loop depends on. *)
Record ifstream := IfStream {
  chars : list ascii;
  gpos : nat;
  failbit : bool;
  eofbit : bool
}.

(** [ifstream s(path)]: a file that cannot be opened leaves the stream
    with [failbit] set. *)
Definition open (file : option (list ascii)) : ifstream :=
  match file with
  | Some cs => IfStream cs 0 false false
  | None => IfStream [] 0 true false
  end.

(** [s.seekg(pos)] clears [eofbit] and, unless the stream has failed, moves
    the read position; the file buffer accepts a position beyond the end.
    A position that does not fit the signed offset type fails. *)
Definition seekg (pos : N) (s : ifstream) : ifstream :=
  if failbit s then IfStream (chars s) (gpos s) true false
  else if (pos <? 2 ^ 63)%N then IfStream (chars s) (N.to_nat pos) false false
  else IfStream (chars s) (gpos s) true false.

(** [sizeof(size_t)] and the value of the bytes of a [size_t] object, least
    significant byte first, as on the x86-64 machines the worker runs on. *)
Definition sizeof_size_t : nat := 8.

Fixpoint size_t_of_bytes (bs : list ascii) : N :=
  match bs with
  | [] => 0
  | b :: bs' => N_of_ascii b + 256 * size_t_of_bytes bs'
  end.

Fixpoint bytes_of_size_t (n : nat) (x : N) : list ascii :=
  match n with
  | O => []
  | S n' => ascii_of_N (x mod 256) :: bytes_of_size_t n' (x / 256)
  end.

(** [size_t header; s.read((char* )&header, sizeof(size_t));]: the value
    read, when all eight bytes are there.  On a stream that is not good, or
    with fewer bytes left, [failbit] is set and [header], a local variable
    without initializer, has no determined value. *)
Definition read_size_t (s : ifstream) : option N * ifstream :=
  if failbit s || eofbit s then (None, IfStream (chars s) (gpos s) true (eofbit s))
  else
    let bs := take sizeof_size_t (drop (gpos s) (chars s)) in
    if decide (length bs = sizeof_size_t)
    then (Some (size_t_of_bytes bs), IfStream (chars s) (gpos s + sizeof_size_t) false false)
    else (None, IfStream (chars s) (gpos s + length bs) true true).

Definition newline : ascii := ascii_of_nat 10.

(** The characters up to the first newline, and what follows it if there
    is one. *)
Fixpoint split_line (cs : list ascii) : list ascii * option (list ascii) :=
  match cs with
  | [] => ([], None)
  | c :: cs' =>
      if decide (c = newline) then ([], Some cs')
      else let '(l, r) := split_line cs' in (c :: l, r)
  end.

(** [getline(s, line)]: on a stream that is not good the line keeps its
    value and [failbit] is set; otherwise the line is erased and receives
    the characters up to the newline, which is extracted too; reaching the
    end of the file sets [eofbit], and [failbit] as well when nothing was
    extracted. *)
Definition getline (s : ifstream) (line : string) : ifstream * string :=
  if failbit s || eofbit s then (IfStream (chars s) (gpos s) true (eofbit s), line)
  else
    match split_line (drop (gpos s) (chars s)) with
    | (l, Some _) =>
        (IfStream (chars s) (gpos s + length l + 1) false false, String.string_of_list_ascii l)
    | (l, None) =>
        (IfStream (chars s) (gpos s + length l) (bool_decide (l = [])) true,
         String.string_of_list_ascii l)
    end.

(** The two streams and the line buffer of the ligand loop. *)
Record streams := Streams {
  headers : ifstream;
  ligands : ifstream;
  line : string
}.

(** Lines 295-299: [string line; ifstream headers(headers_path);
    headers.seekg(sizeof(size_t) * start_lig); ifstream ligands(ligands_path);]
    The product is one of two [size_t] values and is taken modulo 2^64. *)
Definition open_library (hdr lig : option (list ascii)) (start_lig : N) : streams :=
  Streams (seekg ((N.of_nat sizeof_size_t * start_lig) mod 2 ^ 64) (open hdr))
          (open lig) EmptyString.

(** Lines 306-311, locating a ligand: read its header, seek, read the
    first line.  [None]: the header has no determined value. *)
Definition locate (st : streams) : option streams :=
  let '(h, hs) := read_size_t (headers st) in
  header ← h;
  let '(ls, l) := getline (seekg header (ligands st)) (line st) in
  Some (Streams hs ls l).

(** The lines of [n] consecutive iterations of the loop. *)
Fixpoint lines_read (n : nat) (st : streams) : option (list string) :=
  match n with
  | O => Some []
  | S n' => st' ← locate st; ls ← lines_read n' st'; Some (line st' :: ls)
  end.

(** A library: for every ligand its first line and the rest of its record. *)
Definition record_chars (r : list ascii * list ascii) : list ascii :=
  r.1 ++ newline :: r.2.

Definition ligands_file (rs : list (list ascii * list ascii)) : list ascii :=
  rs ≫= record_chars.

(** The offset of record [k]: the length of the records before it. *)
Definition offset (rs : list (list ascii * list ascii)) (k : nat) : N :=
  N.of_nat (length (ligands_file (take k rs))).

Definition headers_file (rs : list (list ascii * list ascii)) : list ascii :=
  seq 0 (length rs) ≫= (λ k, bytes_of_size_t sizeof_size_t (offset rs k)).

(** *** Facts *)

Lemma size_t_of_bytes_of (n : nat) :
  ∀ x : N, size_t_of_bytes (bytes_of_size_t n x) = (x mod 256 ^ N.of_nat n)%N.
Proof.
  induction n as [|n IH]; intros x.
  - simpl. rewrite N.mod_1_r. reflexivity.
  - cbn [bytes_of_size_t size_t_of_bytes]. rewrite IH.
    rewrite N_ascii_embedding by (apply N.mod_upper_bound; lia).
    rewrite Nat2N.inj_succ, N.pow_succ_r by lia.
    rewrite (N.Div0.mod_mul_r x 256 (256 ^ N.of_nat n)). reflexivity.
Qed.

Lemma bytes_of_size_t_length (n : nat) : ∀ x, length (bytes_of_size_t n x) = n.
Proof. induction n as [|n IH]; intros x; simpl; [reflexivity | rewrite IH; reflexivity]. Qed.

Lemma split_line_app (l rest : list ascii) :
  newline ∉ l → split_line (l ++ newline :: rest) = (l, Some rest).
Proof.
  induction l as [|c l IH]; intros Hl; cbn [split_line app].
  - rewrite decide_True by reflexivity. reflexivity.
  - rewrite decide_False by (intros ->; apply Hl, list_elem_of_here).
    rewrite IH by (intros H; apply Hl, list_elem_of_further, H). reflexivity.
Qed.

Lemma bind_chunks {A B : Type} (f : A → list B) (m : nat) (l : list A) :
  (∀ x, length (f x) = m) →
  ∀ k, drop (m * k) (l ≫= f) = drop k l ≫= f.
Proof.
  intros Hf. induction l as [|x l IH]; intros k.
  - change ([] ≫= f) with (@nil B). rewrite !drop_nil. reflexivity.
  - destruct k as [|k].
    + rewrite Nat.mul_0_r. reflexivity.
    + rewrite bind_cons. replace (m * S k)%nat with (length (f x) + m * k)%nat
        by (rewrite Hf; lia).
      rewrite drop_app_add. apply IH.
Qed.

Lemma headers_file_length (rs : list (list ascii * list ascii)) :
  length (headers_file rs) = (sizeof_size_t * length rs)%nat.
Proof.
  assert (H : ∀ (f : nat → N) (ks : list nat),
            length (ks ≫= (λ k, bytes_of_size_t sizeof_size_t (f k)))
            = (sizeof_size_t * length ks)%nat).
  { intros f ks. induction ks as [|k ks IH]; [reflexivity|].
    rewrite bind_cons, length_app, bytes_of_size_t_length, IH. simpl. lia. }
  unfold headers_file. rewrite H, length_seq. reflexivity.
Qed.

Lemma headers_file_at (rs : list (list ascii * list ascii)) (k : nat) :
  (k < length rs)%nat →
  take sizeof_size_t (drop (sizeof_size_t * k) (headers_file rs))
  = bytes_of_size_t sizeof_size_t (offset rs k).
Proof.
  intros Hk. unfold headers_file.
  rewrite (bind_chunks _ sizeof_size_t) by (intros x; apply bytes_of_size_t_length).
  rewrite drop_seq. replace (length rs - k)%nat with (S (length rs - k - 1)) by lia.
  cbn [seq]. rewrite bind_cons, Nat.add_0_l.
  rewrite take_app_length' by (symmetry; apply bytes_of_size_t_length). reflexivity.
Qed.

Lemma ligands_file_split (rs : list (list ascii * list ascii)) (k : nat) :
  ligands_file rs = ligands_file (take k rs) ++ ligands_file (drop k rs).
Proof. unfold ligands_file. rewrite <- bind_app, take_drop. reflexivity. Qed.

Lemma offset_le (rs : list (list ascii * list ascii)) (k : nat) :
  (offset rs k <= N.of_nat (length (ligands_file rs)))%N.
Proof.
  unfold offset. rewrite (ligands_file_split rs k), length_app. lia.
Qed.

Lemma ligands_file_at (rs : list (list ascii * list ascii)) (k : nat)
    (r : list ascii * list ascii) :
  rs !! k = Some r →
  drop (N.to_nat (offset rs k)) (ligands_file rs)
  = r.1 ++ newline :: (r.2 ++ ligands_file (drop (S k) rs)).
Proof.
  intros Hr. unfold offset. rewrite Nat2N.id.
  rewrite (ligands_file_split rs k). rewrite drop_app_length.
  rewrite (drop_S _ _ _ Hr). unfold ligands_file at 1. rewrite bind_cons.
  unfold record_chars. rewrite <- app_assoc. reflexivity.
Qed.

(** One iteration on a library whose header file holds the offsets of the
    records of its ligand file. *)
Lemma locate_record (rs : list (list ascii * list ascii)) (k : nat)
    (r : list ascii * list ascii) (ls : ifstream) (l : string) :
  newline ∉ r.1 →
  (N.of_nat (length (ligands_file rs)) < 2 ^ 63)%N →
  rs !! k = Some r →
  chars ls = ligands_file rs → failbit ls = false →
  ∃ ls' : ifstream,
    locate (Streams (IfStream (headers_file rs) (sizeof_size_t * k) false false) ls l)
    = Some (Streams (IfStream (headers_file rs) (sizeof_size_t * S k) false false) ls'
              (String.string_of_list_ascii r.1)) ∧
    chars ls' = ligands_file rs ∧ failbit ls' = false.
Proof.
  intros Hnl Hsize Hr Hchars Hfail.
  assert (Hk : (k < length rs)%nat) by (eapply lookup_lt_Some; eauto).
  pose proof (offset_le rs k) as Hoff.
  unfold locate, read_size_t. cbn [headers ligands line failbit eofbit chars gpos orb].
  rewrite (headers_file_at rs k Hk), decide_True by apply bytes_of_size_t_length.
  rewrite size_t_of_bytes_of.
  rewrite N.mod_small by (change (256 ^ N.of_nat sizeof_size_t)%N with (2 ^ 64)%N;
                          assert (2 ^ 63 < 2 ^ 64)%N by reflexivity; lia).
  cbn [mbind option_bind]. unfold seekg. rewrite Hfail.
  assert (Hlt : (offset rs k <? 2 ^ 63)%N = true) by (apply N.ltb_lt; lia).
  rewrite Hlt. unfold getline. cbn [failbit eofbit chars gpos orb].
  rewrite Hchars, (ligands_file_at rs k r Hr), (split_line_app _ _ Hnl).
  exists (IfStream (ligands_file rs) (N.to_nat (offset rs k) + length r.1 + 1) false false).
  split; [|split; reflexivity].
  do 3 f_equal. lia.
Qed.

(** Round trip: when the header file holds, eight bytes each, the offsets at
    which the records of the ligand file start, the loop over
    [start_lig, start_lig + n) reads the first line of each of these
    records, in order. *)
Theorem headers_locate_ligands (rs : list (list ascii * list ascii)) (start n : nat) :
  Forall (λ r, newline ∉ r.1) rs →
  (N.of_nat (length (ligands_file rs)) < 2 ^ 63)%N →
  (N.of_nat (length (headers_file rs)) < 2 ^ 63)%N →
  (start + n ≤ length rs)%nat →
  lines_read n
    (open_library (Some (headers_file rs)) (Some (ligands_file rs)) (N.of_nat start))
  = Some ((λ r, String.string_of_list_ascii r.1) <$> take n (drop start rs)).
Proof.
  intros Hnl Hsize Hhsize Hn.
  assert (Hloop : ∀ n k ls l, (k + n ≤ length rs)%nat →
            chars ls = ligands_file rs → failbit ls = false →
            lines_read n
              (Streams (IfStream (headers_file rs) (sizeof_size_t * k) false false) ls l)
            = Some ((λ r, String.string_of_list_ascii r.1) <$> take n (drop k rs))).
  { clear n Hn. induction n as [|n IH]; intros k ls l Hk Hc Hf; [reflexivity|].
    destruct (lookup_lt_is_Some_2 rs k ltac:(lia)) as [r Hr].
    destruct (locate_record rs k r ls l) as (ls' & Hloc & Hc' & Hf'); try assumption.
    { rewrite Forall_forall in Hnl. apply Hnl. apply list_elem_of_lookup. eauto. }
    cbn [lines_read]. rewrite Hloc. cbn [mbind option_bind line].
    rewrite (IH (S k) ls' _ ltac:(lia) Hc' Hf'). cbn [mbind option_bind].
    rewrite (drop_S _ _ _ Hr). reflexivity. }
  unfold open_library, open, seekg. cbn [failbit chars gpos].
  rewrite headers_file_length in Hhsize.
  assert (Hlt : (N.of_nat sizeof_size_t * N.of_nat start <? 2 ^ 63)%N = true).
  { apply N.ltb_lt. unfold sizeof_size_t in *. lia. }
  rewrite N.mod_small by (apply N.ltb_lt in Hlt; lia).
  rewrite Hlt.
  replace (N.to_nat (N.of_nat sizeof_size_t * N.of_nat start)) with (sizeof_size_t * start)%nat
    by lia.
  apply Hloop; [exact Hn | reflexivity | reflexivity].
Qed.

(** The first iteration has a header to go by exactly when the header file
    can be opened and holds eight bytes at offset [8 * start_lig]; when it
    does not, [header] is read without ever having been given a value.
    Below 2^60 the product [8 * start_lig] neither wraps nor leaves the
    range of a stream offset. *)
Theorem header_missing (hdr lig : option (list ascii)) (start : N) :
  (start < 2 ^ 60)%N →
  locate (open_library hdr lig start) = None ↔
  match hdr with
  | None => True
  | Some h => (length h < sizeof_size_t * N.to_nat start + sizeof_size_t)%nat
  end.
Proof.
  intros Hstart.
  unfold locate, open_library, read_size_t, seekg, open.
  rewrite N.mod_small by (unfold sizeof_size_t; lia).
  destruct hdr as [h|].
  - cbn [failbit headers].
    destruct (N.ltb_spec (N.of_nat sizeof_size_t * start) (2 ^ 63)) as [Hlt|Hge];
      [|unfold sizeof_size_t in Hge; lia].
    cbn [failbit eofbit chars gpos orb headers ligands line].
    rewrite length_take, length_drop.
    replace (N.to_nat (N.of_nat sizeof_size_t * start))
      with (sizeof_size_t * N.to_nat start)%nat by lia.
    destruct (decide (_ = sizeof_size_t)) as [He|Hne]; cbn [mbind option_bind].
    + destruct (getline _ _). split; [discriminate|]. lia.
    + split; [|reflexivity]. intros _. lia.
  - cbn [failbit eofbit chars gpos orb headers ligands line mbind option_bind].
    split; [auto | reflexivity].
Qed.

(** A library of three records and the lines of its last two ligands. *)
Definition three_records : list (list ascii * list ascii) :=
  [ (String.list_ascii_of_string "REMARK A", String.list_ascii_of_string "ATOM 1");
    (String.list_ascii_of_string "REMARK B", []);
    (String.list_ascii_of_string "REMARK C", String.list_ascii_of_string "ATOM 2") ].

Lemma headers_locate_ligands_witness :
  lines_read 2
    (open_library (Some (headers_file three_records)) (Some (ligands_file three_records)) 1)
  = Some ["REMARK B"; "REMARK C"]%string.
Proof.
  apply (headers_locate_ligands three_records 1 2).
  - repeat constructor;
      (intros H; repeat (apply elem_of_cons in H as [H|H]; [discriminate H|]); inversion H).
  - vm_compute. reflexivity.
  - vm_compute. reflexivity.
  - simpl. lia.
Defined.

(** The same library has no fourth header: its header file has 24 bytes. *)
Lemma header_missing_witness :
  locate (open_library (Some (headers_file three_records))
                       (Some (ligands_file three_records)) 3) = None ↔
  (length (headers_file three_records) < sizeof_size_t * N.to_nat 3 + sizeof_size_t)%nat.
Proof.
  apply (header_missing (Some (headers_file three_records))
                        (Some (ligands_file three_records)) 3).
  reflexivity.
Defined.

End Library.

(** ** The partitions of the box (main.cpp, lines 228-264) *)

Module Partitions.

Section Box.

(** What [main] takes from vec3.hpp, box.hpp and receptor.hpp: the type of
    a coordinate, the two cutoff tests of the box [b], and the corner of a
    partition. *)
Variable vec3 : Type.
Variable within_cutoff : vec3 → bool.
Variable within_cutoff_of : vec3 → vec3 → vec3 → bool.
Variable partition_corner1 : nat * nat * nat → vec3.

(** Lines 232-242: the indices of the receptor atoms within cutoff of the
    box, pushed back in the order of the loop over [i]. *)
Definition receptor_atoms_within_cutoff (atoms : list vec3) : list nat :=
  foldl (λ acc i, match atoms !! i with
                  | Some a => if within_cutoff a then acc ++ [i] else acc
                  | None => acc
                  end)
        [] (seq 0 (length atoms)).

(** Lines 250-262: the body of the three loops, for the partition
    [(x, y, z)]; [near] is [receptor_atoms_within_cutoff]. *)
Definition partition (atoms : list vec3) (near : list nat) (x y z : nat) : list nat :=
  let corner1 := partition_corner1 (x, y, z) in
  let corner2 := partition_corner1 (x + 1, y + 1, z + 1)%nat in
  foldl (λ acc l, match near !! l with
                  | Some i =>
                      match atoms !! i with
                      | Some a => if within_cutoff_of corner1 corner2 a then acc ++ [i] else acc
                      | None => acc
                      end
                  | None => acc
                  end)
        [] (seq 0 (length near)).

(** Lines 229-264: [partitions(b.num_partitions)], filled by the loops over
    [x], [y] and [z]. *)
Definition partitions (atoms : list vec3) (n : nat * nat * nat)
    : list (list (list (list nat))) :=
  let near := receptor_atoms_within_cutoff atoms in
  (λ x, (λ y, (λ z, partition atoms near x y z) <$> seq 0 n.2) <$> seq 0 n.1.2)
    <$> seq 0 n.1.1.

(** [partitions(x, y, z)]. *)
Definition partition_at (ps : list (list (list (list nat)))) (x y z : nat)
    : option (list nat) :=
  yz ← ps !! x; zs ← yz !! y; zs !! z.

(** The two tests on an atom index, and both together. *)
Definition near_box (atoms : list vec3) (i : nat) : bool :=
  match atoms !! i with
  | Some a => within_cutoff a
  | None => false
  end.

Definition near_partition (atoms : list vec3) (x y z : nat) (i : nat) : bool :=
  match atoms !! i with
  | Some a =>
      within_cutoff_of (partition_corner1 (x, y, z))
                       (partition_corner1 (x + 1, y + 1, z + 1)%nat) a
  | None => false
  end.

Definition in_partition (atoms : list vec3) (x y z : nat) (i : nat) : bool :=
  match atoms !! i with
  | Some a =>
      within_cutoff a &&
      within_cutoff_of (partition_corner1 (x, y, z))
                       (partition_corner1 (x + 1, y + 1, z + 1)%nat) a
  | None => false
  end.

(** *** Facts *)

Lemma foldl_same {A B : Type} (f g : B → A → B) (l : list A) :
  (∀ acc x, f acc x = g acc x) → ∀ acc, foldl f acc l = foldl g acc l.
Proof.
  intros H. induction l as [|x l IH]; intros acc; [reflexivity|].
  cbn [foldl]. rewrite H. apply IH.
Qed.

Lemma foldl_push {A : Type} (P : A → bool) (l : list A) :
  ∀ acc, foldl (λ acc x, if P x then acc ++ [x] else acc) acc l
         = acc ++ filter (λ x, P x) l.
Proof.
  induction l as [|x l IH]; intros acc; cbn [foldl].
  - rewrite app_nil_r. reflexivity.
  - rewrite IH. destruct (P x) eqn:E.
    + rewrite filter_cons_True by (rewrite E; exact I). rewrite <- app_assoc. reflexivity.
    + rewrite filter_cons_False by (rewrite E; auto). reflexivity.
Qed.

Lemma foldl_indices {A B : Type} (g : B → A → B) (l : list A) :
  ∀ (pre : list A) (acc : B),
    foldl (λ acc k, match (pre ++ l) !! k with Some x => g acc x | None => acc end)
          acc (seq (length pre) (length l))
    = foldl g acc l.
Proof.
  induction l as [|x l IH]; intros pre acc; [reflexivity|].
  cbn [length seq foldl]. rewrite lookup_app_r, Nat.sub_diag by lia. cbn [lookup list_lookup].
  specialize (IH (pre ++ [x]) (g acc x)).
  rewrite <- app_assoc, length_app, Nat.add_1_r in IH. exact IH.
Qed.

Lemma receptor_atoms_within_cutoff_filter (atoms : list vec3) :
  receptor_atoms_within_cutoff atoms
  = filter (λ i, near_box atoms i) (seq 0 (length atoms)).
Proof.
  unfold receptor_atoms_within_cutoff.
  pose proof (foldl_push (near_box atoms) (seq 0 (length atoms)) []) as H.
  cbn [app] in H. rewrite <- H. apply foldl_same. intros acc i. unfold near_box. destruct (atoms !! i); reflexivity.
Qed.

Lemma partition_filter (atoms : list vec3) (near : list nat) (x y z : nat) :
  partition atoms near x y z = filter (λ i, near_partition atoms x y z i) near.
Proof.
  unfold partition.
  pose proof (foldl_push (near_partition atoms x y z) near []) as H.
  cbn [app] in H. rewrite <- H.
  rewrite <- (foldl_indices _ near [] []). apply foldl_same.
  intros acc l. cbn [app]. destruct (near !! l) as [i|]; [|reflexivity].
  unfold near_partition. destruct (atoms !! i); reflexivity.
Qed.

Lemma partition_at_lookup (atoms : list vec3) (n : nat * nat * nat) (x y z : nat) :
  (x < n.1.1)%nat → (y < n.1.2)%nat → (z < n.2)%nat →
  partition_at (partitions atoms n) x y z
  = Some (partition atoms (receptor_atoms_within_cutoff atoms) x y z).
Proof.
  intros Hx Hy Hz. unfold partition_at, partitions.
  rewrite list_lookup_fmap, lookup_seq_lt by exact Hx. cbn [fmap option_fmap option_map mbind option_bind].
  rewrite list_lookup_fmap, lookup_seq_lt by exact Hy. cbn [fmap option_fmap option_map mbind option_bind].
  rewrite list_lookup_fmap, lookup_seq_lt by exact Hz. reflexivity.
Qed.

Lemma sorted_seq (a n : nat) : StronglySorted lt (seq a n).
Proof.
  revert a. induction n as [|n IH]; intros a; cbn [seq]; constructor; [apply IH|].
  apply Forall_forall. intros k Hk. apply list_elem_of_In, in_seq in Hk. lia.
Qed.

Lemma sorted_filter (P : nat → bool) (l : list nat) :
  StronglySorted lt l → StronglySorted lt (filter (λ x, P x) l).
Proof.
  induction 1 as [|a l Hl IH Ha]; [constructor|].
  destruct (P a) eqn:E.
  - rewrite filter_cons_True by (rewrite E; exact I). constructor; [exact IH|].
    apply Forall_forall. intros x Hx. apply list_elem_of_filter in Hx as [_ Hx].
    rewrite Forall_forall in Ha. apply Ha, Hx.
  - rewrite filter_cons_False by (rewrite E; auto). exact IH.
Qed.

(** Every cell of [partitions] inside the box holds the indices of the
    receptor atoms that pass both cutoff tests, each once, in ascending
    order; it is a sublist of the atoms within cutoff of the box, so the
    storage reserved for it is never exceeded. *)
Theorem partitions_spec (atoms : list vec3) (n : nat * nat * nat) (x y z : nat) :
  (x < n.1.1)%nat → (y < n.1.2)%nat → (z < n.2)%nat →
  ∃ cell : list nat,
    partition_at (partitions atoms n) x y z = Some cell ∧
    (∀ i, i ∈ cell ↔ in_partition atoms x y z i = true) ∧
    StronglySorted lt cell ∧
    cell `sublist_of` receptor_atoms_within_cutoff atoms ∧
    (length cell ≤ length (receptor_atoms_within_cutoff atoms))%nat ∧
    (length (receptor_atoms_within_cutoff atoms) ≤ length atoms)%nat.
Proof.
  intros Hx Hy Hz. eexists. split; [apply partition_at_lookup; assumption|].
  rewrite partition_filter, receptor_atoms_within_cutoff_filter.
  set (P1 := near_box atoms). set (P2 := near_partition atoms x y z).
  assert (Hsub1 : filter (λ i, P2 i) (filter (λ i, P1 i) (seq 0 (length atoms)))
                  `sublist_of` filter (λ i, P1 i) (seq 0 (length atoms)))
    by apply sublist_filter.
  assert (Hsub2 : filter (λ i, P1 i) (seq 0 (length atoms)) `sublist_of` seq 0 (length atoms))
    by apply sublist_filter.
  split_and!.
  - intros i. rewrite !list_elem_of_filter. unfold in_partition, P1, P2, near_box, near_partition.
    destruct (atoms !! i) as [a|] eqn:Ha.
    + rewrite andb_true_iff. split.
      * intros (H2 & H1 & _). split; apply Is_true_true; assumption.
      * intros [H1 H2]. split_and!; [rewrite H2; exact I | rewrite H1; exact I |].
        apply list_elem_of_In, in_seq. apply lookup_lt_Some in Ha. lia.
    + split; [intros ([] & _) | discriminate].
  - apply sorted_filter, sorted_filter, sorted_seq.
  - exact Hsub1.
  - apply sublist_length, Hsub1.
  - apply sublist_length in Hsub2. rewrite length_seq in Hsub2. exact Hsub2.
Qed.

End Box.

(** Atoms on a line, a box that reaches up to 10 and partitions of
    width 4: the second partition holds the atoms at 5 and 6. *)
Definition line_within (a : Z) : bool := a <? 10.
Definition line_between (c1 c2 a : Z) : bool := (c1 <=? a) && (a <? c2).
Definition line_corner (i : nat * nat * nat) : Z := 4 * Z.of_nat i.1.1.
Definition line_atoms : list Z := [1; 5; 20; 6].

Lemma partitions_spec_witness :
  ∃ cell : list nat,
    partition_at
      (partitions Z line_within line_between line_corner line_atoms (2, 1, 1)%nat)
      1 0 0 = Some cell ∧
    (∀ i, i ∈ cell ↔
          in_partition Z line_within line_between line_corner line_atoms 1 0 0 i = true) ∧
    StronglySorted lt cell ∧
    cell `sublist_of` receptor_atoms_within_cutoff Z line_within line_atoms ∧
    (length cell ≤ length (receptor_atoms_within_cutoff Z line_within line_atoms))%nat ∧
    (length (receptor_atoms_within_cutoff Z line_within line_atoms) ≤ length line_atoms)%nat.
Proof.
  apply (partitions_spec Z line_within line_between line_corner line_atoms
           (2, 1, 1)%nat 1 0 0); simpl; lia.
Defined.

End Partitions.

(** ** The summaries of phase 2 (main.cpp, lines 423-443) *)

Module Summaries.

Import Library.

(** [summary(stem, energies)] of summary.hpp, as [main] constructs it. *)
Record summary := Summary {
  stem : string;
  energies : list float
}.

Section Phase2.

(** [path::stem()] of the file name, and [ptr_vector::sort()], which orders
    the summaries by [summary::operator<]. *)
Variable path_stem : string → string.
Variable sort : list summary → list summary.

(** [while (getline(in, line)) { }]: the stream and the line when the
    condition fails; [None] when the calls allowed do not get that far. *)
Fixpoint skim (fuel : nat) (s : ifstream) (line : string) : option (ifstream * string) :=
  match fuel with
  | O => None
  | S fuel' =>
      let '(s', line') := getline s line in
      if failbit s' then Some (s', line') else skim fuel' s' line'
  end.

(** The body of the loop over the folder (lines 431-438) for one file,
    given by its name and its characters: the file is skimmed, a summary
    is pushed back with the energies gathered, and the energies are
    cleared. *)
Definition summarize (fuel : nat) (st : list summary * list float * string)
    (file : string * list ascii) : option (list summary * list float * string) :=
  let '(summaries, energies, line) := st in
  '(_, line') ← skim fuel (open (Some file.2)) line;
  Some (summaries ++ [Summary (path_stem file.1) energies], [], line').

(** Lines 424-443: the summaries of the files of the folder, sorted. *)
Definition phase2_summaries (fuel : nat) (files : list (string * list ascii))
    (line : string) : option (list summary) :=
  st ← foldl (λ st file, st ≫= λ st, summarize fuel st file) (Some ([], [], line)) files;
  Some (sort st.1.1).

(** *** Facts *)

Lemma split_line_length (cs : list ascii) :
  match split_line cs with
  | (l, Some r) => length cs = (length l + 1 + length r)%nat
  | (l, None) => length cs = length l
  end.
Proof.
  induction cs as [|c cs IH]; [reflexivity|]. cbn [split_line].
  destruct (decide (c = newline)); [simpl; lia|].
  destruct (split_line cs) as [l [r|]]; simpl; lia.
Qed.

(** Skimming a file ends: every call of [getline] moves on by a character
    at least, or fails. *)
Lemma skim_total (fuel : nat) :
  ∀ (s : ifstream) (line : string),
    (length (chars s) - gpos s + 2 ≤ fuel)%nat → is_Some (skim fuel s line).
Proof.
  induction fuel as [|fuel IH]; intros s line Hfuel; [lia|].
  cbn [skim]. unfold getline.
  destruct (failbit s || eofbit s) eqn:Hbad; [cbn [failbit]; eauto|].
  pose proof (split_line_length (drop (gpos s) (chars s))) as Hlen.
  rewrite length_drop in Hlen.
  destruct (split_line (drop (gpos s) (chars s))) as [l [r|]]; cbn [failbit].
  - apply IH. cbn [chars gpos]. lia.
  - destruct (bool_decide (l = [])); [eauto|].
    destruct fuel as [|fuel]; [lia|]. cbn [skim]. unfold getline.
    cbn [failbit eofbit orb]. eauto.
Qed.

Lemma summarize_total (fuel : nat) (ss : list summary) (es : list float) (line : string)
    (file : string * list ascii) :
  (length file.2 + 2 ≤ fuel)%nat →
  ∃ line', summarize fuel (ss, es, line) file
           = Some (ss ++ [Summary (path_stem file.1) es], [], line').
Proof.
  intros Hfuel. unfold summarize.
  destruct (skim_total fuel (open (Some file.2)) line) as [[s' line'] Hs].
  { simpl. lia. }
  rewrite Hs. exists line'. reflexivity.
Qed.

(** Phase 2 gathers one summary for every file of the job folder, named
    after the file, and each of them holds no energy, whatever the files
    contain. *)
Theorem phase2_summaries_empty (fuel : nat) (files : list (string * list ascii))
    (line : string) :
  Forall (λ file, length file.2 + 2 ≤ fuel)%nat files →
  (∀ l, sort l ≡ₚ l) →
  ∃ ss : list summary,
    phase2_summaries fuel files line = Some ss ∧
    ss ≡ₚ (λ file, Summary (path_stem file.1) []) <$> files ∧
    Forall (λ s, energies s = []) ss ∧
    length ss = length files.
Proof.
  intros Hfuel Hsort.
  assert (Hfold : ∀ (files : list (string * list ascii)) (ss : list summary) (line : string),
            Forall (λ file, length file.2 + 2 ≤ fuel)%nat files →
            ∃ line',
              foldl (λ st file, st ≫= λ st, summarize fuel st file) (Some (ss, [], line)) files
              = Some (ss ++ ((λ file, Summary (path_stem file.1) []) <$> files), [], line')).
  { clear files Hfuel line. induction files as [|file files IH]; intros ss line Hall.
    - exists line. simpl. rewrite app_nil_r. reflexivity.
    - apply Forall_cons in Hall as [Hfile Hall]. cbn [foldl mbind option_bind].
      destruct (summarize_total fuel ss [] line file Hfile) as [line1 ->].
      destruct (IH (ss ++ [Summary (path_stem file.1) []]) line1 Hall) as [line2 ->].
      exists line2. rewrite fmap_cons, <- app_assoc. reflexivity. }
  destruct (Hfold files [] line Hfuel) as [line' Hf].
  exists (sort ((λ file, Summary (path_stem file.1) []) <$> files)).
  split_and!.
  - unfold phase2_summaries. rewrite Hf. reflexivity.
  - apply Hsort.
  - rewrite Hsort. apply Forall_fmap, Forall_forall. intros file _. reflexivity.
  - rewrite Hsort, length_fmap. reflexivity.
Qed.

End Phase2.

(** A folder of two files, one of two lines and one that is empty. *)
Lemma phase2_summaries_empty_witness :
  ∃ ss : list summary,
    phase2_summaries (λ name, name) (λ l, l) 8
      [("ZINC01"%string, String.list_ascii_of_string "a,1"); ("ZINC02"%string, [])]
      EmptyString = Some ss ∧
    ss ≡ₚ [Summary "ZINC01" []; Summary "ZINC02" []] ∧
    Forall (λ s, energies s = []) ss ∧
    length ss = 2%nat.
Proof.
  apply (phase2_summaries_empty (λ name, name) (λ l, l) 8
           [("ZINC01"%string, String.list_ascii_of_string "a,1"); ("ZINC02"%string, [])]
           EmptyString).
  - repeat constructor; simpl; lia.
  - intros l. reflexivity.
Defined.

End Summaries.

(** ** The thread pool as [main] drives it *)

Module Pool.

Section Semantics.

Context {task act : Type}.

(** What the main thread does, in program order: [tp.run(batch)],
    [future.get()] on one task, [tp.sync()], or an action of its own. *)
Inductive cmd :=
| Run (batch : list task)
| Get (t : task)
| Sync
| Act (a : act).

(** The pool: the FIFO queue of tasks not yet started, the tasks the workers
    are executing, the tasks whose future is fulfilled, and among those the
    ones fulfilled with an exception. *)
Record pool := MkPool {
  queue : list task;
  running : list task;
  finished : list task;
  failed : list task
}.

(** The main thread's position in its program, whether an exception has
    left [main], and the pool. *)
Record config := Config {
  pc : nat;
  thrown : bool;
  pl : pool
}.

Definition init : config := Config 0 false (MkPool [] [] [] []).

(** The tasks of all the batches a command list dispatches, in order. *)
Definition tasks_of (cs : list cmd) : list task :=
  cs ≫= (λ c, match c with Run b => b | _ => [] end).

(** A task is dispatched once [run] has handed it to the pool. *)
Definition dispatched (c : config) (t : task) : Prop :=
  t ∈ queue (pl c) ∨ t ∈ running (pl c) ∨ t ∈ finished (pl c).

Variable num_threads : nat.
Variable prog : list cmd.

(** Modelled from the spec: [thread_pool] of the missing thread_pool.hpp.
    [run(batch)] enqueues the batch and returns at once; a worker pops the
    head of the queue, executes it and fulfils its future with a value or
    an exception; [get()] blocks until the future is fulfilled and rethrows
    its exception; [sync()] blocks until every dispatched task has
    finished.  Main-thread and worker steps interleave freely. *)
Inductive step : config → config → Prop :=
| step_run n p b :
    prog !! n = Some (Run b) →
    step (Config n false p)
         (Config (S n) false (MkPool (queue p ++ b) (running p) (finished p) (failed p)))
| step_get n p t :
    prog !! n = Some (Get t) → t ∈ finished p → t ∉ failed p →
    step (Config n false p) (Config (S n) false p)
| step_get_throw n p t :
    prog !! n = Some (Get t) → t ∈ finished p → t ∈ failed p →
    step (Config n false p) (Config n true p)
| step_sync n p :
    prog !! n = Some Sync → queue p = [] → running p = [] →
    step (Config n false p) (Config (S n) false p)
| step_act n p a :
    prog !! n = Some (Act a) →
    step (Config n false p) (Config (S n) false p)
| step_start n e t q r f x :
    (length r < num_threads)%nat →
    step (Config n e (MkPool (t :: q) r f x))
         (Config n e (MkPool q (r ++ [t]) f x))
| step_finish n e t q r1 r2 f x (ok : bool) :
    step (Config n e (MkPool q (r1 ++ t :: r2) f x))
         (Config n e (MkPool q (r1 ++ r2) (t :: f) (if ok then x else t :: x))).

Definition reachable (c : config) : Prop := rtc step init c.

(** What holds of every reachable configuration. *)
Record inv (c : config) : Prop := Inv {
  inv_pc : (pc c ≤ length prog)%nat;
  inv_get : ∀ k t, (k < pc c)%nat → prog !! k = Some (Get t) → t ∈ finished (pl c);
  inv_sync : ∀ k j b t, (k < pc c)%nat → prog !! k = Some Sync →
             (j < k)%nat → prog !! j = Some (Run b) → t ∈ b → t ∈ finished (pl c);
  inv_dispatched : ∀ t, dispatched c t →
             ∃ j b, (j < pc c)%nat ∧ prog !! j = Some (Run b) ∧ t ∈ b;
  inv_run : ∀ j b t, (j < pc c)%nat → prog !! j = Some (Run b) → t ∈ b → dispatched c t
}.

(** The prefix of the program main has gone through hands every task it
    names to the pool before it waits for it. *)
Definition well_formed : Prop :=
  ∀ k t, prog !! k = Some (Get t) →
         ∃ j b, (j < k)%nat ∧ prog !! j = Some (Run b) ∧ t ∈ b.

End Semantics.

Arguments cmd : clear implicits.
Arguments pool : clear implicits.
Arguments config : clear implicits.

Section Facts.

Context {task act : Type}.
Variable num_threads : nat.
Variable prog : list (cmd task act).

Local Abbreviation step := (step num_threads prog).
Local Abbreviation reachable := (reachable num_threads prog).
Local Abbreviation inv := (inv prog).

Lemma inv_init : inv init.
Proof.
  split; simpl.
  - lia.
  - intros; lia.
  - intros; lia.
  - intros t [H | [H | H]]; simpl in H; inversion H.
  - intros; lia.
Qed.

Lemma inv_step (c c' : config task) : inv c → step c c' → inv c'.
Proof.
  intros [Hpc Hget Hsync Hdis Hrun] Hstep.
  destruct Hstep as [n p b Hn | n p t Hn Hf Hnf | n p t Hn Hf Hx | n p Hn Hq Hr
                    | n p a Hn | n e t q r f x Hlen | n e t q r1 r2 f x ok];
    unfold dispatched in *; simpl in *.
  - (* run *)
    split; simpl.
    + apply lookup_lt_Some in Hn. lia.
    + intros k t Hk Hk'. destruct (decide (k = n)) as [->|]; [congruence|].
      apply (Hget k); [lia | assumption].
    + intros k j b' t Hk Hk' Hj Hj' Ht. destruct (decide (k = n)) as [->|]; [congruence|].
      apply (Hsync k j b'); [lia | assumption ..].
    + intros t. unfold dispatched. simpl. rewrite elem_of_app.
      intros [[H | H] | H].
      * destruct (Hdis t) as (j & b' & ? & ? & ?); [tauto|]. exists j, b'. split_and!; [lia | assumption ..].
      * exists n, b. split_and!; [lia | assumption ..].
      * destruct (Hdis t) as (j & b' & ? & ? & ?); [tauto|]. exists j, b'. split_and!; [lia | assumption ..].
    + intros j b' t Hj Hj' Ht. unfold dispatched. simpl. rewrite elem_of_app.
      destruct (decide (j = n)) as [->|].
      * assert (b' = b) as -> by congruence. tauto.
      * destruct (Hrun j b' t) as [H | H]; [lia | assumption .. | tauto | tauto].
  - (* get *)
    split; simpl.
    + apply lookup_lt_Some in Hn. lia.
    + intros k t' Hk Hk'. destruct (decide (k = n)) as [->|].
      * assert (t' = t) as -> by congruence. assumption.
      * apply (Hget k); [lia | assumption].
    + intros k j b' t' Hk Hk' Hj Hj' Ht. destruct (decide (k = n)) as [->|]; [congruence|].
      apply (Hsync k j b'); [lia | assumption ..].
    + intros t' Ht'. destruct (Hdis t' Ht') as (j & b' & ? & ? & ?).
      exists j, b'. split_and!; [lia | assumption ..].
    + intros j b' t' Hj Hj' Ht. destruct (decide (j = n)) as [->|]; [congruence|].
      apply (Hrun j b'); [lia | assumption ..].
  - (* get rethrows *)
    split; simpl; assumption.
  - (* sync *)
    split; simpl.
    + apply lookup_lt_Some in Hn. lia.
    + intros k t' Hk Hk'. destruct (decide (k = n)) as [->|]; [congruence|].
      apply (Hget k); [lia | assumption].
    + intros k j b' t' Hk Hk' Hj Hj' Ht. destruct (decide (k = n)) as [->|].
      * destruct (Hrun j b' t') as [H | [H | H]]; [lia | assumption .. | | | assumption].
        -- rewrite Hq in H. inversion H.
        -- rewrite Hr in H. inversion H.
      * apply (Hsync k j b'); [lia | assumption ..].
    + intros t' Ht'. destruct (Hdis t' Ht') as (j & b' & ? & ? & ?).
      exists j, b'. split_and!; [lia | assumption ..].
    + intros j b' t' Hj Hj' Ht. destruct (decide (j = n)) as [->|]; [congruence|].
      apply (Hrun j b'); [lia | assumption ..].
  - (* an action of main *)
    split; simpl.
    + apply lookup_lt_Some in Hn. lia.
    + intros k t' Hk Hk'. destruct (decide (k = n)) as [->|]; [congruence|].
      apply (Hget k); [lia | assumption].
    + intros k j b' t' Hk Hk' Hj Hj' Ht. destruct (decide (k = n)) as [->|]; [congruence|].
      apply (Hsync k j b'); [lia | assumption ..].
    + intros t' Ht'. destruct (Hdis t' Ht') as (j & b' & ? & ? & ?).
      exists j, b'. split_and!; [lia | assumption ..].
    + intros j b' t' Hj Hj' Ht. destruct (decide (j = n)) as [->|]; [congruence|].
      apply (Hrun j b'); [lia | assumption ..].
  - (* a worker starts a task *)
    split; simpl; try assumption.
    + intros t' Ht'. apply Hdis. unfold dispatched in *. simpl in *.
      rewrite elem_of_app, list_elem_of_singleton in Ht'.
      rewrite elem_of_cons. tauto.
    + intros j b' t' Hj Hj' Ht. specialize (Hrun j b' t' Hj Hj' Ht).
      unfold dispatched in *. simpl in *.
      rewrite elem_of_cons in Hrun. rewrite elem_of_app, list_elem_of_singleton. tauto.
  - (* a worker finishes a task *)
    split; simpl; try assumption.
    + intros k t' Hk Hk'. apply elem_of_cons. right. eauto.
    + intros k j b' t' Hk Hk' Hj Hj' Ht. apply elem_of_cons. right. eauto.
    + intros t' Ht'. apply Hdis. unfold dispatched in *. simpl in *.
      rewrite ?elem_of_app, ?elem_of_cons in Ht'.
      rewrite ?elem_of_app, ?elem_of_cons. tauto.
    + intros j b' t' Hj Hj' Ht. specialize (Hrun j b' t' Hj Hj' Ht).
      unfold dispatched in *. simpl in *.
      rewrite ?elem_of_app, ?elem_of_cons in Hrun.
      rewrite ?elem_of_app, ?elem_of_cons. tauto.
Qed.

Lemma reachable_inv (c : config task) : reachable c → inv c.
Proof.
  unfold reachable. intros H. apply rtc_nsteps in H as [n H].
  revert c H. induction n as [|n IH]; intros c H.
  - inversion H; subst. apply inv_init.
  - apply nsteps_inv_r in H as (c1 & H1 & H2). eapply inv_step; eauto.
Qed.

Lemma tasks_of_app (cs1 cs2 : list (cmd task act)) :
  tasks_of (cs1 ++ cs2) = tasks_of cs1 ++ tasks_of cs2.
Proof. unfold tasks_of. apply bind_app. Qed.

Lemma tasks_of_take_S (n : nat) (c : cmd task act) :
  prog !! n = Some c →
  tasks_of (take (S n) prog)
  = tasks_of (take n prog) ++ match c with Run b => b | _ => [] end.
Proof.
  intros Hn. rewrite (take_S_r _ _ _ Hn), tasks_of_app. f_equal.
  unfold tasks_of. simpl. apply app_nil_r.
Qed.

(** Every task main has dispatched is in the pool exactly as often as it
    was dispatched: queued, running or finished, never lost or doubled. *)
Lemma step_perm (c c' : config task) :
  step c c' →
  queue (pl c) ++ running (pl c) ++ finished (pl c) ≡ₚ tasks_of (take (pc c) prog) →
  queue (pl c') ++ running (pl c') ++ finished (pl c') ≡ₚ tasks_of (take (pc c') prog).
Proof.
  intros Hstep.
  destruct Hstep as [n p b Hn | n p t Hn Hf Hnf | n p t Hn Hf Hx | n p Hn Hq Hr
                    | n p a Hn | n e t q r f x Hlen | n e t q r1 r2 f x ok];
    simpl; intros IH.
  - rewrite (tasks_of_take_S n _ Hn), <- IH. solve_Permutation.
  - rewrite (tasks_of_take_S n _ Hn), app_nil_r. exact IH.
  - exact IH.
  - rewrite (tasks_of_take_S n _ Hn), app_nil_r. exact IH.
  - rewrite (tasks_of_take_S n _ Hn), app_nil_r. exact IH.
  - rewrite <- IH. solve_Permutation.
  - rewrite <- IH. solve_Permutation.
Qed.

Lemma reachable_perm (c : config task) :
  reachable c →
  queue (pl c) ++ running (pl c) ++ finished (pl c) ≡ₚ tasks_of (take (pc c) prog).
Proof.
  unfold reachable. intros H. apply rtc_nsteps in H as [n H].
  revert c H. induction n as [|n IH]; intros c H.
  - inversion H; subst. reflexivity.
  - apply nsteps_inv_r in H as (c1 & H1 & H2). eapply step_perm; eauto.
Qed.

(** With at least one worker a queue drains: each task is started and
    finished in turn. *)
Lemma drain (n : nat) (e : bool) (q f x : list task) :
  (0 < num_threads)%nat →
  rtc step (Config n e (MkPool q [] f x)) (Config n e (MkPool [] [] (reverse q ++ f) x)).
Proof.
  intros Hn. revert f. induction q as [|t q IH]; intros f.
  - apply rtc_refl.
  - eapply rtc_l; [apply step_start; simpl; lia|].
    eapply rtc_l; [apply (step_finish _ _ n e t q [] [] f x true)|].
    rewrite reverse_cons, <- app_assoc. apply IH.
Qed.

(** The program of a well-formed main thread can be run to its end: no
    [get] and no [sync] blocks for ever. *)
Lemma run_to_completion (n : nat) :
  (0 < num_threads)%nat → well_formed prog → (n ≤ length prog)%nat →
  ∃ p : pool task,
    reachable (Config n false p) ∧ queue p = [] ∧ running p = [] ∧ failed p = [] ∧
    ∀ j b t, (j < n)%nat → prog !! j = Some (Run b) → t ∈ b → t ∈ finished p.
Proof.
  intros Hth Hwf. induction n as [|n IH]; intros Hn.
  - exists (MkPool [] [] [] []). split_and!; try reflexivity; [apply rtc_refl|].
    intros; lia.
  - destruct IH as ([q r f x] & Hreach & Hq & Hr & Hx & Hfin); [lia|].
    simpl in *. subst q r x.
    destruct (lookup_lt_is_Some_2 prog n) as [c Hc]; [lia|].
    destruct c as [b | t | | a].
    + exists (MkPool [] [] (reverse b ++ f) []). split_and!; try reflexivity.
      * eapply rtc_trans; [exact Hreach|].
        eapply rtc_l; [apply (step_run _ _ n _ b Hc)|]. simpl. apply drain, Hth.
      * simpl. intros j b' t Hj Hj' Ht. rewrite elem_of_app.
        destruct (decide (j = n)) as [->|].
        -- left. assert (b' = b) as -> by congruence. apply elem_of_reverse, Ht.
        -- right. apply (Hfin j b'); [lia | assumption ..].
    + exists (MkPool [] [] f []). split_and!; try reflexivity.
      * eapply rtc_r; [exact Hreach|]. apply (step_get _ _ n _ t Hc); simpl.
        -- destruct (Hwf n t Hc) as (j & b & Hj & Hj' & Ht). apply (Hfin j b); assumption.
        -- apply not_elem_of_nil.
      * simpl. intros j b' t' Hj Hj' Ht. destruct (decide (j = n)) as [->|]; [congruence|].
        apply (Hfin j b'); [lia | assumption ..].
    + exists (MkPool [] [] f []). split_and!; try reflexivity.
      * eapply rtc_r; [exact Hreach|]. apply (step_sync _ _ n _ Hc); reflexivity.
      * simpl. intros j b' t' Hj Hj' Ht. destruct (decide (j = n)) as [->|]; [congruence|].
        apply (Hfin j b'); [lia | assumption ..].
    + exists (MkPool [] [] f []). split_and!; try reflexivity.
      * eapply rtc_r; [exact Hreach|]. apply (step_act _ _ n _ a Hc).
      * simpl. intros j b' t' Hj Hj' Ht. destruct (decide (j = n)) as [->|]; [congruence|].
        apply (Hfin j b'); [lia | assumption ..].
Qed.

End Facts.

End Pool.

(** ** The worker: startup, the job loop and the ligand loop of [main] *)

Module Worker.

Import Job Pool.

(** The three kinds of task [main] hands to the pool.  A grid-map or Monte
    Carlo task carries the number of the job (the iteration of the
    [while (true)] loop) and the index of the ligand it was created for. *)
Inductive task :=
| SfTask (t1 t2 : nat)
| GmTask (job : nat) (lig : Z) (types : list nat) (x : nat)
| McTask (job : nat) (lig : Z) (k : nat) (seed : Z).

(** The actions of the main thread the trace records: fetching a job. *)
Inductive action :=
| Fetch (job : nat).

Abbreviation command := (cmd task action).

Definition is_gm (t : task) : bool :=
  match t with GmTask _ _ _ _ => true | _ => false end.
Definition is_mc (t : task) : bool :=
  match t with McTask _ _ _ _ => true | _ => false end.
Definition is_sf (t : task) : bool :=
  match t with SfTask _ _ => true | _ => false end.

(** The job and the ligand a task belongs to. *)
Definition tag (t : task) : option (nat * Z) :=
  match t with
  | SfTask _ _ => None
  | GmTask j i _ _ => Some (j, i)
  | McTask j i _ _ => Some (j, i)
  end.

(** The tasks of all the batches a command list dispatches. *)
Definition tasks_run (cs : list command) : list task :=
  cs ≫= (λ c, match c with Run b => b | _ => [] end).
Definition gm_tasks_in (cs : list command) : list task := filter (λ t, is_gm t) (tasks_run cs).
Definition mc_tasks_in (cs : list command) : list task := filter (λ t, is_mc t) (tasks_run cs).

(** Modelled from the spec: [array3d<fl>] of the missing array3d.hpp.  A
    grid map is either not initialized or holds its cells, indexed
    [x][y][z]; [initialized()] tells the two apart and [resize(n)] makes a
    zero-filled map of [n] probes per dimension. *)
Abbreviation array3d := (option (list (list (list float)))).

Definition initialized (g : array3d) : bool :=
  match g with Some _ => true | None => false end.

Definition resize (n : nat * nat * nat) (g : array3d) : array3d :=
  Some (replicate n.1.1 (replicate n.1.2 (replicate n.2 0%float))).

(** [const size_t num_mc_tasks = 32;], [max_conformations = 100]. *)
Definition num_mc_tasks : nat := 32.
Definition max_conformations : nat := 100.

(** The newline character and the comma written to the csv stream. *)
Definition nl : string := String (Ascii.ascii_of_nat 10) EmptyString.
Definition comma : string := ",".

(** The formatting state of the csv stream: [floatfield] is [fixed] or
    not, and the precision. *)
Record ostream := OStream {
  fixed : bool;
  precision : nat
}.

(** What one insertion puts into the csv stream: characters, or a
    floating-point value formatted under the stream's [floatfield] and
    precision at that moment.  The value is [None] when the object it is
    read from no longer exists. *)
Inductive piece :=
| Text (s : string)
| Num (fixed : bool) (precision : nat) (v : option float).

(** The state [main] carries: the grid maps (declared before the job
    loop), the number of values drawn from the Mersenne Twister, the
    contents of [log.csv] on disk ([None]: no such file) and the commands
    issued to the pool so far. *)
Record worker := MkWorker {
  grid_maps : list array3d;
  eng_draws : nat;
  csv_file : option (list piece);
  issued : list command
}.

(** [main] either goes on or is left by an exception (or a failed
    assertion); both carry the state reached. *)
Inductive run :=
| Ok (w : worker)
| Throw (w : worker).

Definition state (r : run) : worker :=
  match r with Ok w => w | Throw w => w end.

Definition bind (r : run) (k : worker → run) : run :=
  match r with Ok w => k w | Throw w => Throw w end.

Definition issue (cs : list command) (w : worker) : worker :=
  MkWorker (grid_maps w) (eng_draws w) (csv_file w) (issued w ++ cs).

(** [csv << ...]: the insertions go to the end of the file. *)
Definition csv_write (ps : list piece) (w : worker) : worker :=
  MkWorker (grid_maps w) (eng_draws w)
    (Some (default [] (csv_file w) ++ ps)) (issued w).

(** One batch of tasks as [main] handles it: [tp.run(tasks)], then
    [tasks[i].get_future().get()] for every task in order, then
    [tp.sync()]. *)
Definition batch (b : list task) : list command := [Run b] ++ (Get <$> b) ++ [Sync].

(** The commands a step has added to the trace. *)
Definition new_cmds (w : worker) (r : run) : list command :=
  drop (length (issued w)) (issued (state r)).

(** What a job needs once its document is read: its number, the document,
    the filter bounds, the ligand range and the number of probes of the box. *)
Record jobctx := JobCtx {
  job_no : nat;
  job_doc : doc;
  job_bounds_of : bounds;
  job_range : Z * Z;
  job_probes : nat * nat * nat
}.

Section Engine.

(** The constants and functions [main] takes from the headers that are
    not part of the translated file. *)

(** xs_type.hpp: the number of XScore atom types. *)
Variable XS_TYPE_SIZE : nat.

(** ligand.hpp: a parsed ligand, its constructor from a path, and the
    three members [main] reads. *)
Variable ligand : Type.
Variable ligand_ctor : string → ligand.
Variable get_atom_types : ligand → list nat.
Variable num_heavy_atoms : ligand → Z.
Variable flexibility_penalty_factor : ligand → float.

(** result.hpp: a docking result with its free energy [f], its
    normalized free energy [e_nd] and its conformation. *)
Variable conformation : Type.

Record result := MkResult {
  f : float;
  e_nd : float;
  conf : conformation
}.

(** [add_to_result_container(results, r, required_square_error)]. *)
Variable add_to_result_container : list result → result → float → list result.

(** monte_carlo_task.hpp: the results a task leaves in its container, a
    function of the job (box, receptor), the ligand, the seed and the grid
    maps. *)
Variable monte_carlo_task : doc → ligand → Z → list array3d → list result.

(** grid_map_task.hpp: the energy a grid-map task adds at probe
    [(x, y, z)] of the map of type [t], for the receptor and box of a job. *)
Variable grid_energy : doc → nat → nat → nat → nat → float.

(** box.hpp: [b.num_probes] of the box built from the job's centre and size. *)
Variable num_probes : doc → nat * nat * nat.

(** The [k]-th value [eng()] returns. *)
Variable eng : nat → Z.

(** The first line of ligand [i]: the header read, the seek and [getline]. *)
Variable ligand_line : Z → string.

(** [boost::lexical_cast] at the three types used. *)
Variable lexical_cast_fl : string → option float.
Variable lexical_cast_size_t : string → option Z.
Variable lexical_cast_int64 : string → option Z.

(** *** Scoring-function tasks (lines 136-149) *)

(** The two nested loops over [t1] and [t2 >= t1]. *)
Definition sf_tasks : list task :=
  seq 0 XS_TYPE_SIZE ≫= (λ t1, SfTask t1 <$> seq t1 (XS_TYPE_SIZE - t1)).

(** [((XS_TYPE_SIZE + 1) * XS_TYPE_SIZE) >> 1]. *)
Definition num_sf_tasks : nat :=
  Z.to_nat (Z.shiftr (Z.of_nat ((XS_TYPE_SIZE + 1) * XS_TYPE_SIZE)) 1).

(** [tp.run(sf_tasks); tp.sync();] *)
Definition startup (w : worker) : worker := issue [Run sf_tasks; Sync] w.

(** *** Grid maps on the fly (lines 330-368) *)

(** The loop over the ligand's atom types: a type whose map is
    initialized is passed over; otherwise the map is resized and the type
    is appended to [atom_types_to_populate].  [None] is the failed
    assertion [t < XS_TYPE_SIZE]. *)
Fixpoint schedule_grid_maps (n : nat * nat * nat) (types : list nat)
    (gms : list array3d) (todo : list nat) : option (list array3d * list nat) :=
  match types with
  | [] => Some (gms, todo)
  | t :: types' =>
      match gms !! t with
      | None => None
      | Some g =>
          if initialized g then schedule_grid_maps n types' gms todo
          else schedule_grid_maps n types' (<[t := resize n g]> gms) (todo ++ [t])
      end
  end.

(** Modelled from the spec: [grid_map_task] for slab [x]: for every type
    to populate, every probe [(x, y, z)] of its map receives the energy of
    the receptor atoms within cutoff; the maps of other types are not
    touched. *)
Definition add_slab (e : nat → nat → float) (slab : list (list float)) : list (list float) :=
  imap (λ y row, imap (λ z v, PrimFloat.add v (e y z)) row) slab.

Definition grid_map_task (p : doc) (gms : list array3d) (types : list nat) (x : nat)
    : list array3d :=
  foldl (λ gms t, alter (fmap (alter (add_slab (grid_energy p t x)) x)) t gms) gms types.

(** The grid-map tasks of one ligand, one per [x < num_gm_tasks]. *)
Definition gm_tasks (ctx : jobctx) (i : Z) (todo : list nat) : list task :=
  GmTask (job_no ctx) i todo <$> seq 0 (job_probes ctx).1.1.

(** Lines 343-368: dispatch, get every future, sync; and the maps once
    all the tasks have run. *)
Definition populate (ctx : jobctx) (i : Z) (todo : list nat) (w : worker) : worker :=
  match todo with
  | [] => w
  | _ :: _ =>
      let tasks := gm_tasks ctx i todo in
      let gms := foldl (λ gms x, grid_map_task (job_doc ctx) gms todo x)
                       (grid_maps w) (seq 0 (job_probes ctx).1.1) in
      issue (batch tasks) (MkWorker gms (eng_draws w) (csv_file w) (issued w))
  end.

(** *** Monte Carlo tasks and the merge (lines 370-398) *)

(** Task [k] is bound to the next value of [eng()]. *)
Definition mc_tasks (ctx : jobctx) (i : Z) (w : worker) : list task :=
  (λ k, McTask (job_no ctx) i k (eng (eng_draws w + k))) <$> seq 0 num_mc_tasks.

(** [required_square_error = static_cast<fl>(4 * lig.num_heavy_atoms)]. *)
Definition required_square_error (lig : ligand) : float :=
  double_of_Z (4 * num_heavy_atoms lig).

(** The two nested loops of the merge, in task order. *)
Definition merged_results (ctx : jobctx) (lig : ligand) (w : worker) : list result :=
  foldl (λ results k,
           foldl (λ results r, add_to_result_container results r (required_square_error lig))
                 results
                 (monte_carlo_task (job_doc ctx) lig (eng (eng_draws w + k)) (grid_maps w)))
        [] (seq 0 num_mc_tasks).

Definition monte_carlo (ctx : jobctx) (i : Z) (w : worker) : worker :=
  let tasks := mc_tasks ctx i w in
  issue (batch tasks)
        (MkWorker (grid_maps w) (eng_draws w + num_mc_tasks) (csv_file w) (issued w)).

(** *** The csv line (lines 400-415) *)

(** [csv << zinc_id << ',' << best_result.e_nd << '\n'], where the value
    inserted is the one read from [best_result] at that moment. *)
Definition csv_line (os : ostream) (zinc_id : string) (v : option float) : list piece :=
  [Text zinc_id; Text comma; Num (fixed os) (precision os) v; Text nl].

(** [best_result.e_nd = best_result.f * lig.flexibility_penalty_factor],
    an assignment through the reference [best_result]. *)
Definition adjust (lig : ligand) (r : result) : result :=
  MkResult (f r) (PrimFloat.mul (f r) (flexibility_penalty_factor lig)) (conf r).

(** Lines 400-415.  [results] is a [ptr_vector] that owns its elements and
    [best_result] is a reference to its first element: the assignment
    updates the element in place, [results.clear()] destroys the elements,
    and the insertion of [best_result.e_nd] comes after it.  The reference
    is followed in the container as it is at each of these points. *)
Definition emit (os : ostream) (zinc_id : string) (lig : ligand)
    (results : list result) (w : worker) : worker :=
  if decide (Nat.min (length results) max_conformations = 0)%nat then w
  else
    let best_result : nat := 0%nat in
    let results := alter (adjust lig) best_result results in
    let results := @nil result in
    csv_write (csv_line os zinc_id (e_nd <$> results !! best_result)) w.

(** The value line 409 assigns, for the container as merged. *)
Definition e_nd_assigned (lig : ligand) (results : list result) : option float :=
  e_nd <$> alter (adjust lig) 0%nat results !! 0%nat.

(** *** One ligand (lines 305-416) *)

(** From the parsed ligand on (lines 329-415). *)
Definition dock_ligand (ctx : jobctx) (os : ostream) (i : Z) (zinc_id : string)
    (lig : ligand) (w : worker) : run :=
  match schedule_grid_maps (job_probes ctx) (get_atom_types lig) (grid_maps w) [] with
  | None => Throw w
  | Some (gms, todo) =>
      let w1 := populate ctx i todo (MkWorker gms (eng_draws w) (csv_file w) (issued w)) in
      let results := merged_results ctx lig w1 in
      let w2 := monte_carlo ctx i w1 in
      Ok (emit os zinc_id lig results w2)
  end.

(** The whole body of the ligand loop; [lig_of i] is the ligand parsed for
    index [i]. *)
Definition process_ligand (ctx : jobctx) (os : ostream) (lig_of : Z → ligand)
    (i : Z) (w : worker) : run :=
  let line := ligand_line i in
  match parse_descriptors lexical_cast_fl lexical_cast_size_t lexical_cast_int64 line with
  | None => Throw w
  | Some d =>
      if negb (passes_filter (job_bounds_of ctx) d) then Ok w
      else match zinc_id_of line with
           | None => Throw w
           | Some zinc_id => dock_ligand ctx os i zinc_id (lig_of i) w
           end
  end.

(** [for (size_t i = start_lig; i < end_lig; ++i)] over the indices given. *)
Fixpoint ligand_loop_run (ctx : jobctx) (os : ostream) (lig_of : Z → ligand)
    (ligs : list Z) (w : worker) : run :=
  match ligs with
  | [] => Ok w
  | i :: ligs' => bind (process_ligand ctx os lig_of i w) (ligand_loop_run ctx os lig_of ligs')
  end.

(** *** One slice (lines 286-418) *)

(** [if (exists(csv_path)) { ifstream csv(csv_path); }]: the file is
    opened for reading and nothing is extracted from it. *)
Definition open_existing_csv (w : worker) : worker :=
  match csv_file w with
  | Some _ => w
  | None => w
  end.

(** [ofstream csv(csv_path)]: the file is created or truncated. *)
Definition ofstream_open (w : worker) : worker :=
  MkWorker (grid_maps w) (eng_draws w) (Some []) (issued w).

(** A freshly opened stream, [csv.setf(std::ios::fixed,
    std::ios::floatfield)] and [std::setprecision(3)]. *)
Definition fresh_stream : ostream := OStream false 6.
Definition setf_fixed (os : ostream) : ostream := OStream true (precision os).
Definition setprecision (n : nat) (os : ostream) : ostream := OStream (fixed os) n.

(** The stream the ligand loop writes with (lines 300-302). *)
Definition csv_stream : ostream := setprecision 3 (setf_fixed fresh_stream).

Definition run_slice (ctx : jobctx) (lig_of : Z → ligand) (w : worker) : run :=
  let w := open_existing_csv w in
  let w := ofstream_open w in
  let w := csv_write [Text nl] w in
  ligand_loop_run ctx csv_stream lig_of
    (Slices.ligand_loop (job_range ctx).1 (job_range ctx).2) w.

(** *** One job and the job loop (lines 164-219) *)

(** [slices[k]] as the program evaluates it (lines 218-219): the index is
    not checked.  A read past the 101 elements throws nothing and yields
    the word of memory found there, which the program does not determine;
    [slices_past_end k] stands for it. *)
Variable slices_past_end : Z → Z.

Definition slices_read (k : Z) : Z :=
  default (slices_past_end k) (Slices.slices_at (Z.to_nat k)).

(** Reading the document: the strings and doubles [main] asks for, the
    bounds, the slice index and the two elements of [slices] it selects,
    [s + 1] being a [size_t] sum.  [None], an exception, when an element is
    missing or of another type, or the slice is not a number. *)
Definition read_job (jn : nat) (p : doc) : option jobctx :=
  _ ← String_ p "_id";
  slice ← String_ p "slice";
  _ ← Double p "center_x"; _ ← Double p "center_y"; _ ← Double p "center_z";
  _ ← Double p "size_x"; _ ← Double p "size_y"; _ ← Double p "size_z";
  b ← job_bounds main_defaults p;
  s ← lexical_cast_size_t slice;
  _ ← String_ p "receptor";
  Some (JobCtx jn p b (slices_read s, slices_read ((s + 1) mod 2 ^ 64)) (num_probes p)).

(** One iteration of [while (true)] that finds a job.  What follows the
    slice (lines 420-450) queries the queue and reads the files of the job
    folder; it changes neither the grid maps nor [log.csv] and gives the pool
    no task. *)
Definition run_job (lig_of : Z → ligand) (jn : nat) (p : doc) (w : worker) : run :=
  let w := issue [Act (Fetch jn)] w in
  match read_job jn p with
  | None => Throw w
  | Some ctx => run_slice ctx lig_of w
  end.

(** The jobs the queue hands out, in order. *)
Fixpoint job_loop (lig_of : Z → ligand) (jn : nat) (jobs : list doc) (w : worker) : run :=
  match jobs with
  | [] => Ok w
  | p :: jobs' => bind (run_job lig_of jn p w) (job_loop lig_of (S jn) jobs')
  end.

(** [vector<array3d<fl>> grid_maps(XS_TYPE_SIZE);] and the rest of the
    state before the first job; [fs] is what [log.csv] holds, if it exists. *)
Definition main_init (fs : option (list piece)) : worker :=
  MkWorker (replicate XS_TYPE_SIZE None) 0 fs [].

Definition main_with (lig_of : Z → ligand) (fs : option (list piece)) (jobs : list doc)
    : run :=
  job_loop lig_of 0 jobs (startup (main_init fs)).

(** [ligand lig("");] (line 327): every ligand is built from the empty path. *)
Definition main (fs : option (list piece)) (jobs : list doc) : run :=
  main_with (λ _, ligand_ctor EmptyString) fs jobs.

(** *** What reaches the csv file *)

(** The ligand that gets as far as the merge: its id, the parsed ligand
    and the merged result list.  [None] when the ligand is filtered out or
    [main] is left before the merge. *)
Definition merged_of (ctx : jobctx) (lig_of : Z → ligand) (i : Z) (w : worker)
    : option (string * ligand * list result) :=
  d ← parse_descriptors lexical_cast_fl lexical_cast_size_t lexical_cast_int64 (ligand_line i);
  if passes_filter (job_bounds_of ctx) d then
    zinc_id ← zinc_id_of (ligand_line i);
    '(gms, todo) ← schedule_grid_maps (job_probes ctx) (get_atom_types (lig_of i)) (grid_maps w) [];
    Some (zinc_id, lig_of i,
          merged_results ctx (lig_of i)
            (populate ctx i todo (MkWorker gms (eng_draws w) (csv_file w) (issued w))))
  else None.

(** A surviving ligand: it got to the merge and its merged list is not
    empty. *)
Definition survivor (ctx : jobctx) (lig_of : Z → ligand) (i : Z) (w : worker)
    : list (Z * string * ligand * list result) :=
  match merged_of ctx lig_of i w with
  | Some (zinc_id, lig, r :: rs) => [(i, zinc_id, lig, r :: rs)]
  | _ => []
  end.

(** The surviving ligands of a loop, each met in the state the loop has
    reached when it comes to it. *)
Fixpoint slice_survivors (ctx : jobctx) (os : ostream) (lig_of : Z → ligand)
    (ligs : list Z) (w : worker) : list (Z * string * ligand * list result) :=
  match ligs with
  | [] => []
  | i :: ligs' =>
      survivor ctx lig_of i w ++
      match process_ligand ctx os lig_of i w with
      | Ok w' => slice_survivors ctx os lig_of ligs' w'
      | Throw _ => []
      end
  end.

(** The state in which the ligand loop of a slice starts. *)
Definition slice_start (w : worker) : worker :=
  csv_write [Text nl] (ofstream_open (open_existing_csv w)).

(** *** The commands a ligand adds *)

Definition gm_block (ctx : jobctx) (i : Z) (todo : list nat) : list command :=
  match todo with
  | [] => []
  | _ :: _ => batch (gm_tasks ctx i todo)
  end.

Definition mc_block (ctx : jobctx) (i : Z) (w : worker) : list command :=
  batch (mc_tasks ctx i w).

(** The order [add_to_result_container] is meant to keep: every result is
    followed only by results of no smaller free energy. *)
Definition sorted_by_f (rs : list result) : Prop :=
  StronglySorted (λ a b, fle (f a) (f b) = true) rs.

(** *** The order of the commands *)

(** In a command list every grid-map task of a ligand is waited for, and
    the pool is synced after that, before a batch with a Monte Carlo task
    of the same ligand is dispatched. *)
Definition gm_before_mc (prog : list command) : Prop :=
  ∀ pm bm tm pg bg tg,
    prog !! pm = Some (Run bm) → tm ∈ bm → is_mc tm = true →
    prog !! pg = Some (Run bg) → tg ∈ bg → is_gm tg = true →
    tag tg = tag tm →
    ∃ g s, (pg < g)%nat ∧ (g < s)%nat ∧ (s < pm)%nat ∧
           prog !! g = Some (Get tg) ∧ prog !! s = Some Sync.

(** Every task a command list dispatches belongs to a job and a ligand
    that satisfy [P]. *)
Definition tagged (P : nat * Z → Prop) (prog : list command) : Prop :=
  ∀ t, t ∈ tasks_run prog → ∃ tg, tag t = Some tg ∧ P tg.

(** The three together, for the commands of one part of [main]. *)
Definition good (P : nat * Z → Prop) (prog : list command) : Prop :=
  gm_before_mc prog ∧ well_formed prog ∧ tagged P prog.

(** *** Facts about the grid maps *)

Lemma schedule_spec (n : nat * nat * nat) (types : list nat) :
  ∀ (gms : list array3d) (todo : list nat) (gms' : list array3d) (todo' : list nat),
    schedule_grid_maps n types gms todo = Some (gms', todo') →
    ∃ new : list nat,
      todo' = todo ++ new ∧ length gms' = length gms ∧ NoDup new ∧
      (∀ t, t ∈ new ↔ t ∈ types ∧ gms !! t = Some None) ∧
      (∀ t, t ∉ new → gms' !! t = gms !! t) ∧
      (∀ t, t ∈ new → gms' !! t = Some (resize n None)).
Proof.
  induction types as [|t types IH]; intros gms todo gms' todo' H; simpl in H.
  - injection H as <- <-. exists []. rewrite app_nil_r.
    split_and!; try done; [constructor | | intros t Ht; inversion Ht].
    intros t. split; [intros Ht; inversion Ht | intros [Ht _]; inversion Ht].
  - destruct (gms !! t) as [g|] eqn:Hg; [|discriminate].
    destruct g as [cells|]; simpl in H.
    + destruct (IH _ _ _ _ H) as (new & -> & Hlen & Hnd & Hin & Hout & Hnew).
      exists new. split_and!; try done.
      intros t0. rewrite Hin, elem_of_cons. split; [tauto|].
      intros [[-> | Ht0] Hn]; [congruence | tauto].
    + destruct (IH _ _ _ _ H) as (new & -> & Hlen & Hnd & Hin & Hout & Hnew).
      assert (Hlt : (t < length gms)%nat) by (eapply lookup_lt_Some; eauto).
      assert (Htn : t ∉ new).
      { rewrite Hin. intros [_ Ht]. rewrite list_lookup_insert_eq in Ht by exact Hlt. discriminate. }
      exists (t :: new). split_and!.
      * rewrite <- app_assoc. reflexivity.
      * rewrite Hlen, length_insert. reflexivity.
      * constructor; assumption.
      * intros t0. rewrite !elem_of_cons, Hin.
        destruct (decide (t0 = t)) as [->|Hne]; [tauto|].
        rewrite list_lookup_insert_ne by congruence. tauto.
      * intros t0 Ht0. rewrite elem_of_cons in Ht0.
        rewrite Hout by tauto. apply list_lookup_insert_ne. intros ->. tauto.
      * intros t0 Ht0. rewrite elem_of_cons in Ht0.
        destruct (decide (t0 = t)) as [->|Hne].
        -- rewrite Hout by exact Htn. apply list_lookup_insert_eq, Hlt.
        -- apply Hnew. tauto.
Qed.

(** The assertion [t < XS_TYPE_SIZE] holds for every type exactly when the
    loop runs to its end. *)
Lemma schedule_total (n : nat * nat * nat) (types : list nat) :
  ∀ (gms : list array3d) (todo : list nat),
    (∀ t, t ∈ types → (t < length gms)%nat) ↔
    is_Some (schedule_grid_maps n types gms todo).
Proof.
  induction types as [|t types IH]; intros gms todo; simpl.
  - split; [eauto | intros _ t Ht; inversion Ht].
  - destruct (gms !! t) as [g|] eqn:Hg.
    + assert (Hlt : (t < length gms)%nat) by (eapply lookup_lt_Some; eauto).
      destruct (initialized g).
      * rewrite <- IH. split; [intros H t0 Ht0; apply H, list_elem_of_further, Ht0|].
        intros H t0 Ht0. apply elem_of_cons in Ht0 as [->|Ht0]; auto.
      * rewrite <- IH. split.
        -- intros H t0 Ht0. rewrite length_insert. apply H, list_elem_of_further, Ht0.
        -- intros H t0 Ht0. apply elem_of_cons in Ht0 as [->|Ht0]; [assumption|].
           specialize (H t0 Ht0). rewrite length_insert in H. exact H.
    + split; [|intros [? ?]; discriminate].
      intros H. apply lookup_ge_None in Hg. specialize (H t (list_elem_of_here _ _)). lia.
Qed.

Lemma grid_map_task_lookup_ne (p : doc) (types : list nat) (x t : nat) :
  ∀ gms : list array3d, t ∉ types → grid_map_task p gms types x !! t = gms !! t.
Proof.
  unfold grid_map_task. induction types as [|a types IH]; intros gms Ht; simpl.
  - reflexivity.
  - rewrite IH by set_solver. apply list_lookup_alter_ne. set_solver.
Qed.

Lemma grid_map_tasks_lookup_ne (p : doc) (types : list nat) (xs : list nat) (t : nat) :
  ∀ gms : list array3d, t ∉ types →
    foldl (λ gms x, grid_map_task p gms types x) gms xs !! t = gms !! t.
Proof.
  induction xs as [|x xs IH]; intros gms Ht; cbn [foldl].
  - reflexivity.
  - rewrite IH by exact Ht. apply grid_map_task_lookup_ne, Ht.
Qed.

(** A grid-map task never turns a map into an uninitialized one, nor an
    uninitialized one into a map. *)
Lemma grid_map_task_initialized (p : doc) (types : list nat) (x t : nat) :
  ∀ gms : list array3d,
    initialized <$> grid_map_task p gms types x !! t = initialized <$> gms !! t.
Proof.
  unfold grid_map_task. induction types as [|a types IH]; intros gms; simpl.
  - reflexivity.
  - rewrite IH. destruct (decide (a = t)) as [->|Hne].
    + rewrite list_lookup_alter_eq. destruct (gms !! t) as [[c|]|]; reflexivity.
    + rewrite list_lookup_alter_ne by exact Hne. reflexivity.
Qed.

Lemma populate_grid_maps_ne (ctx : jobctx) (i : Z) (todo : list nat) (w : worker) (t : nat) :
  t ∉ todo → grid_maps (populate ctx i todo w) !! t = grid_maps w !! t.
Proof.
  intros Ht. unfold populate. destruct todo as [|a todo]; [reflexivity|].
  cbn [grid_maps issue]. apply grid_map_tasks_lookup_ne, Ht.
Qed.

Lemma populate_issued (ctx : jobctx) (i : Z) (todo : list nat) (w : worker) :
  issued (populate ctx i todo w) = issued w ++ gm_block ctx i todo.
Proof.
  unfold populate, gm_block. destruct todo as [|a todo]; simpl.
  - rewrite app_nil_r. reflexivity.
  - reflexivity.
Qed.

Lemma populate_csv (ctx : jobctx) (i : Z) (todo : list nat) (w : worker) :
  csv_file (populate ctx i todo w) = csv_file w ∧
  eng_draws (populate ctx i todo w) = eng_draws w.
Proof. unfold populate. destruct todo; split; reflexivity. Qed.

Lemma emit_fields (os : ostream) (id : string) (lig : ligand) (rs : list result) (w : worker) :
  grid_maps (emit os id lig rs w) = grid_maps w ∧
  eng_draws (emit os id lig rs w) = eng_draws w ∧
  issued (emit os id lig rs w) = issued w.
Proof. unfold emit. case_decide; split_and!; reflexivity. Qed.

(** What [emit] appends: nothing for an empty list, one line otherwise. *)
Lemma emit_csv (os : ostream) (id : string) (lig : ligand) (rs : list result) (w : worker) :
  csv_file (emit os id lig rs w)
  = match rs with
    | [] => csv_file w
    | _ :: _ => Some (default [] (csv_file w) ++ csv_line os id None)
    end.
Proof.
  unfold emit. destruct rs as [|r rs]; [reflexivity|].
  rewrite decide_False; [reflexivity|]. simpl. unfold max_conformations. lia.
Qed.

(** The shape of what [dock_ligand] does when the assertion holds. *)
Lemma dock_ligand_ok (ctx : jobctx) (os : ostream) (i : Z) (id : string)
    (lig : ligand) (w : worker) (gms : list array3d) (todo : list nat) :
  schedule_grid_maps (job_probes ctx) (get_atom_types lig) (grid_maps w) [] = Some (gms, todo) →
  let w1 := populate ctx i todo (MkWorker gms (eng_draws w) (csv_file w) (issued w)) in
  dock_ligand ctx os i id lig w
    = Ok (emit os id lig (merged_results ctx lig w1) (monte_carlo ctx i w1)) ∧
  issued (state (dock_ligand ctx os i id lig w))
    = issued w ++ gm_block ctx i todo ++ mc_block ctx i w1 ∧
  eng_draws w1 = eng_draws w ∧
  csv_file (state (dock_ligand ctx os i id lig w))
    = match merged_results ctx lig w1 with
      | [] => csv_file w
      | _ :: _ => Some (default [] (csv_file w) ++ csv_line os id None)
      end.
Proof.
  intros H w1. unfold dock_ligand. rewrite H. fold w1. split_and!.
  - reflexivity.
  - simpl. destruct (emit_fields os id lig (merged_results ctx lig w1) (monte_carlo ctx i w1))
      as (_ & _ & ->).
    unfold monte_carlo, issue. simpl. unfold w1 at 1. rewrite populate_issued. simpl.
    rewrite <- app_assoc. reflexivity.
  - unfold w1. exact (proj2 (populate_csv _ _ _ _)).
  - simpl. rewrite emit_csv. unfold monte_carlo, issue. simpl.
    destruct (populate_csv ctx i todo (MkWorker gms (eng_draws w) (csv_file w) (issued w)))
      as [Hc _].
    fold w1 in Hc. rewrite Hc. reflexivity.
Qed.

Lemma dock_ligand_throw (ctx : jobctx) (os : ostream) (i : Z) (id : string)
    (lig : ligand) (w : worker) :
  schedule_grid_maps (job_probes ctx) (get_atom_types lig) (grid_maps w) [] = None →
  dock_ligand ctx os i id lig w = Throw w.
Proof. intros H. unfold dock_ligand. rewrite H. reflexivity. Qed.

(** An initialized map is the same map after the ligand. *)
Lemma dock_ligand_preserves (ctx : jobctx) (os : ostream) (i : Z) (id : string)
    (lig : ligand) (w : worker) (t : nat) (g : list (list (list float))) :
  grid_maps w !! t = Some (Some g) →
  grid_maps (state (dock_ligand ctx os i id lig w)) !! t = Some (Some g).
Proof.
  intros Hg.
  destruct (schedule_grid_maps (job_probes ctx) (get_atom_types lig) (grid_maps w) [])
    as [[gms todo]|] eqn:Hs.
  - destruct (dock_ligand_ok ctx os i id lig w gms todo Hs) as (-> & _). simpl.
    destruct (emit_fields os id lig
                (merged_results ctx lig (populate ctx i todo
                   (MkWorker gms (eng_draws w) (csv_file w) (issued w))))
                (monte_carlo ctx i (populate ctx i todo
                   (MkWorker gms (eng_draws w) (csv_file w) (issued w))))) as (-> & _).
    unfold monte_carlo, issue. simpl.
    destruct (schedule_spec _ _ _ _ _ _ Hs) as (new & Hnew & _ & _ & Hin & Hout & _).
    simpl in Hnew. subst new.
    assert (Ht : t ∉ todo).
    { rewrite Hin. intros [_ Hn]. rewrite Hg in Hn. discriminate. }
    rewrite populate_grid_maps_ne by exact Ht. simpl. rewrite Hout by exact Ht. exact Hg.
  - rewrite dock_ligand_throw by exact Hs. exact Hg.
Qed.

Lemma process_ligand_preserves (ctx : jobctx) (os : ostream) (lig_of : Z → ligand)
    (i : Z) (w : worker) (t : nat) (g : list (list (list float))) :
  grid_maps w !! t = Some (Some g) →
  grid_maps (state (process_ligand ctx os lig_of i w)) !! t = Some (Some g).
Proof.
  intros Hg. unfold process_ligand.
  destruct (parse_descriptors _ _ _ _) as [d|]; [|exact Hg].
  destruct (negb _); [exact Hg|].
  destruct (zinc_id_of _) as [id|]; [|exact Hg].
  apply dock_ligand_preserves, Hg.
Qed.

Lemma ligand_loop_preserves (ctx : jobctx) (os : ostream) (lig_of : Z → ligand)
    (ligs : list Z) (t : nat) (g : list (list (list float))) :
  ∀ w : worker, grid_maps w !! t = Some (Some g) →
    grid_maps (state (ligand_loop_run ctx os lig_of ligs w)) !! t = Some (Some g).
Proof.
  induction ligs as [|i ligs IH]; intros w Hg; simpl; [exact Hg|].
  pose proof (process_ligand_preserves ctx os lig_of i w t g Hg) as H.
  destruct (process_ligand ctx os lig_of i w) as [w'|w']; simpl in *; [|exact H].
  apply IH, H.
Qed.

(** Opening the existing file for reading changes nothing. *)
Lemma open_existing_csv_id (w : worker) : open_existing_csv w = w.
Proof. unfold open_existing_csv. destruct (csv_file w); reflexivity. Qed.

Lemma run_job_preserves (lig_of : Z → ligand) (jn : nat) (p : doc) (w : worker)
    (t : nat) (g : list (list (list float))) :
  grid_maps w !! t = Some (Some g) →
  grid_maps (state (run_job lig_of jn p w)) !! t = Some (Some g).
Proof.
  intros Hg. unfold run_job. destruct (read_job jn p) as [ctx|]; [|exact Hg].
  unfold run_slice. apply ligand_loop_preserves.
  rewrite open_existing_csv_id. exact Hg.
Qed.

Lemma job_loop_preserves (lig_of : Z → ligand) (jobs : list doc)
    (t : nat) (g : list (list (list float))) :
  ∀ (jn : nat) (w : worker), grid_maps w !! t = Some (Some g) →
    grid_maps (state (job_loop lig_of jn jobs w)) !! t = Some (Some g).
Proof.
  induction jobs as [|p jobs IH]; intros jn w Hg; simpl; [exact Hg|].
  pose proof (run_job_preserves lig_of jn p w t g Hg) as H.
  destruct (run_job lig_of jn p w) as [w'|w']; simpl in *; [|exact H].
  apply IH, H.
Qed.

(** *** Facts about the commands issued *)

Lemma tasks_run_app (cs1 cs2 : list command) :
  tasks_run (cs1 ++ cs2) = tasks_run cs1 ++ tasks_run cs2.
Proof. unfold tasks_run. apply bind_app. Qed.

Lemma tasks_run_gets (ts : list task) : tasks_run (Get <$> ts) = [].
Proof. induction ts as [|t ts IH]; [reflexivity|]. simpl. exact IH. Qed.

Lemma tasks_run_block (b : list task) :
  tasks_run ([Run b] ++ (Get <$> b) ++ [Sync]) = b.
Proof.
  rewrite !tasks_run_app, tasks_run_gets. simpl. rewrite !app_nil_r. reflexivity.
Qed.

Lemma tasks_run_gm_block (ctx : jobctx) (i : Z) (todo : list nat) :
  tasks_run (gm_block ctx i todo) = match todo with [] => [] | _ :: _ => gm_tasks ctx i todo end.
Proof. unfold gm_block. destruct todo; [reflexivity|]. apply tasks_run_block. Qed.

Lemma tasks_run_mc_block (ctx : jobctx) (i : Z) (w : worker) :
  tasks_run (mc_block ctx i w) = mc_tasks ctx i w.
Proof. apply tasks_run_block. Qed.

Lemma filter_gm_gm_tasks (ctx : jobctx) (i : Z) (todo : list nat) :
  filter (λ t, is_gm t) (gm_tasks ctx i todo) = gm_tasks ctx i todo.
Proof.
  unfold gm_tasks. induction (seq 0 (job_probes ctx).1.1) as [|x xs IH]; [reflexivity|].
  rewrite fmap_cons, filter_cons_True by reflexivity. rewrite IH. reflexivity.
Qed.

Lemma filter_mc_gm_tasks (ctx : jobctx) (i : Z) (todo : list nat) :
  filter (λ t, is_mc t) (gm_tasks ctx i todo) = [].
Proof.
  unfold gm_tasks. induction (seq 0 (job_probes ctx).1.1) as [|x xs IH]; [reflexivity|].
  rewrite fmap_cons, filter_cons_False by (simpl; auto). exact IH.
Qed.

Lemma filter_gm_mc_tasks (ctx : jobctx) (i : Z) (w : worker) :
  filter (λ t, is_gm t) (mc_tasks ctx i w) = [].
Proof.
  unfold mc_tasks. induction (seq 0 num_mc_tasks) as [|x xs IH]; [reflexivity|].
  rewrite fmap_cons, filter_cons_False by (simpl; auto). exact IH.
Qed.

Lemma filter_mc_mc_tasks (ctx : jobctx) (i : Z) (w : worker) :
  filter (λ t, is_mc t) (mc_tasks ctx i w) = mc_tasks ctx i w.
Proof.
  unfold mc_tasks. induction (seq 0 num_mc_tasks) as [|x xs IH]; [reflexivity|].
  rewrite fmap_cons, filter_cons_True by reflexivity. rewrite IH. reflexivity.
Qed.

Lemma new_cmds_app (w : worker) (r : run) (blk : list command) :
  issued (state r) = issued w ++ blk → new_cmds w r = blk.
Proof. intros H. unfold new_cmds. rewrite H. apply drop_app_length. Qed.

Lemma populate_initialized (ctx : jobctx) (i : Z) (todo : list nat) (w : worker) (t : nat) :
  initialized <$> grid_maps (populate ctx i todo w) !! t = initialized <$> grid_maps w !! t.
Proof.
  unfold populate. destruct todo as [|a todo]; [reflexivity|].
  cbn [grid_maps issue]. generalize (grid_maps w).
  induction (seq 0 (job_probes ctx).1.1) as [|x xs IH]; intros gms; [reflexivity|].
  cbn [foldl]. rewrite IH. apply grid_map_task_initialized.
Qed.

(** The grid-map tasks a ligand dispatches, and its Monte Carlo tasks. *)
Lemma dock_ligand_tasks (ctx : jobctx) (os : ostream) (i : Z) (id : string)
    (lig : ligand) (w : worker) (gms : list array3d) (todo : list nat) :
  schedule_grid_maps (job_probes ctx) (get_atom_types lig) (grid_maps w) [] = Some (gms, todo) →
  gm_tasks_in (new_cmds w (dock_ligand ctx os i id lig w))
    = match todo with [] => [] | _ :: _ => gm_tasks ctx i todo end ∧
  mc_tasks_in (new_cmds w (dock_ligand ctx os i id lig w))
    = mc_tasks ctx i w.
Proof.
  intros Hs. destruct (dock_ligand_ok ctx os i id lig w gms todo Hs) as (_ & Hi & Hd & _).
  rewrite (new_cmds_app _ _ _ Hi). unfold gm_tasks_in, mc_tasks_in.
  rewrite !tasks_run_app, tasks_run_gm_block, tasks_run_mc_block, !filter_app.
  rewrite filter_gm_mc_tasks, filter_mc_mc_tasks, app_nil_r.
  assert (Hmc : mc_tasks ctx i (populate ctx i todo
                   (MkWorker gms (eng_draws w) (csv_file w) (issued w))) = mc_tasks ctx i w).
  { unfold mc_tasks. rewrite Hd. reflexivity. }
  rewrite Hmc. split.
  - destruct todo; [reflexivity|]. apply filter_gm_gm_tasks.
  - destruct todo; [reflexivity|]. rewrite filter_mc_gm_tasks. reflexivity.
Qed.

(** C1: a ligand schedules a grid map for an atom type exactly when the
    type is one of its types and the map is not initialized (each such type
    once); a map that is initialized stays the same map through this ligand,
    through every later ligand of the job and through every later job; and
    a ligand whose types all have initialized maps dispatches no grid-map
    task, in particular any ligand whose types are among those of a ligand
    docked before it. *)
Theorem C1_grid_maps_once (ctx : jobctx) (os : ostream) (i : Z) (id : string)
    (lig : ligand) (w : worker) :
  (∀ t, t ∈ get_atom_types lig → (t < length (grid_maps w))%nat) →
  ∃ todo : list nat,
    gm_tasks_in (new_cmds w (dock_ligand ctx os i id lig w))
      = match todo with [] => [] | _ :: _ => gm_tasks ctx i todo end ∧
    NoDup todo ∧
    (∀ t, t ∈ todo ↔ t ∈ get_atom_types lig ∧ grid_maps w !! t = Some None) ∧
    (∀ t g, grid_maps w !! t = Some (Some g) →
       grid_maps (state (dock_ligand ctx os i id lig w)) !! t = Some (Some g)) ∧
    (∀ t, t ∈ get_atom_types lig →
       ∃ g, grid_maps (state (dock_ligand ctx os i id lig w)) !! t = Some (Some g)) ∧
    (∀ lig_of ligs w0 t g, grid_maps w0 !! t = Some (Some g) →
       grid_maps (state (ligand_loop_run ctx os lig_of ligs w0)) !! t = Some (Some g)) ∧
    (∀ lig_of jobs jn w0 t g, grid_maps w0 !! t = Some (Some g) →
       grid_maps (state (job_loop lig_of jn jobs w0)) !! t = Some (Some g)) ∧
    (∀ ctx' i' id' lig' w0,
       (∀ t, t ∈ get_atom_types lig' → ∃ g, grid_maps w0 !! t = Some (Some g)) →
       gm_tasks_in (new_cmds w0 (dock_ligand ctx' os i' id' lig' w0)) = []) ∧
    (∀ i' id' lig',
       get_atom_types lig' ⊆ get_atom_types lig →
       gm_tasks_in (new_cmds (state (dock_ligand ctx os i id lig w))
                      (dock_ligand ctx os i' id' lig' (state (dock_ligand ctx os i id lig w))))
       = []).
Proof.
  intros Hrange.
  assert (Hzero : ∀ ctx' i' id' lig' w0,
            (∀ t, t ∈ get_atom_types lig' → ∃ g, grid_maps w0 !! t = Some (Some g)) →
            gm_tasks_in (new_cmds w0 (dock_ligand ctx' os i' id' lig' w0)) = []).
  { intros ctx' i' id' lig' w0 Hall.
    destruct (proj1 (schedule_total (job_probes ctx') (get_atom_types lig') (grid_maps w0) []))
      as [[gms todo] Hs].
    { intros t Ht. destruct (Hall t Ht) as [g Hg]. eapply lookup_lt_Some; eauto. }
    destruct (dock_ligand_tasks ctx' os i' id' lig' w0 gms todo Hs) as [-> _].
    destruct (schedule_spec _ _ _ _ _ _ Hs) as (new & Hnew & _ & _ & Hin & _).
    simpl in Hnew. subst new. destruct todo as [|t todo]; [reflexivity|].
    destruct (proj1 (Hin t) (list_elem_of_here _ _)) as [Ht Hn].
    destruct (Hall t Ht) as [g Hg]. congruence. }
  destruct (proj1 (schedule_total (job_probes ctx) (get_atom_types lig) (grid_maps w) []) Hrange)
    as [[gms todo] Hs].
  destruct (schedule_spec _ _ _ _ _ _ Hs) as (new & Hnew & Hlen & Hnd & Hin & Hout & Hres).
  simpl in Hnew. subst new.
  assert (Hafter : ∀ t, t ∈ get_atom_types lig →
            ∃ g, grid_maps (state (dock_ligand ctx os i id lig w)) !! t = Some (Some g)).
  { intros t Ht. destruct (grid_maps w !! t) as [[g|]|] eqn:Hg.
    - exists g. apply dock_ligand_preserves, Hg.
    - assert (Htodo : t ∈ todo) by (apply Hin; split; assumption).
      destruct (dock_ligand_ok ctx os i id lig w gms todo Hs) as (-> & _). simpl.
      destruct (emit_fields os id lig
                  (merged_results ctx lig (populate ctx i todo
                     (MkWorker gms (eng_draws w) (csv_file w) (issued w))))
                  (monte_carlo ctx i (populate ctx i todo
                     (MkWorker gms (eng_draws w) (csv_file w) (issued w))))) as (-> & _).
      unfold monte_carlo. cbn [grid_maps issue].
      pose proof (populate_initialized ctx i todo
                    (MkWorker gms (eng_draws w) (csv_file w) (issued w)) t) as Hinit.
      cbn [grid_maps] in Hinit. rewrite (Hres t Htodo) in Hinit.
      destruct (grid_maps (populate ctx i todo _) !! t) as [[g|]|]; try discriminate.
      exists g. reflexivity.
    - apply lookup_ge_None in Hg. specialize (Hrange t Ht). lia. }
  exists todo. split_and!.
  - apply (dock_ligand_tasks ctx os i id lig w gms todo Hs).
  - exact Hnd.
  - exact Hin.
  - intros t g. apply dock_ligand_preserves.
  - exact Hafter.
  - intros lig_of ligs w0 t g. apply ligand_loop_preserves.
  - intros lig_of jobs jn w0 t g. apply job_loop_preserves.
  - exact Hzero.
  - intros i' id' lig' Hsub. apply Hzero. intros t Ht. apply Hafter, Hsub, Ht.
Qed.

(** *** Facts about the filter and the csv file *)

Lemma parse_descriptors_zinc_id (line : string) (d : descriptors) :
  parse_descriptors lexical_cast_fl lexical_cast_size_t lexical_cast_int64 line = Some d →
  is_Some (zinc_id_of line).
Proof.
  unfold parse_descriptors, right_cast_fl, right_cast_text, zinc_id_of, substr. intros H.
  destruct (decide (21 ≤ String.length line)%nat) as [Hlen|Hlen]; [|discriminate].
  rewrite decide_True by lia. eauto.
Qed.

Lemma process_ligand_filtered (ctx : jobctx) (os : ostream) (lig_of : Z → ligand)
    (i : Z) (w : worker) (d : descriptors) :
  parse_descriptors lexical_cast_fl lexical_cast_size_t lexical_cast_int64 (ligand_line i)
    = Some d →
  passes_filter (job_bounds_of ctx) d = false →
  process_ligand ctx os lig_of i w = Ok w.
Proof. intros Hd Hf. unfold process_ligand. rewrite Hd, Hf. reflexivity. Qed.

Lemma process_ligand_passed (ctx : jobctx) (os : ostream) (lig_of : Z → ligand)
    (i : Z) (w : worker) (d : descriptors) (id : string) :
  parse_descriptors lexical_cast_fl lexical_cast_size_t lexical_cast_int64 (ligand_line i)
    = Some d →
  passes_filter (job_bounds_of ctx) d = true →
  zinc_id_of (ligand_line i) = Some id →
  process_ligand ctx os lig_of i w = dock_ligand ctx os i id (lig_of i) w.
Proof. intros Hd Hf Hid. unfold process_ligand. rewrite Hd, Hf, Hid. reflexivity. Qed.

Lemma new_cmds_same (w : worker) : new_cmds w (Ok w) = [].
Proof. unfold new_cmds. simpl. apply drop_all. Qed.

Lemma mc_tasks_length (ctx : jobctx) (i : Z) (w : worker) :
  length (mc_tasks ctx i w) = 32%nat.
Proof. unfold mc_tasks. rewrite length_fmap, length_seq. reflexivity. Qed.

(** C7: the ligand goes on to parsing and docking exactly when each of
    the nine descriptors lies between its two bounds, both included; a
    ligand that fails a filter leaves the state as it was (no task is
    dispatched, nothing is written to the csv file), and one that passes
    is docked and gets its 32 Monte Carlo tasks; with [mwt_lb = 400] a
    ligand of [mwt = 399.9] is skipped. *)
Theorem C7_filter (ctx : jobctx) (os : ostream) (lig_of : Z → ligand)
    (i : Z) (w : worker) (d : descriptors) :
  parse_descriptors lexical_cast_fl lexical_cast_size_t lexical_cast_int64 (ligand_line i)
    = Some d →
  (passes_filter (job_bounds_of ctx) d = true ↔
     Forall in_range (filter_fields (job_bounds_of ctx) d)) ∧
  (passes_filter (job_bounds_of ctx) d = false →
     process_ligand ctx os lig_of i w = Ok w ∧
     tasks_run (new_cmds w (process_ligand ctx os lig_of i w)) = [] ∧
     csv_file (state (process_ligand ctx os lig_of i w)) = csv_file w) ∧
  (passes_filter (job_bounds_of ctx) d = true →
     ∃ id, zinc_id_of (ligand_line i) = Some id ∧
       process_ligand ctx os lig_of i w = dock_ligand ctx os i id (lig_of i) w ∧
       ((∀ t, t ∈ get_atom_types (lig_of i) → (t < length (grid_maps w))%nat) →
        mc_tasks_in (new_cmds w (process_ligand ctx os lig_of i w)) = mc_tasks ctx i w ∧
        length (mc_tasks ctx i w) = 32%nat)) ∧
  (mwt_lb (job_bounds_of ctx) = 400%float → mwt d = 0x1.8fe6666666666p+8%float →
     passes_filter (job_bounds_of ctx) d = false).
Proof.
  intros Hd. split_and!.
  - apply passes_filter_iff.
  - intros Hf. rewrite (process_ligand_filtered ctx os lig_of i w d Hd Hf).
    rewrite new_cmds_same. split_and!; reflexivity.
  - intros Hf. destruct (parse_descriptors_zinc_id _ _ Hd) as [id Hid]. exists id.
    rewrite (process_ligand_passed ctx os lig_of i w d id Hd Hf Hid).
    split_and!; [exact Hid | reflexivity |]. intros Hrange.
    destruct (proj1 (schedule_total (job_probes ctx) (get_atom_types (lig_of i))
                       (grid_maps w) []) Hrange) as [[gms todo] Hs].
    split; [|apply mc_tasks_length].
    apply (dock_ligand_tasks ctx os i id (lig_of i) w gms todo Hs).
  - intros Hlb Hm. unfold passes_filter. rewrite Hlb, Hm. reflexivity.
Qed.

Lemma merged_of_csv (ctx : jobctx) (os : ostream) (lig_of : Z → ligand) (i : Z) (w : worker) :
  csv_file (state (process_ligand ctx os lig_of i w))
  = match survivor ctx lig_of i w with
    | [] => csv_file w
    | (_, id, _, _) :: _ => Some (default [] (csv_file w) ++ csv_line os id None)
    end.
Proof.
  unfold survivor, merged_of, process_ligand.
  destruct (parse_descriptors _ _ _ _) as [d|]; [|reflexivity]. cbn [mbind option_bind].
  destruct (passes_filter _ _); [|reflexivity]. cbn [mbind option_bind negb].
  destruct (zinc_id_of _) as [id|]; [|reflexivity]. cbn [mbind option_bind].
  destruct (schedule_grid_maps _ _ _ _) as [[gms todo]|] eqn:Hs.
  - destruct (dock_ligand_ok ctx os i id (lig_of i) w gms todo Hs) as (_ & _ & _ & ->).
    simpl. destruct (merged_results _ _ _); reflexivity.
  - rewrite dock_ligand_throw by exact Hs. reflexivity.
Qed.

(** Every survivor passed the filter, has a non-empty merged list, and
    line 409 assigns the product of the first result's energy and the
    flexibility penalty. *)
Lemma survivor_spec (ctx : jobctx) (lig_of : Z → ligand) (i : Z) (w : worker)
    (s : Z * string * ligand * list result) :
  s ∈ survivor ctx lig_of i w →
  ∃ d id r rs,
    s = (i, id, lig_of i, r :: rs) ∧
    parse_descriptors lexical_cast_fl lexical_cast_size_t lexical_cast_int64 (ligand_line i)
      = Some d ∧
    passes_filter (job_bounds_of ctx) d = true ∧
    zinc_id_of (ligand_line i) = Some id ∧
    e_nd_assigned (lig_of i) (r :: rs)
      = Some (PrimFloat.mul (f r) (flexibility_penalty_factor (lig_of i))).
Proof.
  unfold survivor, merged_of.
  destruct (parse_descriptors _ _ _ _) as [d|]; cbn [mbind option_bind];
    [|intros H; inversion H].
  destruct (passes_filter _ _) eqn:Hf; cbn [mbind option_bind]; [|intros H; inversion H].
  destruct (zinc_id_of _) as [id|]; cbn [mbind option_bind]; [|intros H; inversion H].
  destruct (schedule_grid_maps _ _ _ _) as [[gms todo]|]; cbn [mbind option_bind];
    [|intros H; inversion H].
  destruct (merged_results _ _ _) as [|r rs]; [intros H; inversion H|].
  intros H. apply list_elem_of_singleton in H as ->.
  exists d, id, r, rs. split_and!; try reflexivity. exact Hf.
Qed.

Lemma ligand_loop_csv (ctx : jobctx) (os : ostream) (lig_of : Z → ligand) (ligs : list Z) :
  ∀ (w : worker) (c : list piece), csv_file w = Some c →
    csv_file (state (ligand_loop_run ctx os lig_of ligs w))
    = Some (c ++ (slice_survivors ctx os lig_of ligs w
                    ≫= λ s, csv_line os s.1.1.2 None)).
Proof.
  induction ligs as [|i ligs IH]; intros w c Hc; simpl.
  - rewrite app_nil_r. exact Hc.
  - pose proof (merged_of_csv ctx os lig_of i w) as Hcsv. rewrite Hc in Hcsv. simpl in Hcsv.
    rewrite bind_app.
    destruct (process_ligand ctx os lig_of i w) as [w'|w']; simpl in *.
    + destruct (survivor ctx lig_of i w) as [|[[[i0 id] lig] rs] l] eqn:Hsv.
      * simpl. apply IH, Hcsv.
      * assert (l = []) as ->.
        { unfold survivor in Hsv. destruct (merged_of _ _ _ _) as [[[? ?] [|? ?]]|];
            congruence. }
        rewrite (IH w' _ Hcsv). simpl. rewrite <- app_assoc. reflexivity.
    + rewrite app_nil_r.
      destruct (survivor ctx lig_of i w) as [|[[[i0 id] lig] rs] l] eqn:Hsv.
      * simpl. rewrite app_nil_r. exact Hcsv.
      * assert (l = []) as ->.
        { unfold survivor in Hsv. destruct (merged_of _ _ _ _) as [[[? ?] [|? ?]]|];
            congruence. }
        simpl. rewrite Hcsv. reflexivity.
Qed.

Lemma slice_survivors_indices (ctx : jobctx) (os : ostream) (lig_of : Z → ligand)
    (ligs : list Z) :
  ∀ w : worker, (λ s, s.1.1.1) <$> slice_survivors ctx os lig_of ligs w `sublist_of` ligs.
Proof.
  induction ligs as [|i ligs IH]; intros w; simpl; [reflexivity|].
  rewrite fmap_app.
  assert (Hrest : (λ s : Z * string * ligand * list result, s.1.1.1) <$>
                    match process_ligand ctx os lig_of i w with
                    | Ok w' => slice_survivors ctx os lig_of ligs w'
                    | Throw _ => []
                    end `sublist_of` ligs).
  { destruct (process_ligand ctx os lig_of i w); [apply IH | apply sublist_nil_l]. }
  unfold survivor. destruct (merged_of ctx lig_of i w) as [[[id lig] [|r rs]]|]; simpl.
  - apply sublist_cons, Hrest.
  - apply sublist_skip, Hrest.
  - apply sublist_cons, Hrest.
Qed.

Lemma slice_survivors_spec (ctx : jobctx) (os : ostream) (lig_of : Z → ligand)
    (ligs : list Z) :
  ∀ w : worker,
    Forall (λ s, ∃ d r rs,
              s.1.2 = lig_of s.1.1.1 ∧ s.2 = r :: rs ∧
              parse_descriptors lexical_cast_fl lexical_cast_size_t lexical_cast_int64
                (ligand_line s.1.1.1) = Some d ∧
              passes_filter (job_bounds_of ctx) d = true ∧
              zinc_id_of (ligand_line s.1.1.1) = Some s.1.1.2 ∧
              e_nd_assigned s.1.2 s.2
                = Some (PrimFloat.mul (f r) (flexibility_penalty_factor s.1.2)))
           (slice_survivors ctx os lig_of ligs w).
Proof.
  induction ligs as [|i ligs IH]; intros w; simpl; [constructor|].
  apply Forall_app. split.
  - apply Forall_forall. intros s Hs.
    destruct (survivor_spec ctx lig_of i w s Hs) as (d & id & r & rs & -> & Hd & Hf & Hid & He).
    exists d, r, rs. simpl. split_and!; try reflexivity; assumption.
  - destruct (process_ligand ctx os lig_of i w); [apply IH | constructor].
Qed.

Lemma run_slice_unfold (ctx : jobctx) (lig_of : Z → ligand) (w : worker) :
  run_slice ctx lig_of w
  = ligand_loop_run ctx csv_stream lig_of
      (Slices.ligand_loop (job_range ctx).1 (job_range ctx).2) (slice_start w).
Proof. reflexivity. Qed.

Lemma slice_start_csv (w : worker) : csv_file (slice_start w) = Some [Text nl].
Proof. reflexivity. Qed.

(** The state the loop starts in does not depend on what the csv file held. *)
Lemma slice_start_truncates (w : worker) (c : option (list piece)) :
  slice_start (MkWorker (grid_maps w) (eng_draws w) c (issued w))
  = slice_start (MkWorker (grid_maps w) (eng_draws w) None (issued w)).
Proof. unfold slice_start. rewrite !open_existing_csv_id. reflexivity. Qed.

(** C4 (amended): when a slice is done (or [main] is left in its midst) the
    csv file holds one newline and, after it, exactly one line for every
    surviving ligand of the slice, in the order of the ligands: the
    compound id, a comma, a number inserted under [fixed] notation with
    precision 3, and a newline.  A surviving ligand passed the filters and
    has a non-empty merged list, and line 409 assigns to its best result
    the product of that result's [f] and the ligand's flexibility penalty
    factor.  Nothing else is written. *)
Theorem C4_csv_lines (ctx : jobctx) (lig_of : Z → ligand) (w : worker) :
  let ligs := Slices.ligand_loop (job_range ctx).1 (job_range ctx).2 in
  let survivors := slice_survivors ctx csv_stream lig_of ligs (slice_start w) in
  ∃ lines : list (list piece),
    csv_file (state (run_slice ctx lig_of w)) = Some ([Text nl] ++ concat lines) ∧
    Forall2 (λ s line, ∃ v, line = [Text s.1.1.2; Text comma; Num true 3 v; Text nl])
            survivors lines ∧
    (λ s, s.1.1.1) <$> survivors `sublist_of` ligs ∧
    Forall (λ s, ∃ d r rs,
              s.1.2 = lig_of s.1.1.1 ∧ s.2 = r :: rs ∧
              parse_descriptors lexical_cast_fl lexical_cast_size_t lexical_cast_int64
                (ligand_line s.1.1.1) = Some d ∧
              passes_filter (job_bounds_of ctx) d = true ∧
              zinc_id_of (ligand_line s.1.1.1) = Some s.1.1.2 ∧
              e_nd_assigned s.1.2 s.2
                = Some (PrimFloat.mul (f r) (flexibility_penalty_factor s.1.2)))
           survivors.
Proof.
  intros ligs survivors.
  exists ((λ s, csv_line csv_stream s.1.1.2 None) <$> survivors). split_and!.
  - change (run_slice ctx lig_of w)
      with (ligand_loop_run ctx csv_stream lig_of ligs (slice_start w)).
    rewrite (ligand_loop_csv ctx csv_stream lig_of ligs (slice_start w) [Text nl]
               (slice_start_csv w)).
    fold survivors. do 2 f_equal.
    induction survivors as [|s l IH]; [reflexivity|].
    simpl. do 4 f_equal. exact IH.
  - induction survivors as [|s l IH]; simpl; constructor; [|exact IH].
    exists None. reflexivity.
  - apply slice_survivors_indices.
  - apply slice_survivors_spec.
Qed.

(** C10: when [log.csv] exists at the start of a job, the existence branch
    opens it for reading and extracts nothing (the state is unchanged), the
    output stream then truncates it, and the slice runs exactly as if the
    file had not existed: over all of [start_lig, end_lig), with a csv file
    that holds the newline and the lines of this run only. *)
Theorem C10_csv_truncated (ctx : jobctx) (lig_of : Z → ligand) (w : worker)
    (prev : list piece) :
  let with_csv c := MkWorker (grid_maps w) (eng_draws w) c (issued w) in
  let ligs := Slices.ligand_loop (job_range ctx).1 (job_range ctx).2 in
  open_existing_csv (with_csv (Some prev)) = with_csv (Some prev) ∧
  csv_file (ofstream_open (open_existing_csv (with_csv (Some prev)))) = Some [] ∧
  slice_start (with_csv (Some prev)) = slice_start (with_csv None) ∧
  run_slice ctx lig_of (with_csv (Some prev)) = run_slice ctx lig_of (with_csv None) ∧
  run_slice ctx lig_of (with_csv (Some prev))
    = ligand_loop_run ctx csv_stream lig_of ligs (slice_start (with_csv None)) ∧
  csv_file (state (run_slice ctx lig_of (with_csv (Some prev))))
    = Some ([Text nl] ++
            (slice_survivors ctx csv_stream lig_of ligs (slice_start (with_csv None))
               ≫= λ s, csv_line csv_stream s.1.1.2 None)) ∧
  (∀ i : Z, i ∈ ligs ↔ (job_range ctx).1 <= i < (job_range ctx).2).
Proof.
  intros with_csv ligs.
  assert (Hstart : slice_start (with_csv (Some prev)) = slice_start (with_csv None)).
  { apply (slice_start_truncates w (Some prev)). }
  split_and!.
  - apply open_existing_csv_id.
  - reflexivity.
  - exact Hstart.
  - rewrite !run_slice_unfold, Hstart. reflexivity.
  - rewrite run_slice_unfold, Hstart. reflexivity.
  - rewrite run_slice_unfold, Hstart. fold ligs.
    apply (ligand_loop_csv ctx csv_stream lig_of ligs _ [Text nl]). reflexivity.
  - intros i. apply Slices.ligand_loop_spec.
Qed.


(** *** Facts about the order of the commands *)

Lemma elem_of_tasks_run (prog : list command) (t : task) :
  t ∈ tasks_run prog ↔ ∃ k b, prog !! k = Some (Run b) ∧ t ∈ b.
Proof.
  unfold tasks_run. rewrite list_elem_of_bind. split.
  - intros (c & Ht & Hc). apply list_elem_of_lookup in Hc as [k Hk].
    destruct c as [b| | |]; try (inversion Ht; fail). exists k, b. split; assumption.
  - intros (k & b & Hk & Ht). exists (Run b). split; [exact Ht|].
    apply list_elem_of_lookup. exists k. exact Hk.
Qed.

Lemma is_mc_tag (t : task) : is_mc t = true → is_Some (tag t).
Proof. destruct t; simpl; intros H; try discriminate. eauto. Qed.

Lemma is_gm_tag (t : task) : is_gm t = true → is_Some (tag t).
Proof. destruct t; simpl; intros H; try discriminate. eauto. Qed.

Lemma gm_before_mc_app (A B : list command) :
  gm_before_mc A → gm_before_mc B →
  (∀ ta tb, ta ∈ tasks_run A → tb ∈ tasks_run B → is_Some (tag ta) → tag ta ≠ tag tb) →
  gm_before_mc (A ++ B).
Proof.
  intros HA HB Hdisj pm bm tm pg bg tg Hpm Htm Hmc Hpg Htg Hgm Htag.
  destruct (decide (pm < length A)%nat) as [Hm|Hm];
    destruct (decide (pg < length A)%nat) as [Hg|Hg].
  - rewrite lookup_app_l in Hpm, Hpg by assumption.
    destruct (HA pm bm tm pg bg tg) as (g & s & H1 & H2 & H3 & H4 & H5); try assumption.
    exists g, s. split_and!; try assumption; rewrite lookup_app_l by lia; assumption.
  - rewrite lookup_app_l in Hpm by assumption. rewrite lookup_app_r in Hpg by lia.
    exfalso. apply (Hdisj tm tg).
    + apply elem_of_tasks_run. eauto.
    + apply elem_of_tasks_run. eauto.
    + apply is_mc_tag, Hmc.
    + congruence.
  - rewrite lookup_app_r in Hpm by lia. rewrite lookup_app_l in Hpg by assumption.
    exfalso. apply (Hdisj tg tm).
    + apply elem_of_tasks_run. eauto.
    + apply elem_of_tasks_run. eauto.
    + apply is_gm_tag, Hgm.
    + congruence.
  - rewrite lookup_app_r in Hpm, Hpg by lia.
    destruct (HB _ bm tm _ bg tg Hpm Htm Hmc Hpg Htg Hgm Htag)
      as (g & s & H1 & H2 & H3 & H4 & H5).
    exists (length A + g)%nat, (length A + s)%nat.
    split_and!; try lia.
    + rewrite lookup_app_r by lia. rewrite <- H4. f_equal. lia.
    + rewrite lookup_app_r by lia. rewrite <- H5. f_equal. lia.
Qed.

Lemma well_formed_app (A B : list command) :
  well_formed A → well_formed B → well_formed (A ++ B).
Proof.
  intros HA HB k t Hk.
  destruct (decide (k < length A)%nat) as [Hlt|Hge].
  - rewrite lookup_app_l in Hk by assumption.
    destruct (HA k t Hk) as (j & b & Hj & Hjb & Ht).
    exists j, b. split_and!; try assumption. rewrite lookup_app_l by lia. assumption.
  - rewrite lookup_app_r in Hk by lia.
    destruct (HB _ t Hk) as (j & b & Hj & Hjb & Ht).
    exists (length A + j)%nat, b. split_and!; try assumption; [lia|].
    rewrite lookup_app_r by lia. rewrite <- Hjb. f_equal. lia.
Qed.

Lemma tagged_app (P : nat * Z → Prop) (A B : list command) :
  tagged P A → tagged P B → tagged P (A ++ B).
Proof.
  intros HA HB t Ht. rewrite tasks_run_app in Ht.
  apply elem_of_app in Ht as [Ht|Ht]; auto.
Qed.

Lemma tagged_weaken (P Q : nat * Z → Prop) (A : list command) :
  (∀ tg, P tg → Q tg) → tagged P A → tagged Q A.
Proof. intros HPQ HA t Ht. destruct (HA t Ht) as (tg & ? & ?). eauto. Qed.

Lemma tagged_nil (P : nat * Z → Prop) : tagged P [].
Proof. intros t Ht. inversion Ht. Qed.

Lemma gm_before_mc_nil : gm_before_mc [].
Proof. intros pm bm tm pg bg tg Hpm. rewrite lookup_nil in Hpm. discriminate. Qed.

Lemma well_formed_nil : well_formed (@nil command).
Proof. intros k t Hk. rewrite lookup_nil in Hk. discriminate. Qed.

Lemma batch_length (b : list task) : length (batch b) = (length b + 2)%nat.
Proof. unfold batch. rewrite !length_app, length_fmap. simpl. lia. Qed.

Lemma batch_lookup_run (b b' : list task) (k : nat) :
  batch b !! k = Some (Run b') → k = 0%nat ∧ b' = b.
Proof.
  unfold batch. destruct k as [|k]; simpl.
  - intros H. injection H as <-. split; reflexivity.
  - intros H. exfalso. destruct (decide (k < length b)%nat) as [Hlt|Hge].
    + rewrite lookup_app_l in H by (rewrite length_fmap; exact Hlt).
      rewrite list_lookup_fmap in H. destruct (b !! k); discriminate.
    + rewrite lookup_app_r in H by (rewrite length_fmap; lia).
      destruct (k - length (Get <$> b))%nat; simpl in H; [discriminate|].
      rewrite lookup_nil in H. discriminate.
Qed.

Lemma batch_lookup_get (b : list task) (k : nat) (t : task) :
  batch b !! k = Some (Get t) → (0 < k)%nat ∧ t ∈ b.
Proof.
  unfold batch. destruct k as [|k]; simpl; [discriminate|].
  intros H. split; [lia|]. destruct (decide (k < length b)%nat) as [Hlt|Hge].
  - rewrite lookup_app_l in H by (rewrite length_fmap; exact Hlt).
    rewrite list_lookup_fmap in H. destruct (b !! k) as [t'|] eqn:Hk; [|discriminate].
    injection H as <-. apply list_elem_of_lookup. eauto.
  - rewrite lookup_app_r in H by (rewrite length_fmap; lia).
    destruct (k - length (Get <$> b))%nat; simpl in H; [discriminate|].
    rewrite lookup_nil in H. discriminate.
Qed.

Lemma batch_get (b : list task) (t : task) :
  t ∈ b → ∃ g, (0 < g)%nat ∧ (g < length b + 1)%nat ∧ batch b !! g = Some (Get t).
Proof.
  intros Ht. apply list_elem_of_lookup in Ht as [x Hx].
  exists (S x). split_and!; [lia | apply lookup_lt_Some in Hx; lia |].
  unfold batch. simpl. rewrite lookup_app_l.
  - rewrite list_lookup_fmap, Hx. reflexivity.
  - rewrite length_fmap. eapply lookup_lt_Some; eauto.
Qed.

Lemma batch_sync (b : list task) : batch b !! (length b + 1)%nat = Some Sync.
Proof.
  unfold batch. replace (length b + 1)%nat with (S (length b)) by lia. simpl.
  rewrite lookup_app_r by (rewrite length_fmap; lia).
  rewrite length_fmap, Nat.sub_diag. reflexivity.
Qed.

Lemma batch_well_formed (b : list task) : well_formed (batch b).
Proof.
  intros k t Hk. apply batch_lookup_get in Hk as [Hk Ht].
  exists 0%nat, b. split_and!; [exact Hk | reflexivity | exact Ht].
Qed.

Lemma tasks_run_batch (b : list task) : tasks_run (batch b) = b.
Proof. apply tasks_run_block. Qed.

Lemma good_app (P Q : nat * Z → Prop) (A B : list command) :
  good P A → good Q B → (∀ a b, P a → Q b → a ≠ b) →
  good (λ tg, P tg ∨ Q tg) (A ++ B).
Proof.
  intros (HA1 & HA2 & HA3) (HB1 & HB2 & HB3) Hne. split_and!.
  - apply gm_before_mc_app; try assumption.
    intros ta tb Hta Htb _ Heq.
    destruct (HA3 ta Hta) as (a & Ha & HPa). destruct (HB3 tb Htb) as (b & Hb & HQb).
    apply (Hne a b HPa HQb). congruence.
  - apply well_formed_app; assumption.
  - apply tagged_app.
    + eapply tagged_weaken; [|exact HA3]. intros tg Htg. left. exact Htg.
    + eapply tagged_weaken; [|exact HB3]. intros tg Htg. right. exact Htg.
Qed.

Lemma good_weaken (P Q : nat * Z → Prop) (A : list command) :
  (∀ tg, P tg → Q tg) → good P A → good Q A.
Proof. intros HPQ (H1 & H2 & H3). split_and!; try assumption. eapply tagged_weaken; eauto. Qed.

Lemma good_nil (P : nat * Z → Prop) : good P [].
Proof. split_and!; [apply gm_before_mc_nil | apply well_formed_nil | apply tagged_nil]. Qed.

Lemma elem_of_gm_tasks (ctx : jobctx) (i : Z) (todo : list nat) (t : task) :
  t ∈ gm_tasks ctx i todo → ∃ x, t = GmTask (job_no ctx) i todo x.
Proof. unfold gm_tasks. rewrite list_elem_of_fmap. intros (x & -> & _). eauto. Qed.

Lemma elem_of_mc_tasks (ctx : jobctx) (i : Z) (w : worker) (t : task) :
  t ∈ mc_tasks ctx i w → ∃ k seed, t = McTask (job_no ctx) i k seed.
Proof. unfold mc_tasks. rewrite list_elem_of_fmap. intros (x & -> & _). eauto. Qed.

Lemma ligand_block_good (ctx : jobctx) (i : Z) (todo : list nat) (w : worker) :
  good (λ tg, tg = (job_no ctx, i)) (gm_block ctx i todo ++ mc_block ctx i w).
Proof.
  assert (Hmc : ∀ k b, mc_block ctx i w !! k = Some (Run b) →
                  k = 0%nat ∧ ∀ t, t ∈ b → is_gm t = false).
  { intros k b Hk. apply batch_lookup_run in Hk as [-> ->]. split; [reflexivity|].
    intros t Ht. apply elem_of_mc_tasks in Ht as (? & ? & ->). reflexivity. }
  split_and!.
  - unfold gm_block. destruct todo as [|a todo].
    + simpl. intros pm bm tm pg bg tg _ _ _ Hpg Htg Hgm _.
      apply Hmc in Hpg as [_ Hpg]. rewrite (Hpg tg Htg) in Hgm. discriminate.
    + set (gms := gm_tasks ctx i (a :: todo)).
      intros pm bm tm pg bg tg Hpm Htm Hmcm Hpg Htg Hgm _.
      destruct (decide (pm < length (batch gms))%nat) as [Hm|Hm].
      { rewrite lookup_app_l in Hpm by exact Hm.
        apply batch_lookup_run in Hpm as [_ ->].
        apply elem_of_gm_tasks in Htm as [x ->]. discriminate. }
      rewrite lookup_app_r in Hpm by lia. apply Hmc in Hpm as [Hpm0 _].
      destruct (decide (pg < length (batch gms))%nat) as [Hg|Hg].
      2:{ rewrite lookup_app_r in Hpg by lia. apply Hmc in Hpg as [_ Hpg].
          rewrite (Hpg tg Htg) in Hgm. discriminate. }
      rewrite lookup_app_l in Hpg by exact Hg.
      apply batch_lookup_run in Hpg as [-> ->].
      destruct (batch_get gms tg Htg) as (g & Hg0 & Hg1 & Hg2).
      rewrite batch_length in Hm, Hg.
      exists g, (length gms + 1)%nat. split_and!; try lia.
      * rewrite lookup_app_l by (rewrite batch_length; lia). exact Hg2.
      * rewrite lookup_app_l by (rewrite batch_length; lia). apply batch_sync.
  - apply well_formed_app; [|apply batch_well_formed].
    unfold gm_block. destruct todo; [apply well_formed_nil | apply batch_well_formed].
  - intros t Ht. rewrite tasks_run_app, tasks_run_gm_block in Ht.
    unfold mc_block in Ht. rewrite tasks_run_batch in Ht.
    apply elem_of_app in Ht as [Ht|Ht].
    + destruct todo; [inversion Ht|]. apply elem_of_gm_tasks in Ht as [x ->].
      eexists. split; reflexivity.
    + apply elem_of_mc_tasks in Ht as (k & seed & ->). eexists. split; reflexivity.
Qed.

(** What one ligand adds to the trace. *)
Lemma process_ligand_good (ctx : jobctx) (os : ostream) (lig_of : Z → ligand)
    (i : Z) (w : worker) :
  ∃ blk, issued (state (process_ligand ctx os lig_of i w)) = issued w ++ blk ∧
         good (λ tg, tg = (job_no ctx, i)) blk.
Proof.
  assert (Hnil : ∃ blk, issued w = issued w ++ blk ∧ good (λ tg, tg = (job_no ctx, i)) blk).
  { exists []. rewrite app_nil_r. split; [reflexivity | apply good_nil]. }
  unfold process_ligand.
  destruct (parse_descriptors _ _ _ _) as [d|]; [|exact Hnil].
  destruct (negb _); [exact Hnil|].
  destruct (zinc_id_of _) as [id|]; [|exact Hnil].
  destruct (schedule_grid_maps (job_probes ctx) (get_atom_types (lig_of i)) (grid_maps w) [])
    as [[gms todo]|] eqn:Hs.
  - destruct (dock_ligand_ok ctx os i id (lig_of i) w gms todo Hs) as (_ & Hi & _).
    eexists. split; [exact Hi|]. apply ligand_block_good.
  - rewrite dock_ligand_throw by exact Hs. exact Hnil.
Qed.

Lemma ligand_loop_good (ctx : jobctx) (os : ostream) (lig_of : Z → ligand) (ligs : list Z) :
  NoDup ligs →
  ∀ w : worker,
    ∃ blk, issued (state (ligand_loop_run ctx os lig_of ligs w)) = issued w ++ blk ∧
           good (λ tg, tg.1 = job_no ctx ∧ tg.2 ∈ ligs) blk.
Proof.
  induction 1 as [|i ligs Hi Hnd IH]; intros w; simpl.
  - exists []. rewrite app_nil_r. split; [reflexivity | apply good_nil].
  - destruct (process_ligand_good ctx os lig_of i w) as (blk1 & H1 & G1).
    destruct (process_ligand ctx os lig_of i w) as [w'|w']; simpl in *.
    + destruct (IH w') as (blk2 & H2 & G2).
      exists (blk1 ++ blk2). split; [rewrite H2, H1, app_assoc; reflexivity|].
      eapply good_weaken; [|apply (good_app _ _ _ _ G1 G2)].
      * intros tg [-> | [? ?]]; simpl; split; auto; set_solver.
      * intros a b -> [_ Hb] <-. simpl in Hb. contradiction.
    + exists blk1. split; [exact H1|].
      eapply good_weaken; [|exact G1]. intros tg ->. simpl. split; [reflexivity | set_solver].
Qed.

Lemma NoDup_ligand_loop (a b : Z) : NoDup (Slices.ligand_loop a b).
Proof.
  unfold Slices.ligand_loop. apply NoDup_fmap_2; [|apply NoDup_seq].
  intros x y Hxy. lia.
Qed.

Lemma read_job_no (jn : nat) (p : doc) (ctx : jobctx) :
  read_job jn p = Some ctx → job_no ctx = jn.
Proof.
  unfold read_job. intros H.
  repeat match type of H with
         | (?x ≫= _) = Some _ => destruct x; cbn [mbind option_bind] in H; [|discriminate]
         end.
  injection H as <-. reflexivity.
Qed.

Lemma run_job_good (lig_of : Z → ligand) (jn : nat) (p : doc) (w : worker) :
  ∃ blk, issued (state (run_job lig_of jn p w)) = issued w ++ blk ∧
         good (λ tg, tg.1 = jn) blk.
Proof.
  assert (Hact : good (λ _ : nat * Z, False) [Act (Fetch jn)]).
  { split_and!.
    - intros pm bm tm pg bg tg Hpm. destruct pm; simpl in Hpm; [discriminate|].
      rewrite lookup_nil in Hpm. discriminate.
    - intros k t Hk. destruct k; simpl in Hk; [discriminate|].
      rewrite lookup_nil in Hk. discriminate.
    - intros t Ht. inversion Ht. }
  unfold run_job. destruct (read_job jn p) as [ctx|] eqn:Hctx.
  - rewrite run_slice_unfold.
    destruct (ligand_loop_good ctx csv_stream lig_of _
                (NoDup_ligand_loop (job_range ctx).1 (job_range ctx).2)
                (slice_start (issue [Act (Fetch jn)] w))) as (blk & Hblk & G).
    exists ([Act (Fetch jn)] ++ blk). split.
    + rewrite Hblk. unfold slice_start. rewrite open_existing_csv_id. simpl.
      rewrite <- app_assoc. reflexivity.
    + eapply good_weaken; [|apply (good_app _ _ _ _ Hact G)].
      * intros tg [[] | [Hj _]]. rewrite Hj. apply (read_job_no _ _ _ Hctx).
      * intros a b [].
  - exists [Act (Fetch jn)]. split; [reflexivity|].
    eapply good_weaken; [|exact Hact]. intros tg [].
Qed.

Lemma job_loop_good (lig_of : Z → ligand) (jobs : list doc) :
  ∀ (jn : nat) (w : worker),
    ∃ blk, issued (state (job_loop lig_of jn jobs w)) = issued w ++ blk ∧
           good (λ tg, (jn ≤ tg.1)%nat) blk.
Proof.
  induction jobs as [|p jobs IH]; intros jn w; simpl.
  - exists []. rewrite app_nil_r. split; [reflexivity | apply good_nil].
  - destruct (run_job_good lig_of jn p w) as (blk1 & H1 & G1).
    destruct (run_job lig_of jn p w) as [w'|w']; simpl in *.
    + destruct (IH (S jn) w') as (blk2 & H2 & G2).
      exists (blk1 ++ blk2). split; [rewrite H2, H1, app_assoc; reflexivity|].
      eapply good_weaken; [|apply (good_app _ _ _ _ G1 G2)].
      * intros tg [-> | ?]; simpl in *; lia.
      * intros a b Ha Hb <-. simpl in *. lia.
    + exists blk1. split; [exact H1|].
      eapply good_weaken; [|exact G1]. intros tg ->. simpl. lia.
Qed.

Lemma elem_of_sf_tasks (t : task) :
  t ∈ sf_tasks ↔ ∃ t1 t2, t = SfTask t1 t2 ∧ (t1 ≤ t2)%nat ∧ (t2 < XS_TYPE_SIZE)%nat.
Proof.
  unfold sf_tasks. rewrite list_elem_of_bind. split.
  - intros (t1 & Ht & Ht1). apply list_elem_of_fmap in Ht as (t2 & -> & Ht2).
    apply list_elem_of_In, in_seq in Ht1. apply list_elem_of_In, in_seq in Ht2.
    exists t1, t2. split_and!; [reflexivity | lia | lia].
  - intros (t1 & t2 & -> & H1 & H2). exists t1. split.
    + apply list_elem_of_fmap. exists t2. split; [reflexivity|].
      apply list_elem_of_In, in_seq. lia.
    + apply list_elem_of_In, in_seq. lia.
Qed.

(** The whole trace of [main]: the scoring-function batch and the sync,
    then the commands of the jobs. *)
Lemma main_trace (lig_of : Z → ligand) (fs : option (list piece)) (jobs : list doc) :
  ∃ rest,
    issued (state (main_with lig_of fs jobs)) = [Run sf_tasks; Sync] ++ rest ∧
    good (λ _, True) rest ∧
    gm_before_mc ([Run sf_tasks; Sync] ++ rest) ∧
    well_formed ([Run sf_tasks; Sync] ++ rest).
Proof.
  unfold main_with.
  destruct (job_loop_good lig_of jobs 0 (startup (main_init fs))) as (rest & Hrest & G).
  exists rest. split; [exact Hrest|].
  assert (G' : good (λ _, True) rest) by (eapply good_weaken; [|exact G]; auto).
  split; [exact G'|].
  assert (Hsf : ∀ k b, [Run sf_tasks; @Sync task action] !! k = Some (Run b) →
                  ∀ t, t ∈ b → tag t = None ∧ is_mc t = false).
  { intros k b Hk t Ht.
    assert (b = sf_tasks) as ->.
    { destruct k as [|[|k]]; simpl in Hk; try discriminate;
        try (rewrite lookup_nil in Hk; discriminate).
      injection Hk as <-. reflexivity. }
    apply elem_of_sf_tasks in Ht as (t1 & t2 & -> & _). split; reflexivity. }
  destruct G' as (G1 & G2 & G3). split.
  - apply gm_before_mc_app; [|exact G1|].
    + intros pm bm tm pg bg tg Hpm Htm Hmc.
      destruct (Hsf pm bm Hpm tm Htm) as [_ Hn]. congruence.
    + intros ta tb Hta _ Hsome. apply elem_of_tasks_run in Hta as (k & b & Hk & Hb).
      destruct (Hsf k b Hk ta Hb) as [Hn _]. rewrite Hn in Hsome.
      destruct Hsome as [? ?]. discriminate.
  - apply well_formed_app; [|exact G2].
    intros k t Hk. exfalso.
    destruct k as [|[|k]]; simpl in Hk; try discriminate;
      try (rewrite lookup_nil in Hk; discriminate).
Qed.

(** *** Facts about the scoring-function tasks *)

Lemma sf_tasks_length_aux (n : nat) :
  ∀ m a : nat, (a + m = n)%nat →
    (2 * length (seq a m ≫= (λ t1, SfTask t1 <$> seq t1 (n - t1))) = m * (m + 1))%nat.
Proof.
  induction m as [|m IH]; intros a Ha; [reflexivity|].
  cbn [seq]. rewrite bind_cons, length_app, length_fmap, length_seq.
  specialize (IH (S a) ltac:(lia)). nia.
Qed.

Lemma sf_tasks_length : (2 * length sf_tasks = XS_TYPE_SIZE * (XS_TYPE_SIZE + 1))%nat.
Proof. apply (sf_tasks_length_aux XS_TYPE_SIZE XS_TYPE_SIZE 0). reflexivity. Qed.

Lemma num_sf_tasks_eq : length sf_tasks = num_sf_tasks.
Proof.
  unfold num_sf_tasks. rewrite Z.shiftr_div_pow2 by lia.
  pose proof sf_tasks_length as H.
  replace ((XS_TYPE_SIZE + 1) * XS_TYPE_SIZE)%nat with (2 * length sf_tasks)%nat by lia.
  rewrite Nat2Z.inj_mul. change (2 ^ 1) with 2. change (Z.of_nat 2) with 2.
  rewrite Z.mul_comm, Z.div_mul by lia. rewrite Nat2Z.id. reflexivity.
Qed.

Lemma sf_tasks_NoDup : NoDup sf_tasks.
Proof.
  unfold sf_tasks. apply NoDup_bind.
  - intros x1 x2 y _ _ H1 H2.
    apply list_elem_of_fmap in H1 as (? & -> & _).
    apply list_elem_of_fmap in H2 as (? & Heq & _). congruence.
  - intros x _. apply NoDup_fmap_2; [|apply NoDup_seq]. intros a b Hab. congruence.
  - apply NoDup_seq.
Qed.

Lemma tagged_not_sf (P : nat * Z → Prop) (prog : list command) (t : task) :
  tagged P prog → t ∈ tasks_run prog → is_sf t = false.
Proof.
  intros Hp Ht. destruct (Hp t Ht) as (tg & Htg & _). destruct t; simpl in *; congruence.
Qed.

Lemma filter_sf_none (l : list task) :
  (∀ t, t ∈ l → is_sf t = false) → filter (λ t, is_sf t) l = [].
Proof.
  induction l as [|t l IH]; intros H; [reflexivity|].
  rewrite filter_cons_False.
  - apply IH. intros t' Ht'. apply H. set_solver.
  - rewrite (H t) by set_solver. auto.
Qed.

Lemma filter_sf_all (l : list task) :
  (∀ t, t ∈ l → is_sf t = true) → filter (λ t, is_sf t) l = l.
Proof.
  induction l as [|t l IH]; intros H; [reflexivity|].
  rewrite filter_cons_True.
  - rewrite IH; [reflexivity|]. intros t' Ht'. apply H. set_solver.
  - rewrite (H t) by set_solver. exact I.
Qed.

Lemma tasks_run_take (prog : list command) (n : nat) (t : task) :
  t ∈ tasks_run (take n prog) → t ∈ tasks_run prog.
Proof.
  rewrite <- (take_drop n prog) at 2. rewrite tasks_run_app, elem_of_app. auto.
Qed.

(** C8: in every state the worker and its pool can reach, once a Monte
    Carlo task of a ligand has been handed to the pool, every grid-map task
    dispatched for that ligand has finished: its batch was dispatched, the
    future of each of its tasks was gotten, and the pool was synced, all
    before the batch of the Monte Carlo task was dispatched. *)
Theorem C8_grid_maps_before_monte_carlo (lig_of : Z → ligand) (fs : option (list piece))
    (jobs : list doc) (num_threads : nat) (c : config task) (tm tg : task) :
  let prog := issued (state (main_with lig_of fs jobs)) in
  reachable num_threads prog c →
  is_mc tm = true → is_gm tg = true → tag tg = tag tm →
  dispatched c tm → tg ∈ tasks_run prog →
  tg ∈ finished (pl c) ∧
  ∃ pg bg g s pm bm,
    prog !! pg = Some (Run bg) ∧ tg ∈ bg ∧
    prog !! g = Some (Get tg) ∧ prog !! s = Some Sync ∧
    prog !! pm = Some (Run bm) ∧ tm ∈ bm ∧
    (pg < g)%nat ∧ (g < s)%nat ∧ (s < pm)%nat ∧ (pm < pc c)%nat ∧
    ∀ t, t ∈ bg → t ∈ finished (pl c).
Proof.
  intros prog Hreach Hmc Hgm Htag Hdis Htg.
  pose proof (reachable_inv num_threads prog c Hreach) as [_ Hget Hsync Hdisp _].
  destruct (Hdisp tm Hdis) as (pm & bm & Hpm & Hbm & Htm).
  apply elem_of_tasks_run in Htg as (pg & bg & Hbg & Htg).
  destruct (main_trace lig_of fs jobs) as (rest & Hprog & _ & Hord & _).
  fold prog in Hprog. rewrite <- Hprog in Hord.
  destruct (Hord pm bm tm pg bg tg Hbm Htm Hmc Hbg Htg Hgm Htag)
    as (g & s & H1 & H2 & H3 & H4 & H5).
  split.
  - apply (Hget g); [lia | exact H4].
  - exists pg, bg, g, s, pm, bm. split_and!; try assumption.
    intros t Ht. apply (Hsync s pg bg); [lia | exact H5 | lia | exact Hbg | exact Ht].
Qed.

(** C9: the startup creates one [precalculate] task for every pair
    [t1 <= t2 < XS_TYPE_SIZE] and no other, [XS_TYPE_SIZE (XS_TYPE_SIZE + 1) / 2]
    in all; they are the first batch of the trace and no later batch holds
    such a task; and in every state the worker can reach after the sync
    that follows, hence whenever a job has been fetched, each of them has
    finished, exactly once. *)
Theorem C9_scoring_function_tasks (lig_of : Z → ligand) (fs : option (list piece))
    (jobs : list doc) (num_threads : nat) (c : config task) :
  let prog := issued (state (main_with lig_of fs jobs)) in
  reachable num_threads prog c → (2 ≤ pc c)%nat →
  length sf_tasks = num_sf_tasks ∧
  (2 * num_sf_tasks = XS_TYPE_SIZE * (XS_TYPE_SIZE + 1))%nat ∧
  NoDup sf_tasks ∧
  (∀ t, t ∈ sf_tasks ↔
        ∃ t1 t2, t = SfTask t1 t2 ∧ (t1 ≤ t2)%nat ∧ (t2 < XS_TYPE_SIZE)%nat) ∧
  prog !! 0%nat = Some (Run sf_tasks) ∧ prog !! 1%nat = Some Sync ∧
  (∀ k b t, prog !! k = Some (Run b) → t ∈ b → is_sf t = true → k = 0%nat) ∧
  (∀ k j, prog !! k = Some (Act (Fetch j)) → (2 ≤ k)%nat) ∧
  (∀ t, t ∈ sf_tasks → t ∈ finished (pl c)) ∧
  filter (λ t, is_sf t) (finished (pl c)) ≡ₚ sf_tasks.
Proof.
  intros prog Hreach Hpc.
  pose proof (reachable_inv num_threads prog c Hreach) as [_ _ Hsync _ _].
  pose proof (reachable_perm num_threads prog c Hreach) as Hperm.
  destruct (main_trace lig_of fs jobs) as (rest & Hprog & (_ & _ & Htagged) & _ & _).
  fold prog in Hprog.
  assert (H0 : prog !! 0%nat = Some (Run sf_tasks)) by (rewrite Hprog; reflexivity).
  assert (H1 : prog !! 1%nat = Some Sync) by (rewrite Hprog; reflexivity).
  assert (Hfin : ∀ t, t ∈ sf_tasks → t ∈ finished (pl c)).
  { intros t Ht. apply (Hsync 1%nat 0%nat sf_tasks); [lia | exact H1 | lia | exact H0 | exact Ht]. }
  assert (Hsf : ∀ t, t ∈ sf_tasks → is_sf t = true).
  { intros t Ht. apply elem_of_sf_tasks in Ht as (? & ? & -> & _). reflexivity. }
  split_and!.
  - apply num_sf_tasks_eq.
  - rewrite <- num_sf_tasks_eq. apply sf_tasks_length.
  - apply sf_tasks_NoDup.
  - apply elem_of_sf_tasks.
  - exact H0.
  - exact H1.
  - intros k b t Hk Ht Hs. destruct k as [|[|k]]; [reflexivity | congruence |]. exfalso.
    rewrite Hprog in Hk. simpl in Hk.
    assert (Hin : t ∈ tasks_run rest) by (apply elem_of_tasks_run; eauto).
    rewrite (tagged_not_sf _ _ _ Htagged Hin) in Hs. discriminate.
  - intros k j Hk. destruct k as [|[|k]]; [congruence | congruence | lia].
  - exact Hfin.
  - assert (Htake : tasks_of (take (pc c) prog)
                    = sf_tasks ++ tasks_run (take (pc c - 2) rest)).
    { rewrite Hprog. destruct (pc c) as [|[|n]]; try lia. simpl.
      rewrite Nat.sub_0_r. reflexivity. }
    rewrite Htake in Hperm.
    apply (filter_Permutation (λ t, is_sf t)) in Hperm.
    rewrite !filter_app in Hperm.
    rewrite (filter_sf_all sf_tasks Hsf) in Hperm.
    rewrite (filter_sf_none (tasks_run (take (pc c - 2) rest))), app_nil_r in Hperm.
    2:{ intros t Ht. apply (tagged_not_sf _ _ _ Htagged). eapply tasks_run_take, Ht. }
    assert (Hnd : NoDup (filter (λ t, is_sf t) (queue (pl c)) ++
                         filter (λ t, is_sf t) (running (pl c)) ++
                         filter (λ t, is_sf t) (finished (pl c)))).
    { rewrite Hperm. apply sf_tasks_NoDup. }
    assert (Hinf : ∀ (t : task) (l : list task),
                     t ∈ filter (λ t, is_sf t) l → t ∈ sf_tasks →
                     t ∈ filter (λ t, is_sf t) (finished (pl c))).
    { intros t l Ht Hs. apply list_elem_of_filter. split; [|apply Hfin, Hs].
      rewrite (Hsf t Hs). exact I. }
    apply NoDup_app in Hnd as (_ & Hq & Hnd). apply NoDup_app in Hnd as (_ & Hr & _).
    assert (Hq0 : filter (λ t, is_sf t) (queue (pl c)) = []).
    { destruct (filter (λ t, is_sf t) (queue (pl c))) as [|t l] eqn:E; [reflexivity|].
      exfalso. apply (Hq t); [set_solver|]. apply elem_of_app. right.
      apply (Hinf t (queue (pl c))); [rewrite E; set_solver|].
      rewrite <- Hperm. set_solver. }
    assert (Hr0 : filter (λ t, is_sf t) (running (pl c)) = []).
    { destruct (filter (λ t, is_sf t) (running (pl c))) as [|t l] eqn:E; [reflexivity|].
      exfalso. apply (Hr t); [set_solver|].
      apply (Hinf t (running (pl c))); [rewrite E; set_solver|].
      rewrite <- Hperm, Hq0. set_solver. }
    rewrite Hq0, Hr0 in Hperm. exact Hperm.
Qed.

(** *** Further facts: the grid maps across jobs, and progress *)

(** The grid maps are declared before the job loop and never reset: a map
    initialized while one job runs is the same map after any number of
    further jobs, whatever their receptor and box. *)
Theorem grid_maps_outlive_jobs (lig_of : Z → ligand) (jobs : list doc) (jn : nat)
    (w : worker) (t : nat) (g : list (list (list float))) :
  grid_maps w !! t = Some (Some g) →
  grid_maps (state (job_loop lig_of jn jobs w)) !! t = Some (Some g) ∧
  ∀ (p : doc) (w' : worker), run_job lig_of jn p w = Ok w' →
    grid_maps w' !! t = Some (Some g).
Proof.
  intros Hg. split; [apply job_loop_preserves, Hg|].
  intros p w' Hrun. pose proof (run_job_preserves lig_of jn p w t g Hg) as H.
  rewrite Hrun in H. exact H.
Qed.

(** Whatever the library and the jobs, the worker is never stuck: with at
    least one worker thread there is an execution in which main reaches
    the end of its trace and every task it dispatched has finished. *)
Lemma main_can_complete (lig_of : Z → ligand) (fs : option (list piece)) (jobs : list doc)
    (num_threads : nat) :
  let prog := issued (state (main_with lig_of fs jobs)) in
  (0 < num_threads)%nat →
  ∃ p : pool task,
    reachable num_threads prog (Config (length prog) false p) ∧
    ∀ t, t ∈ tasks_run prog → t ∈ finished p.
Proof.
  intros prog Hth.
  destruct (main_trace lig_of fs jobs) as (rest & Hprog & _ & _ & Hwf).
  fold prog in Hprog. rewrite <- Hprog in Hwf.
  destruct (run_to_completion num_threads prog (length prog) Hth Hwf (le_n _))
    as (p & Hreach & _ & _ & _ & Hfin).
  exists p. split; [exact Hreach|].
  intros t Ht. apply elem_of_tasks_run in Ht as (k & b & Hk & Ht).
  apply (Hfin k b); [eapply lookup_lt_Some; eauto | exact Hk | exact Ht].
Qed.

(** *** Facts for running the worker on a given library *)

Lemma bind_Ok (r : run) : bind r Ok = r.
Proof. destruct r; reflexivity. Qed.

(** Ligands that fail a filter are passed over: the loop leaves the state
    as it is and no ligand survives. *)
Lemma ligand_loop_filtered (ctx : jobctx) (os : ostream) (lig_of : Z → ligand)
    (ligs : list Z) (w : worker) :
  (∀ i, i ∈ ligs →
     ∃ d, parse_descriptors lexical_cast_fl lexical_cast_size_t lexical_cast_int64
            (ligand_line i) = Some d ∧
          passes_filter (job_bounds_of ctx) d = false) →
  ligand_loop_run ctx os lig_of ligs w = Ok w ∧
  slice_survivors ctx os lig_of ligs w = [].
Proof.
  induction ligs as [|i ligs IH]; intros H; [split; reflexivity|].
  destruct (H i (list_elem_of_here _ _)) as (d & Hd & Hf).
  destruct IH as [IH1 IH2]; [intros j Hj; apply H, list_elem_of_further, Hj|].
  cbn [ligand_loop_run slice_survivors].
  rewrite (process_ligand_filtered ctx os lig_of i w d Hd Hf).
  cbn [bind]. rewrite IH1, IH2, app_nil_r. split; [reflexivity|].
  unfold survivor, merged_of. rewrite Hd. cbn [mbind option_bind]. rewrite Hf. reflexivity.
Qed.

(** The loop when the first ligand is processed and the others fail a
    filter. *)
Lemma ligand_loop_first (ctx : jobctx) (os : ostream) (lig_of : Z → ligand)
    (i : Z) (ligs : list Z) (w w' : worker) :
  process_ligand ctx os lig_of i w = Ok w' →
  (∀ j, j ∈ ligs →
     ∃ d, parse_descriptors lexical_cast_fl lexical_cast_size_t lexical_cast_int64
            (ligand_line j) = Some d ∧
          passes_filter (job_bounds_of ctx) d = false) →
  ligand_loop_run ctx os lig_of (i :: ligs) w = Ok w'.
Proof.
  intros Hi Hrest. cbn [ligand_loop_run]. rewrite Hi. cbn [bind].
  apply (ligand_loop_filtered ctx os lig_of ligs w' Hrest).
Qed.

Lemma main_single_job (lig_of : Z → ligand) (fs : option (list piece)) (p : doc)
    (ctx : jobctx) :
  read_job 0 p = Some ctx →
  main_with lig_of fs [p]
  = ligand_loop_run ctx csv_stream lig_of
      (Slices.ligand_loop (job_range ctx).1 (job_range ctx).2)
      (slice_start (issue [Act (Fetch 0)] (startup (main_init fs)))).
Proof.
  intros Hctx. unfold main_with. cbn [job_loop]. rewrite bind_Ok.
  unfold run_job. rewrite Hctx. apply run_slice_unfold.
Qed.

(** *** Further facts: the seeds and the grid maps made *)

(** The seed a Monte Carlo task is bound to. *)
Definition seed_of (t : task) : list Z :=
  match t with
  | McTask _ _ _ seed => [seed]
  | _ => []
  end.

(** The seeds of the Monte Carlo tasks a command list dispatches, in the
    order of dispatch. *)
Definition mc_seeds (cs : list command) : list Z := tasks_run cs ≫= seed_of.

(** The atom types a grid-map batch populates, read off its task for
    slab 0, and the types populated by the batches of a command list. *)
Definition populated_by (t : task) : list nat :=
  match t with
  | GmTask _ _ types O => types
  | _ => []
  end.

Definition gm_types (cs : list command) : list nat := tasks_run cs ≫= populated_by.

(** What a part of [main] that starts in [w] and ends as [r] has done: the
    commands it added, the values of [eng()] it took, and the maps it made. *)
Definition advances (w : worker) (r : run) : Prop :=
  ∃ (blk : list command) (n : nat),
    issued (state r) = issued w ++ blk ∧
    mc_seeds blk = eng <$> seq (eng_draws w) n ∧
    eng_draws (state r) = (eng_draws w + n)%nat ∧
    length (grid_maps (state r)) = length (grid_maps w) ∧
    (∀ t g, grid_maps w !! t = Some (Some g) → grid_maps (state r) !! t = Some (Some g)) ∧
    NoDup (gm_types blk) ∧
    (∀ t, t ∈ gm_types blk →
       grid_maps w !! t = Some None ∧ ∃ g, grid_maps (state r) !! t = Some (Some g)).

Lemma bind_nil_all {A B : Type} (f : A → list B) (l : list A) :
  (∀ x, x ∈ l → f x = []) → l ≫= f = [].
Proof.
  induction l as [|x l IH]; intros H; [reflexivity|].
  rewrite bind_cons, (H x) by apply list_elem_of_here.
  apply IH. intros y Hy. apply H, list_elem_of_further, Hy.
Qed.

Lemma mc_seeds_app (cs1 cs2 : list command) :
  mc_seeds (cs1 ++ cs2) = mc_seeds cs1 ++ mc_seeds cs2.
Proof. unfold mc_seeds. rewrite tasks_run_app. apply bind_app. Qed.

Lemma gm_types_app (cs1 cs2 : list command) :
  gm_types (cs1 ++ cs2) = gm_types cs1 ++ gm_types cs2.
Proof. unfold gm_types. rewrite tasks_run_app. apply bind_app. Qed.

Lemma mc_seeds_mc_block (ctx : jobctx) (i : Z) (w : worker) :
  mc_seeds (mc_block ctx i w) = eng <$> seq (eng_draws w) num_mc_tasks.
Proof.
  unfold mc_seeds. rewrite tasks_run_mc_block. unfold mc_tasks.
  replace (seq (eng_draws w) num_mc_tasks)
    with (Nat.add (eng_draws w) <$> seq 0 num_mc_tasks)
    by (rewrite fmap_add_seq, Nat.add_0_r; reflexivity).
  rewrite <- list_fmap_compose.
  induction (seq 0 num_mc_tasks) as [|k ks IH]; [reflexivity|].
  rewrite !fmap_cons, bind_cons, IH. reflexivity.
Qed.

Lemma gm_types_mc_block (ctx : jobctx) (i : Z) (w : worker) :
  gm_types (mc_block ctx i w) = [].
Proof.
  unfold gm_types. rewrite tasks_run_mc_block. apply bind_nil_all.
  intros t Ht. apply elem_of_mc_tasks in Ht as (k & seed & ->). reflexivity.
Qed.

Lemma mc_seeds_gm_block (ctx : jobctx) (i : Z) (todo : list nat) :
  mc_seeds (gm_block ctx i todo) = [].
Proof.
  unfold mc_seeds. rewrite tasks_run_gm_block. destruct todo as [|a todo]; [reflexivity|].
  apply bind_nil_all. intros t Ht. apply elem_of_gm_tasks in Ht as (x & ->). reflexivity.
Qed.

Lemma gm_types_gm_block (ctx : jobctx) (i : Z) (todo : list nat) :
  gm_types (gm_block ctx i todo)
  = match (job_probes ctx).1.1 with O => [] | S _ => todo end.
Proof.
  unfold gm_types. rewrite tasks_run_gm_block. destruct todo as [|a todo].
  - destruct (job_probes ctx).1.1; reflexivity.
  - unfold gm_tasks. destruct (job_probes ctx).1.1 as [|n]; [reflexivity|].
    cbn [seq]. rewrite fmap_cons, bind_cons. cbn [populated_by].
    rewrite bind_nil_all; [apply app_nil_r|].
    intros t Ht. apply list_elem_of_fmap in Ht as (x & -> & Hx).
    apply list_elem_of_In, in_seq in Hx. destruct x; [lia | reflexivity].
Qed.

Lemma grid_map_task_length (p : doc) (types : list nat) (x : nat) :
  ∀ gms : list array3d, length (grid_map_task p gms types x) = length gms.
Proof.
  unfold grid_map_task. induction types as [|t types IH]; intros gms; [reflexivity|].
  cbn [foldl]. rewrite IH. apply length_alter.
Qed.

Lemma populate_length (ctx : jobctx) (i : Z) (todo : list nat) (w : worker) :
  length (grid_maps (populate ctx i todo w)) = length (grid_maps w).
Proof.
  unfold populate. destruct todo as [|a todo]; [reflexivity|].
  cbn [grid_maps issue]. generalize (grid_maps w).
  induction (seq 0 (job_probes ctx).1.1) as [|x xs IH]; intros gms; [reflexivity|].
  cbn [foldl]. rewrite IH. apply grid_map_task_length.
Qed.

(** The maps a ligand schedules are initialized when it is done. *)
Lemma dock_ligand_initializes (ctx : jobctx) (os : ostream) (i : Z) (id : string)
    (lig : ligand) (w : worker) (gms : list array3d) (todo : list nat) (t : nat) :
  schedule_grid_maps (job_probes ctx) (get_atom_types lig) (grid_maps w) [] = Some (gms, todo) →
  t ∈ todo →
  grid_maps w !! t = Some None ∧
  ∃ g, grid_maps (state (dock_ligand ctx os i id lig w)) !! t = Some (Some g).
Proof.
  intros Hs Ht.
  destruct (schedule_spec _ _ _ _ _ _ Hs) as (new & Hnew & _ & _ & Hin & _ & Hres).
  simpl in Hnew. subst new. split; [apply Hin, Ht|].
  destruct (dock_ligand_ok ctx os i id lig w gms todo Hs) as (-> & _). simpl.
  destruct (emit_fields os id lig
              (merged_results ctx lig (populate ctx i todo
                 (MkWorker gms (eng_draws w) (csv_file w) (issued w))))
              (monte_carlo ctx i (populate ctx i todo
                 (MkWorker gms (eng_draws w) (csv_file w) (issued w))))) as (-> & _).
  unfold monte_carlo. cbn [grid_maps issue].
  pose proof (populate_initialized ctx i todo
                (MkWorker gms (eng_draws w) (csv_file w) (issued w)) t) as Hinit.
  cbn [grid_maps] in Hinit. rewrite (Hres t Ht) in Hinit.
  destruct (grid_maps (populate ctx i todo _) !! t) as [[g|]|]; try discriminate.
  exists g. reflexivity.
Qed.

Lemma advances_refl (w : worker) : advances w (Ok w) ∧ advances w (Throw w).
Proof.
  split; exists [], 0%nat; simpl; rewrite app_nil_r, Nat.add_0_r;
    (split_and!; [reflexivity | reflexivity | reflexivity | reflexivity | auto | constructor |]);
    intros t Ht; inversion Ht.
Qed.

Lemma advances_issue (w : worker) (a : action) (r : run) :
  advances (issue [Act a] w) r → advances w r.
Proof.
  intros (blk & n & H1 & H2 & H3 & H4 & H5 & H6 & H7).
  exists ([Act a] ++ blk), n. simpl in *.
  split_and!; try assumption. rewrite H1, <- app_assoc. reflexivity.
Qed.

Lemma advances_bind (w : worker) (r : run) (k : worker → run) :
  advances w r → (∀ w1, r = Ok w1 → advances w1 (k w1)) → advances w (bind r k).
Proof.
  intros Hr Hk. destruct r as [w1|w1]; [|exact Hr]. simpl.
  destruct Hr as (blk1 & n1 & A1 & A2 & A3 & A4 & A5 & A6 & A7).
  destruct (Hk w1 eq_refl) as (blk2 & n2 & B1 & B2 & B3 & B4 & B5 & B6 & B7).
  simpl in *. exists (blk1 ++ blk2), (n1 + n2)%nat. split_and!.
  - rewrite B1, A1, app_assoc. reflexivity.
  - rewrite mc_seeds_app, A2, B2, A3, seq_app, fmap_app. reflexivity.
  - lia.
  - congruence.
  - intros t g Hg. apply B5, A5, Hg.
  - rewrite gm_types_app. apply NoDup_app. split_and!; [exact A6 | | exact B6].
    intros t Ht1 Ht2. destruct (A7 t Ht1) as [_ [g Hg]]. destruct (B7 t Ht2) as [Hn _].
    congruence.
  - intros t Ht. rewrite gm_types_app in Ht. apply elem_of_app in Ht as [Ht|Ht].
    + destruct (A7 t Ht) as [Hn [g Hg]]. split; [exact Hn|]. exists g. apply B5, Hg.
    + destruct (B7 t Ht) as [Hn Hg]. split; [|exact Hg].
      destruct (grid_maps w !! t) as [[g|]|] eqn:Hw.
      * rewrite (A5 t g Hw) in Hn. discriminate.
      * reflexivity.
      * apply lookup_ge_None in Hw. apply lookup_lt_Some in Hn. lia.
Qed.

Lemma process_ligand_advances (ctx : jobctx) (os : ostream) (lig_of : Z → ligand)
    (i : Z) (w : worker) :
  advances w (process_ligand ctx os lig_of i w).
Proof.
  unfold process_ligand.
  destruct (parse_descriptors _ _ _ _) as [d|]; [|apply advances_refl].
  destruct (negb _); [apply advances_refl|].
  destruct (zinc_id_of _) as [id|]; [|apply advances_refl].
  destruct (schedule_grid_maps (job_probes ctx) (get_atom_types (lig_of i)) (grid_maps w) [])
    as [[gms todo]|] eqn:Hs.
  2:{ rewrite dock_ligand_throw by exact Hs. apply advances_refl. }
  destruct (dock_ligand_ok ctx os i id (lig_of i) w gms todo Hs) as (Hok & Hi & Hd & _).
  destruct (schedule_spec _ _ _ _ _ _ Hs) as (new & Hnew & Hlen & Hnd & Hin & _).
  simpl in Hnew. subst new.
  set (w1 := populate ctx i todo (MkWorker gms (eng_draws w) (csv_file w) (issued w))) in *.
  exists (gm_block ctx i todo ++ mc_block ctx i w1), num_mc_tasks. split_and!.
  - exact Hi.
  - rewrite mc_seeds_app, mc_seeds_gm_block, mc_seeds_mc_block, Hd. reflexivity.
  - rewrite Hok. simpl.
    destruct (emit_fields os id (lig_of i) (merged_results ctx (lig_of i) w1)
                (monte_carlo ctx i w1)) as (_ & -> & _).
    simpl. rewrite Hd. reflexivity.
  - rewrite Hok. simpl.
    destruct (emit_fields os id (lig_of i) (merged_results ctx (lig_of i) w1)
                (monte_carlo ctx i w1)) as (-> & _).
    simpl. unfold w1. rewrite populate_length. exact Hlen.
  - intros t g. apply dock_ligand_preserves.
  - rewrite gm_types_app, gm_types_mc_block, app_nil_r, gm_types_gm_block.
    destruct (job_probes ctx).1.1; [constructor | exact Hnd].
  - intros t Ht.
    rewrite gm_types_app, gm_types_mc_block, app_nil_r, gm_types_gm_block in Ht.
    destruct (job_probes ctx).1.1; [inversion Ht|].
    apply (dock_ligand_initializes ctx os i id (lig_of i) w gms todo t Hs Ht).
Qed.

Lemma ligand_loop_advances (ctx : jobctx) (os : ostream) (lig_of : Z → ligand)
    (ligs : list Z) :
  ∀ w : worker, advances w (ligand_loop_run ctx os lig_of ligs w).
Proof.
  induction ligs as [|i ligs IH]; intros w; cbn [ligand_loop_run].
  - apply advances_refl.
  - apply advances_bind; [apply process_ligand_advances | intros w1 _; apply IH].
Qed.

Lemma run_job_advances (lig_of : Z → ligand) (jn : nat) (p : doc) (w : worker) :
  advances w (run_job lig_of jn p w).
Proof.
  unfold run_job. apply (advances_issue w (Fetch jn)).
  destruct (read_job jn p) as [ctx|]; [|apply advances_refl].
  rewrite run_slice_unfold.
  destruct (ligand_loop_advances ctx csv_stream lig_of
              (Slices.ligand_loop (job_range ctx).1 (job_range ctx).2)
              (slice_start (issue [Act (Fetch jn)] w)))
    as (blk & n & H1 & H2 & H3 & H4 & H5 & H6 & H7).
  unfold slice_start in *. rewrite open_existing_csv_id in *. simpl in *.
  exists blk, n. split_and!; assumption.
Qed.

Lemma job_loop_advances (lig_of : Z → ligand) (jobs : list doc) :
  ∀ (jn : nat) (w : worker), advances w (job_loop lig_of jn jobs w).
Proof.
  induction jobs as [|p jobs IH]; intros jn w; cbn [job_loop].
  - apply advances_refl.
  - apply advances_bind; [apply run_job_advances | intros w1 _; apply IH].
Qed.

Lemma mc_seeds_length (cs : list command) :
  length (mc_seeds cs) = length (mc_tasks_in cs).
Proof.
  unfold mc_seeds, mc_tasks_in. induction (tasks_run cs) as [|t ts IH]; [reflexivity|].
  rewrite bind_cons, length_app, IH. destruct t as [t1 t2|j i tys x|j i k s].
  - rewrite filter_cons_False by (simpl; auto). reflexivity.
  - rewrite filter_cons_False by (simpl; auto). reflexivity.
  - rewrite filter_cons_True by exact I. reflexivity.
Qed.

Lemma main_advances (lig_of : Z → ligand) (fs : option (list piece)) (jobs : list doc) :
  ∃ blk : list command,
    issued (state (main_with lig_of fs jobs)) = [Run sf_tasks; Sync] ++ blk ∧
    mc_seeds ([Run sf_tasks; Sync] ++ blk) = mc_seeds blk ∧
    gm_types ([Run sf_tasks; Sync] ++ blk) = gm_types blk ∧
    mc_seeds blk = eng <$> seq 0 (eng_draws (state (main_with lig_of fs jobs))) ∧
    NoDup (gm_types blk) ∧
    ∀ t, t ∈ gm_types blk → (t < XS_TYPE_SIZE)%nat.
Proof.
  unfold main_with.
  destruct (job_loop_advances lig_of jobs 0 (startup (main_init fs)))
    as (blk & n & H1 & H2 & H3 & _ & _ & H6 & H7).
  simpl in H1, H2, H3, H7. exists blk.
  assert (Hsf : ∀ f : task → list Z, (∀ t1 t2, f (SfTask t1 t2) = []) →
            tasks_run [Run sf_tasks; @Sync task action] ≫= f = []).
  { intros f Hf. apply bind_nil_all. intros t Ht. simpl in Ht. rewrite app_nil_r in Ht.
    apply elem_of_sf_tasks in Ht as (t1 & t2 & -> & _). apply Hf. }
  assert (Hsf' : ∀ f : task → list nat, (∀ t1 t2, f (SfTask t1 t2) = []) →
            tasks_run [Run sf_tasks; @Sync task action] ≫= f = []).
  { intros f Hf. apply bind_nil_all. intros t Ht. simpl in Ht. rewrite app_nil_r in Ht.
    apply elem_of_sf_tasks in Ht as (t1 & t2 & -> & _). apply Hf. }
  split_and!.
  - exact H1.
  - rewrite mc_seeds_app. unfold mc_seeds at 1. rewrite Hsf by reflexivity. reflexivity.
  - rewrite gm_types_app. unfold gm_types at 1. rewrite Hsf' by reflexivity. reflexivity.
  - rewrite H2, H3. reflexivity.
  - exact H6.
  - intros t Ht. destruct (H7 t Ht) as [Hn _]. apply lookup_lt_Some in Hn.
    rewrite length_replicate in Hn. exact Hn.
Qed.

(** The Monte Carlo tasks are bound, in the order in which they are
    dispatched, to the successive values of [eng()]: no value is skipped and
    none is used for two tasks, over all the ligands and all the jobs of a
    run; the number of values drawn is the number of tasks dispatched. *)
Theorem monte_carlo_seeds (lig_of : Z → ligand) (fs : option (list piece))
    (jobs : list doc) :
  let r := main_with lig_of fs jobs in
  mc_seeds (issued (state r)) = eng <$> seq 0 (eng_draws (state r)) ∧
  eng_draws (state r) = length (mc_tasks_in (issued (state r))).
Proof.
  intros r. destruct (main_advances lig_of fs jobs) as (blk & H1 & H2 & _ & H4 & _).
  fold r in H1, H4.
  assert (Hs : mc_seeds (issued (state r)) = eng <$> seq 0 (eng_draws (state r))).
  { rewrite H1, H2. exact H4. }
  split; [exact Hs|].
  rewrite <- mc_seeds_length, Hs, length_fmap, length_seq. reflexivity.
Qed.

(** Over a whole run, whatever the jobs, the grid map of an atom type is
    populated by at most one batch of grid-map tasks: the lists of types of
    the batches have no type in common, every type is below
    [XS_TYPE_SIZE], and so at most [XS_TYPE_SIZE] maps are ever made. *)
Theorem grid_map_types_once (lig_of : Z → ligand) (fs : option (list piece))
    (jobs : list doc) :
  let prog := issued (state (main_with lig_of fs jobs)) in
  NoDup (gm_types prog) ∧
  (∀ t, t ∈ gm_types prog → (t < XS_TYPE_SIZE)%nat) ∧
  (length (gm_types prog) ≤ XS_TYPE_SIZE)%nat.
Proof.
  intros prog. destruct (main_advances lig_of fs jobs) as (blk & H1 & _ & H3 & _ & H5 & H6).
  fold prog in H1. rewrite H1, H3. split_and!; [exact H5 | exact H6 |].
  assert (Hsub : gm_types blk ⊆+ seq 0 XS_TYPE_SIZE).
  { apply NoDup_submseteq; [exact H5|].
    intros t Ht. apply list_elem_of_In, in_seq. specialize (H6 t Ht). lia. }
  apply submseteq_length in Hsub. rewrite length_seq in Hsub. exact Hsub.
Qed.

(** *** One batch at a time *)

(** In a command list every batch handed to the pool is waited for before
    the main thread does anything else: after [run] come only [get]s on
    tasks of that batch, and then [sync]. *)
Definition waited_for (cs : list command) : Prop :=
  ∀ i b, cs !! i = Some (Run b) →
    ∃ s, (i < s)%nat ∧ cs !! s = Some Sync ∧
         ∀ j, (i < j < s)%nat → ∃ t, t ∈ b ∧ cs !! j = Some (Get t).

Lemma waited_for_nil : waited_for [].
Proof. intros i b Hi. rewrite lookup_nil in Hi. discriminate. Qed.

Lemma waited_for_app (A B : list command) :
  waited_for A → waited_for B → waited_for (A ++ B).
Proof.
  intros HA HB i b Hi. destruct (decide (i < length A)%nat) as [Hlt|Hge].
  - rewrite lookup_app_l in Hi by exact Hlt.
    destruct (HA i b Hi) as (s & His & Hs & Hj).
    assert (Hsl : (s < length A)%nat) by (eapply lookup_lt_Some; eauto).
    exists s. split_and!; [exact His | rewrite lookup_app_l by exact Hsl; exact Hs |].
    intros j Hij. destruct (Hj j Hij) as (t & Ht & Hjt). exists t. split; [exact Ht|].
    rewrite lookup_app_l by lia. exact Hjt.
  - rewrite lookup_app_r in Hi by lia.
    destruct (HB _ b Hi) as (s & His & Hs & Hj).
    exists (length A + s)%nat. split_and!; [lia | |].
    + rewrite lookup_app_r by lia. rewrite <- Hs. f_equal. lia.
    + intros j Hij. destruct (Hj (j - length A)%nat ltac:(lia)) as (t & Ht & Hjt).
      exists t. split; [exact Ht|]. rewrite lookup_app_r by lia. exact Hjt.
Qed.

Lemma waited_for_batch (b : list task) : waited_for (batch b).
Proof.
  intros i b' Hi. apply batch_lookup_run in Hi as [-> ->].
  exists (length b + 1)%nat. split_and!; [lia | apply batch_sync |].
  intros j Hj. destruct (lookup_lt_is_Some_2 b (j - 1)%nat ltac:(lia)) as [t Ht].
  exists t. split; [apply list_elem_of_lookup; eauto|].
  unfold batch. destruct j as [|j]; [lia|]. simpl.
  replace (S j - 1)%nat with j in Ht by lia.
  rewrite lookup_app_l by (rewrite length_fmap; lia).
  rewrite list_lookup_fmap, Ht. reflexivity.
Qed.

Lemma waited_for_act (a : action) : waited_for [Act a].
Proof.
  intros i b Hi. destruct i; simpl in Hi; [discriminate|].
  rewrite lookup_nil in Hi. discriminate.
Qed.

(** What holds of the empty list, of every batch and of every action, and
    of two lists one after the other, holds of what the job loop adds to
    the trace. *)
Lemma job_loop_blocks (Q : list command → Prop) (lig_of : Z → ligand) :
  Q [] → (∀ A B, Q A → Q B → Q (A ++ B)) → (∀ b, Q (batch b)) → (∀ a, Q [Act a]) →
  ∀ (jobs : list doc) (jn : nat) (w : worker),
    ∃ blk, issued (state (job_loop lig_of jn jobs w)) = issued w ++ blk ∧ Q blk.
Proof.
  intros Hnil Happ Hbatch Hact.
  assert (Hsame : ∀ w : worker, ∃ blk, issued w = issued w ++ blk ∧ Q blk).
  { intros w. exists []. rewrite app_nil_r. auto. }
  assert (Hlig : ∀ ctx os i w,
            ∃ blk, issued (state (process_ligand ctx os lig_of i w)) = issued w ++ blk ∧ Q blk).
  { intros ctx os i w. unfold process_ligand.
    destruct (parse_descriptors _ _ _ _) as [d|]; [|apply Hsame].
    destruct (negb _); [apply Hsame|].
    destruct (zinc_id_of _) as [id|]; [|apply Hsame].
    destruct (schedule_grid_maps (job_probes ctx) (get_atom_types (lig_of i)) (grid_maps w) [])
      as [[gms todo]|] eqn:Hs.
    - destruct (dock_ligand_ok ctx os i id (lig_of i) w gms todo Hs) as (_ & Hi & _).
      eexists. split; [exact Hi|]. apply Happ; [|apply Hbatch].
      unfold gm_block. destruct todo; [exact Hnil | apply Hbatch].
    - rewrite dock_ligand_throw by exact Hs. apply Hsame. }
  assert (Hloop : ∀ ctx os ligs w,
            ∃ blk, issued (state (ligand_loop_run ctx os lig_of ligs w)) = issued w ++ blk ∧ Q blk).
  { intros ctx os ligs. induction ligs as [|i ligs IH]; intros w; cbn [ligand_loop_run].
    - apply Hsame.
    - destruct (Hlig ctx os i w) as (blk1 & H1 & Q1).
      destruct (process_ligand ctx os lig_of i w) as [w'|w']; simpl in *; [|eauto].
      destruct (IH w') as (blk2 & H2 & Q2).
      exists (blk1 ++ blk2). split; [rewrite H2, H1, app_assoc; reflexivity | auto]. }
  assert (Hjob : ∀ jn p w,
            ∃ blk, issued (state (run_job lig_of jn p w)) = issued w ++ blk ∧ Q blk).
  { intros jn p w. unfold run_job. destruct (read_job jn p) as [ctx|].
    - rewrite run_slice_unfold.
      destruct (Hloop ctx csv_stream (Slices.ligand_loop (job_range ctx).1 (job_range ctx).2)
                  (slice_start (issue [Act (Fetch jn)] w))) as (blk & Hblk & Qblk).
      exists ([Act (Fetch jn)] ++ blk). split; [|auto].
      rewrite Hblk. unfold slice_start. rewrite open_existing_csv_id. simpl.
      rewrite <- app_assoc. reflexivity.
    - exists [Act (Fetch jn)]. split; [reflexivity | auto]. }
  intros jobs. induction jobs as [|p jobs IH]; intros jn w; cbn [job_loop].
  - apply Hsame.
  - destruct (Hjob jn p w) as (blk1 & H1 & Q1).
    destruct (run_job lig_of jn p w) as [w'|w']; simpl in *; [|eauto].
    destruct (IH (S jn) w') as (blk2 & H2 & Q2).
    exists (blk1 ++ blk2). split; [rewrite H2, H1, app_assoc; reflexivity | auto].
Qed.

(** Over a whole run [main] has one batch in the pool at a time: each
    [tp.run] is followed by [get]s on futures of that batch only, and by
    [tp.sync], before the next batch is handed over or the next job is
    fetched. *)
Theorem one_batch_at_a_time (lig_of : Z → ligand) (fs : option (list piece))
    (jobs : list doc) :
  let prog := issued (state (main_with lig_of fs jobs)) in
  (∀ i b, prog !! i = Some (Run b) →
     ∃ s, (i < s)%nat ∧ prog !! s = Some Sync ∧
          ∀ j, (i < j < s)%nat → ∃ t, t ∈ b ∧ prog !! j = Some (Get t)) ∧
  (∀ i i' b b', (i < i')%nat → prog !! i = Some (Run b) → prog !! i' = Some (Run b') →
     ∃ s, (i < s < i')%nat ∧ prog !! s = Some Sync).
Proof.
  intros prog.
  assert (Hw : waited_for prog).
  { unfold prog, main_with.
    destruct (job_loop_blocks waited_for lig_of waited_for_nil waited_for_app
                waited_for_batch waited_for_act jobs 0 (startup (main_init fs)))
      as (blk & -> & Hblk).
    apply waited_for_app; [|exact Hblk]. simpl.
    intros i b Hi. destruct i as [|[|i]]; simpl in Hi; try discriminate;
      try (rewrite lookup_nil in Hi; discriminate).
    exists 1%nat. split_and!; [lia | reflexivity | intros j Hj; lia]. }
  split; [exact Hw|].
  intros i i' b b' Hlt Hi Hi'. destruct (Hw i b Hi) as (s & His & Hs & Hj).
  exists s. split; [|exact Hs]. split; [exact His|].
  destruct (decide (s < i')%nat) as [|Hge]; [assumption|]. exfalso.
  assert (i' ≠ s) by congruence.
  destruct (Hj i' ltac:(lia)) as (t & _ & Ht). congruence.
Qed.

(** *** The loop over the queue (lines 164-186 and 420-450) *)

(** The folder [jobs/_id] as the directory iterator of phase 2 finds it:
    [None] when there is no such folder, which makes its constructor
    throw. *)
Variable job_folder : string → option (list string).

(** Phase 2 (lines 423-450) keeps what it computes in variables of the
    iteration; what is left of it is whether it runs to its end: the
    folder has to be there, and the document has to hold a string [email]. *)
Definition phase2_completes (p : doc) (id : string) : bool :=
  match job_folder id, String_ p "email" with
  | Some _, Some _ => true
  | _, _ => false
  end.

(** [fuel] iterations of [while (true)], from job number [jn] on: the run
    of [main] and the collection they end with.  An iteration that finds no
    job sleeps and goes on. *)
Fixpoint worker_loop (lig_of : Z → ligand) (fuel jn : nat) (db : Queue.collection)
    (w : worker) : run * Queue.collection :=
  match fuel with
  | O => (Ok w, db)
  | S fuel' =>
      match Queue.fetch db with
      | Queue.NoJob => worker_loop lig_of fuel' jn db w
      | Queue.Malformed => (Throw (issue [Act (Fetch jn)] w), db)
      | Queue.Claimed p id _ db' =>
          match run_job lig_of jn p w with
          | Throw w' => (Throw w', db')
          | Ok w' =>
              if Queue.all_slices_done id db' then
                if phase2_completes p id then worker_loop lig_of fuel' (S jn) db' w'
                else (Throw w', db')
              else worker_loop lig_of fuel' (S jn) db' w'
          end
      end
  end.

(** A worker alone on the collection is handed its pending documents one
    after the other: [fuel] iterations run the jobs of the first [fuel]
    pending documents, in the order of the collection, each once.  The
    query of line 421 never finds a document, so phase 2 is not entered
    and the folder of the job plays no part. *)
Theorem worker_loop_jobs (lig_of : Z → ligand) (fuel : nat) :
  ∀ (jn : nat) (db : Queue.collection) (w : worker),
    Queue.unique_ids db → Forall Queue.claimable (Queue.pending db) →
    (worker_loop lig_of fuel jn db w).1
    = job_loop lig_of jn (take fuel (Queue.pending db)) w.
Proof.
  induction fuel as [|fuel IH]; intros jn db w Hu Hall; [reflexivity|].
  cbn [worker_loop]. destruct (Queue.pending db) as [|p l] eqn:Hp.
  - rewrite (Queue.fetch_none db Hp), (IH jn db w Hu), Hp by (rewrite Hp; constructor).
    rewrite take_nil. reflexivity.
  - apply Forall_cons in Hall as [Hc Hl].
    destruct (Queue.fetch_head db p l Hp Hc) as (id & sl & Hq & Hid & Hf).
    destruct (Queue.update_head_pending db p id Hu Hq Hid) as (Hp' & Hu' & _).
    rewrite Hp in Hp'. simpl in Hp'.
    rewrite Hf. cbn [take job_loop].
    destruct (run_job lig_of jn p w) as [w'|w']; [|reflexivity]. cbn [bind].
    rewrite (Queue.claim_not_done db p id Hu Hq Hid).
    rewrite (IH (S jn) _ w' Hu'), Hp' by (rewrite Hp'; exact Hl). reflexivity.
Qed.

(** A document that is claimed but cannot be read as a job (a box field or
    the receptor is missing or not of its type, a bound is present and no
    double, or its slice is not a number): its progress is incremented
    before [main] reads those fields, so [main] is left by the exception
    with no task dispatched and [log.csv] not yet opened, and no later fetch
    hands the document out again. *)
Theorem claimed_job_abandoned (lig_of : Z → ligand) (fuel jn : nat)
    (db db' : Queue.collection) (w : worker) (p : doc) (id slice : string) :
  Queue.unique_ids db → Queue.fetch db = Queue.Claimed p id slice db' →
  read_job jn p = None →
  worker_loop lig_of (S fuel) jn db w = (Throw (issue [Act (Fetch jn)] w), db') ∧
  tasks_run (new_cmds w (worker_loop lig_of (S fuel) jn db w).1) = [] ∧
  csv_file (state (worker_loop lig_of (S fuel) jn db w).1) = csv_file w ∧
  Queue.pending db' = tail (Queue.pending db) ∧
  Forall (λ q, Queue.id_is id q = false) (Queue.pending db').
Proof.
  intros Hu Hf Hread.
  assert (Hloop : worker_loop lig_of (S fuel) jn db w
                  = (Throw (issue [Act (Fetch jn)] w), db')).
  { cbn [worker_loop]. rewrite Hf. unfold run_job. rewrite Hread. reflexivity. }
  apply Queue.fetch_inv in Hf as (Hq & Hid & _ & ->).
  destruct (Queue.update_head_pending db p id Hu Hq (Queue.String_id _ _ Hid))
    as (Hp' & _ & Hone & _).
  rewrite Hloop. split_and!.
  - reflexivity.
  - unfold new_cmds. simpl. rewrite drop_app_length. reflexivity.
  - reflexivity.
  - exact Hp'.
  - apply Forall_forall. intros q Hq'. apply list_elem_of_filter in Hq' as [Hq0 Hqin].
    destruct (Queue.id_is id q) eqn:E; [|reflexivity]. exfalso.
    rewrite (Hone q Hqin E) in Hq0.
    destruct (Queue.inc_progress_pending p (proj2 (Queue.query_one_elem _ _ _ Hq)))
      as (_ & H0 & _).
    rewrite H0 in Hq0. exact Hq0.
Qed.

End Engine.

End Worker.

(** ** A small library and job to run the worker on *)

Module Example.

Import Job Pool Worker.

Local Open Scope string_scope.

(** A decimal reading of [lexical_cast] that covers the fields of the
    records below: an unsigned integer is a non-empty run of digits, a
    signed one may start with a minus sign, and a floating-point number is
    a sign, digits and at most one point; its value is the correctly
    rounded quotient of the digits by the power of ten. *)
Definition digit (c : Ascii.ascii) : option Z :=
  let n := Ascii.nat_of_ascii c in
  if (48 <=? n)%nat && (n <=? 57)%nat then Some (Z.of_nat (n - 48)) else None.

Fixpoint digits (acc : Z) (s : string) : option Z :=
  match s with
  | EmptyString => Some acc
  | String c s' => d ← digit c; digits (10 * acc + d) s'
  end.

Definition cast_size_t (s : string) : option Z :=
  match s with
  | EmptyString => None
  | _ => digits 0 s
  end.

Definition cast_int64 (s : string) : option Z :=
  match s with
  | String "-"%char s' => Z.opp <$> cast_size_t s'
  | _ => cast_size_t s
  end.

Fixpoint decimal (acc : Z) (scale : option Z) (s : string) : option (Z * Z) :=
  match s with
  | EmptyString => Some (acc, default 1 scale)
  | String "."%char s' =>
      match scale with
      | None => decimal acc (Some 1) s'
      | Some _ => None
      end
  | String c s' => d ← digit c; decimal (10 * acc + d) ((λ k, 10 * k) <$> scale) s'
  end.

Definition quotient (mk : Z * Z) : float :=
  PrimFloat.div (double_of_Z mk.1) (double_of_Z mk.2).

Definition cast_fl (s : string) : option float :=
  match s with
  | EmptyString => None
  | String "-"%char s' => (λ mk, PrimFloat.opp (quotient mk)) <$> decimal 0 None s'
  | _ => quotient <$> decimal 0 None s
  end.

(** Two first lines of ligand records: the second has [mwt = 399.9]. *)
Definition good_line : string :=
  "REMARK    ZINC0001   450.123  002.510  006.410  -45.440  02  04  39  00  08".
Definition light_line : string :=
  "REMARK    ZINC0002   399.900  002.510  006.410  -45.440  02  04  39  00  08".

(** A library whose first ligand is the good one. *)
Definition ligand_line (i : Z) : string :=
  if (i =? 0)%Z then good_line else light_line.

(** A ligand is given by its atom types. *)
Definition ligand : Type := list nat.
Definition ligand_ctor (path : string) : ligand := [0; 2]%nat.
Definition get_atom_types (l : ligand) : list nat := l.
Definition num_heavy_atoms (l : ligand) : Z := Z.of_nat (length l).
Definition flexibility_penalty_factor (l : ligand) : float := 0.5%float.

(** A result container that keeps the better of two results. *)
Definition add_to_result_container (rs : list (result unit)) (r : result unit)
    (e : float) : list (result unit) :=
  match rs with
  | [] => [r]
  | q :: _ => if fle (f unit q) (f unit r) then rs else [r]
  end.

(** A Monte Carlo task that leaves one result, of energy [-(seed mod 10)]. *)
Definition monte_carlo_task (p : doc) (l : ligand) (seed : Z) (gms : list array3d)
    : list (result unit) :=
  [MkResult unit (double_of_Z (- (seed mod 10))) 0%float tt].

Definition grid_energy (p : doc) (t x y z : nat) : float := 1%float.
Definition num_probes (p : doc) : nat * nat * nat := (2, 2, 2)%nat.
Definition eng (k : nat) : Z := Z.of_nat k.

(** Three atom types. *)
Definition XS_TYPE_SIZE : nat := 3.

(** A job on slice 0 that sets the charge bounds to [-1, 1]. *)
Definition job0 : doc :=
  list_to_map
    [ ("_id", BString "job0"); ("slice", BString "0"); ("receptor", BString "ATOM");
      ("center_x", BDouble 0); ("center_y", BDouble 0); ("center_z", BDouble 0);
      ("size_x", BDouble 0.125); ("size_y", BDouble 0.125); ("size_z", BDouble 0.125);
      ("charge_lb", BDouble (-1)); ("charge_ub", BDouble 1) ].

(** Nothing but zeros follows the slice table in the example. *)
Definition past_end (k : Z) : Z := 0.

(** The same job on a library with no ligand that passes the filters. *)
Definition light_library (i : Z) : string := light_line.

Definition main_of (lines : Z → string) (fs : option (list piece)) (jobs : list doc) : run :=
  main XS_TYPE_SIZE ligand ligand_ctor get_atom_types num_heavy_atoms
    flexibility_penalty_factor unit add_to_result_container monte_carlo_task
    grid_energy num_probes eng lines cast_fl cast_size_t cast_int64 past_end fs jobs.

(** [ligand lig("")] for every index. *)
Definition lig_of (i : Z) : ligand := ligand_ctor EmptyString.

(** The functions of the worker on this library. *)
Definition process (lines : Z → string) : jobctx → ostream → (Z → ligand) → Z → worker → run :=
  process_ligand ligand get_atom_types num_heavy_atoms flexibility_penalty_factor unit
    add_to_result_container monte_carlo_task grid_energy eng lines
    cast_fl cast_size_t cast_int64.

Definition dock : jobctx → ostream → Z → string → ligand → worker → run :=
  dock_ligand ligand get_atom_types num_heavy_atoms flexibility_penalty_factor unit
    add_to_result_container monte_carlo_task grid_energy eng.

Definition slice (lines : Z → string) : jobctx → (Z → ligand) → worker → run :=
  run_slice ligand get_atom_types num_heavy_atoms flexibility_penalty_factor unit
    add_to_result_container monte_carlo_task grid_energy eng lines
    cast_fl cast_size_t cast_int64.

Definition survivors (lines : Z → string)
    : jobctx → ostream → (Z → ligand) → list Z → worker
      → list (Z * string * ligand * list (result unit)) :=
  slice_survivors ligand get_atom_types num_heavy_atoms flexibility_penalty_factor unit
    add_to_result_container monte_carlo_task grid_energy eng lines
    cast_fl cast_size_t cast_int64.

(** The bounds of [job0] and what [main] knows of it once it is read. *)
Definition bounds0 : bounds :=
  Bounds 400 500 (-1) 6 (-50) 50 (-150) 0 1 6 1 10 20 80 (-1) 1 2 9.

Definition ctx0 : jobctx := JobCtx 0 job0 bounds0 (0, 121712)%Z (2, 2, 2)%nat.

(** The descriptors of the two records. *)
Definition d_good : descriptors :=
  Eval vm_compute in
    default (Descriptors 0 0 0 0 0 0 0 0 0)
            (parse_descriptors cast_fl cast_size_t cast_int64 good_line).

Definition d_light : descriptors :=
  Eval vm_compute in
    default (Descriptors 0 0 0 0 0 0 0 0 0)
            (parse_descriptors cast_fl cast_size_t cast_int64 light_line).

(** The worker after startup, at the start of the ligand loop of [job0],
    and after the first ligand of the library. *)
Definition w_init : worker := startup XS_TYPE_SIZE (main_init XS_TYPE_SIZE None).

Definition w_start : worker := slice_start (issue [Act (Fetch 0)] w_init).

Definition w_first : worker :=
  Eval vm_compute in state (process ligand_line ctx0 csv_stream lig_of 0 w_start).

(** The trace of [main] on the library and the single job. *)
Definition prog_ex : list command := issued (state (main_of ligand_line None [job0])).

(** The batch of Monte Carlo tasks of the first ligand. *)
Definition mcs_ex : list task :=
  Eval vm_compute in match issued w_first !! 7%nat with Some (Run b) => b | _ => [] end.

Lemma read_job0 : read_job num_probes cast_size_t past_end 0 job0 = Some ctx0.
Proof. vm_compute. reflexivity. Qed.

Lemma parse_good :
  parse_descriptors cast_fl cast_size_t cast_int64 good_line = Some d_good.
Proof. vm_compute. reflexivity. Qed.

Lemma parse_light :
  parse_descriptors cast_fl cast_size_t cast_int64 light_line = Some d_light.
Proof. vm_compute. reflexivity. Qed.

(** The decimal reading gives the binary64 value nearest to 399.9. *)
Lemma mwt_light : mwt d_light = 0x1.8fe6666666666p+8%float.
Proof. reflexivity. Qed.

Lemma filter_good : passes_filter bounds0 d_good = true.
Proof. vm_compute. reflexivity. Qed.

Lemma filter_light : passes_filter bounds0 d_light = false.
Proof. vm_compute. reflexivity. Qed.

Lemma process_first : process ligand_line ctx0 csv_stream lig_of 0 w_start = Ok w_first.
Proof. vm_compute. reflexivity. Qed.

Lemma rest_filtered (j : Z) :
  j ∈ Slices.ligand_loop (0 + 1) 121712 →
  ∃ d, parse_descriptors cast_fl cast_size_t cast_int64 (ligand_line j) = Some d ∧
       passes_filter (job_bounds_of ctx0) d = false.
Proof.
  intros Hj. apply Slices.ligand_loop_spec in Hj.
  exists d_light. unfold ligand_line.
  replace (j =? 0)%Z with false by (symmetry; apply Z.eqb_neq; lia).
  split; [exact parse_light | exact filter_light].
Qed.

Lemma all_filtered (j : Z) :
  j ∈ Slices.ligand_loop 0 121712 →
  ∃ d, parse_descriptors cast_fl cast_size_t cast_int64 (light_library j) = Some d ∧
       passes_filter (job_bounds_of ctx0) d = false.
Proof. intros _. exists d_light. split; [exact parse_light | exact filter_light]. Qed.

Lemma main_ex : main_of ligand_line None [job0] = Ok w_first.
Proof.
  unfold main_of, main.
  rewrite (main_single_job XS_TYPE_SIZE ligand get_atom_types num_heavy_atoms
             flexibility_penalty_factor unit add_to_result_container monte_carlo_task
             grid_energy num_probes eng ligand_line cast_fl cast_size_t cast_int64 past_end
             (λ _, ligand_ctor EmptyString) None job0 ctx0 read_job0).
  change (job_range ctx0).1 with 0%Z. change (job_range ctx0).2 with 121712%Z.
  rewrite (Slices.ligand_loop_cons 0 121712) by lia.
  apply ligand_loop_first; [exact process_first | exact rest_filtered].
Qed.

Lemma prog_ex_eq : prog_ex = issued w_first.
Proof. unfold prog_ex. rewrite main_ex. reflexivity. Qed.

(** The job on the library without a ligand that passes: the loop leaves
    the state in which it started. *)
Lemma main_light : main_of light_library None [job0] = Ok w_start.
Proof.
  unfold main_of, main.
  rewrite (main_single_job XS_TYPE_SIZE ligand get_atom_types num_heavy_atoms
             flexibility_penalty_factor unit add_to_result_container monte_carlo_task
             grid_energy num_probes eng light_library cast_fl cast_size_t cast_int64 past_end
             (λ _, ligand_ctor EmptyString) None job0 ctx0 read_job0).
  change (job_range ctx0).1 with 0%Z. change (job_range ctx0).2 with 121712%Z.
  apply ligand_loop_filtered. exact all_filtered.
Qed.

(** C4 (as stated, on the library in which no ligand passes the filters):
    no ligand survives, yet the csv file of the job is not empty: it holds
    one newline, a line that belongs to no ligand. *)
Lemma C4_blank_line_counterexample :
  survivors light_library ctx0 csv_stream lig_of (Slices.ligand_loop 0 121712) w_start = [] ∧
  csv_file (state (main_of light_library None [job0])) = Some [Text nl] ∧
  csv_file (state (main_of light_library None [job0])) ≠ Some [].
Proof.
  split_and!.
  - apply ligand_loop_filtered. exact all_filtered.
  - rewrite main_light. reflexivity.
  - rewrite main_light. discriminate.
Qed.

Lemma types_in_range (t : nat) :
  t ∈ get_atom_types [0; 2]%nat → (t < length (grid_maps w_start))%nat.
Proof.
  unfold get_atom_types. rewrite !elem_of_cons, elem_of_nil.
  intros [-> | [-> | []]]; vm_compute; lia.
Qed.

(** C1 on the first ligand of the example library, in the state in which
    the ligand loop starts. *)
Lemma C1_grid_maps_once_witness :
  ∃ todo : list nat,
    gm_tasks_in (new_cmds w_start (dock ctx0 csv_stream 0 "ZINC0001" [0; 2]%nat w_start))
      = match todo with [] => [] | _ :: _ => gm_tasks ctx0 0 todo end ∧
    NoDup todo ∧
    (∀ t, t ∈ todo ↔ t ∈ get_atom_types [0; 2]%nat ∧ grid_maps w_start !! t = Some None) ∧
    (∀ i' id' lig',
       get_atom_types lig' ⊆ get_atom_types [0; 2]%nat →
       gm_tasks_in
         (new_cmds (state (dock ctx0 csv_stream 0 "ZINC0001" [0; 2]%nat w_start))
            (dock ctx0 csv_stream i' id' lig'
               (state (dock ctx0 csv_stream 0 "ZINC0001" [0; 2]%nat w_start))))
       = []).
Proof.
  destruct (C1_grid_maps_once XS_TYPE_SIZE ligand ligand_ctor get_atom_types num_heavy_atoms
              flexibility_penalty_factor unit add_to_result_container monte_carlo_task
              grid_energy num_probes eng ligand_line cast_fl cast_size_t cast_int64 past_end
              ctx0 csv_stream 0 "ZINC0001" [0; 2]%nat w_start types_in_range)
    as (todo & H1 & H2 & H3 & _ & _ & _ & _ & _ & H9).
  exists todo. split_and!; assumption.
Defined.

Lemma good_line_length : (75 ≤ String.length good_line)%nat.
Proof. vm_compute. lia. Qed.

(** C6 on the first record of the example library. *)
Lemma C6_descriptor_columns_witness :
  zinc_id_of good_line = Some (column_text good_line 11 18) ∧
  right_cast_text good_line 21 28 = Some (column_text good_line 22 28) ∧
  right_cast_text good_line 73 75 = Some (column_text good_line 74 75) ∧
  parse_descriptors cast_fl cast_size_t cast_int64 good_line
    = descriptors_of_columns cast_fl cast_size_t cast_int64 good_line ∧
  column_text good_line 11 18 = "ZINC0001" ∧
  column_text good_line 22 28 = "450.123" ∧
  column_text good_line 74 75 = "08".
Proof.
  destruct (C6_descriptor_columns cast_fl cast_size_t cast_int64 good_line good_line_length)
    as (H1 & H2 & _ & _ & _ & _ & _ & _ & _ & H10 & H11 & _).
  split_and!; try assumption; reflexivity.
Defined.

(** C7 on the second record of the example library, of [mwt = 399.9]. *)
Lemma C7_filter_witness :
  passes_filter (job_bounds_of ctx0) d_light = false ∧
  process ligand_line ctx0 csv_stream lig_of 1 w_start = Ok w_start ∧
  tasks_run (new_cmds w_start (process ligand_line ctx0 csv_stream lig_of 1 w_start)) = [] ∧
  csv_file (state (process ligand_line ctx0 csv_stream lig_of 1 w_start)) = csv_file w_start.
Proof.
  destruct (C7_filter ligand get_atom_types num_heavy_atoms
              flexibility_penalty_factor unit add_to_result_container monte_carlo_task
              grid_energy eng ligand_line cast_fl cast_size_t cast_int64
              ctx0 csv_stream lig_of 1 w_start d_light parse_light)
    as (_ & Hskip & _ & Hmwt).
  assert (Hf : passes_filter (job_bounds_of ctx0) d_light = false).
  { apply Hmwt; reflexivity. }
  destruct (Hskip Hf) as (H1 & H2 & H3).
  split_and!; assumption.
Defined.

Lemma prog_ex_well_formed : well_formed prog_ex.
Proof.
  destruct (main_trace XS_TYPE_SIZE ligand get_atom_types num_heavy_atoms
              flexibility_penalty_factor unit add_to_result_container monte_carlo_task
              grid_energy num_probes eng ligand_line cast_fl cast_size_t cast_int64 past_end
              (λ _, ligand_ctor EmptyString) None [job0]) as (rest & Hprog & _ & _ & Hwf).
  rewrite <- Hprog in Hwf. exact Hwf.
Qed.

(** The worker can run the whole trace: a state in which main is at the
    end of its program and every task it dispatched has finished. *)
Lemma prog_ex_completes :
  ∃ p : pool task,
    reachable 4 prog_ex (Config (length prog_ex) false p) ∧
    ∀ j b t, (j < length prog_ex)%nat → prog_ex !! j = Some (Run b) → t ∈ b → t ∈ finished p.
Proof.
  destruct (run_to_completion 4 prog_ex (length prog_ex) ltac:(lia) prog_ex_well_formed
              (le_n _)) as (p & Hreach & _ & _ & _ & Hfin).
  exists p. split; assumption.
Qed.

(** C8 on the example job, in the state in which the trace has been run to
    its end. *)
Lemma C8_grid_maps_before_monte_carlo_witness :
  ∃ c : config task,
    reachable 4 prog_ex c ∧
    dispatched c (McTask 0 0 0 0) ∧
    GmTask 0 0 [0; 2]%nat 0 ∈ finished (pl c) ∧
    GmTask 0 0 [0; 2]%nat 1 ∈ finished (pl c).
Proof.
  destruct prog_ex_completes as (p & Hreach & Hfin).
  exists (Config (length prog_ex) false p).
  assert (Hlen : length prog_ex = 41%nat) by (rewrite prog_ex_eq; reflexivity).
  assert (Hdis : dispatched (Config (length prog_ex) false p) (McTask 0 0 0 0)).
  { right. right. apply (Hfin 7%nat mcs_ex); [lia | rewrite prog_ex_eq; reflexivity |].
    apply list_elem_of_here. }
  assert (Hgm : ∀ x, (x < 2)%nat → GmTask 0 0 [0; 2]%nat x ∈ tasks_run prog_ex).
  { intros x Hx. apply elem_of_tasks_run.
    exists 3%nat, [GmTask 0 0 [0; 2]%nat 0; GmTask 0 0 [0; 2]%nat 1].
    split; [rewrite prog_ex_eq; reflexivity|].
    destruct x as [|[|x]]; [apply list_elem_of_here | apply list_elem_of_further, list_elem_of_here | lia]. }
  split_and!; [exact Hreach | exact Hdis | |].
  - apply (C8_grid_maps_before_monte_carlo XS_TYPE_SIZE ligand get_atom_types num_heavy_atoms
             flexibility_penalty_factor unit add_to_result_container monte_carlo_task
             grid_energy num_probes eng ligand_line cast_fl cast_size_t cast_int64 past_end
             (λ _, ligand_ctor EmptyString) None [job0] 4
             (Config (length prog_ex) false p) (McTask 0 0 0 0) (GmTask 0 0 [0; 2]%nat 0)
             Hreach eq_refl eq_refl eq_refl Hdis (Hgm 0%nat ltac:(lia))).
  - apply (C8_grid_maps_before_monte_carlo XS_TYPE_SIZE ligand get_atom_types num_heavy_atoms
             flexibility_penalty_factor unit add_to_result_container monte_carlo_task
             grid_energy num_probes eng ligand_line cast_fl cast_size_t cast_int64 past_end
             (λ _, ligand_ctor EmptyString) None [job0] 4
             (Config (length prog_ex) false p) (McTask 0 0 0 0) (GmTask 0 0 [0; 2]%nat 1)
             Hreach eq_refl eq_refl eq_refl Hdis (Hgm 1%nat ltac:(lia))).
Defined.

(** C9 on the example job, with three atom types and six pairs. *)
Lemma C9_scoring_function_tasks_witness :
  ∃ c : config task,
    reachable 4 prog_ex c ∧ (2 ≤ pc c)%nat ∧
    length (sf_tasks XS_TYPE_SIZE) = 6%nat ∧
    sf_tasks XS_TYPE_SIZE
      = [SfTask 0 0; SfTask 0 1; SfTask 0 2; SfTask 1 1; SfTask 1 2; SfTask 2 2] ∧
    (∀ t, t ∈ sf_tasks XS_TYPE_SIZE → t ∈ finished (pl c)) ∧
    filter (λ t, is_sf t) (finished (pl c)) ≡ₚ sf_tasks XS_TYPE_SIZE.
Proof.
  destruct prog_ex_completes as (p & Hreach & _).
  exists (Config (length prog_ex) false p).
  assert (Hlen : length prog_ex = 41%nat) by (rewrite prog_ex_eq; reflexivity).
  destruct (C9_scoring_function_tasks XS_TYPE_SIZE ligand ligand_ctor get_atom_types
              num_heavy_atoms flexibility_penalty_factor unit add_to_result_container
              monte_carlo_task grid_energy num_probes eng ligand_line
              cast_fl cast_size_t cast_int64 past_end (λ _, ligand_ctor EmptyString) None [job0] 4
              (Config (length prog_ex) false p) Hreach ltac:(simpl; lia))
    as (H1 & _ & _ & _ & _ & _ & _ & _ & H9 & H10).
  split_and!; [exact Hreach | simpl; lia | reflexivity | reflexivity | exact H9 | exact H10].
Defined.

(** The example job can be run to its end by a pool of four workers. *)
Lemma main_can_complete_witness :
  ∃ p : pool task,
    reachable 4 prog_ex (Config (length prog_ex) false p) ∧
    ∀ t, t ∈ tasks_run prog_ex → t ∈ finished p.
Proof.
  apply (main_can_complete XS_TYPE_SIZE ligand get_atom_types num_heavy_atoms
           flexibility_penalty_factor unit add_to_result_container monte_carlo_task
           grid_energy num_probes eng ligand_line cast_fl cast_size_t cast_int64 past_end
           (λ _, ligand_ctor EmptyString) None [job0] 4).
  lia.
Defined.

(** The map of type 0 made for the first job is the map two further jobs
    end with. *)
Lemma grid_maps_outlive_jobs_witness :
  grid_maps w_first !! 0%nat
    = Some (Some [[[1%float; 1%float]; [1%float; 1%float]];
                  [[1%float; 1%float]; [1%float; 1%float]]]) ∧
  grid_maps
    (state (job_loop ligand get_atom_types num_heavy_atoms flexibility_penalty_factor unit
              add_to_result_container monte_carlo_task grid_energy num_probes eng
              ligand_line cast_fl cast_size_t cast_int64 past_end lig_of 1 [job0; job0] w_first))
    !! 0%nat
    = Some (Some [[[1%float; 1%float]; [1%float; 1%float]];
                  [[1%float; 1%float]; [1%float; 1%float]]]).
Proof.
  split; [reflexivity|].
  apply (grid_maps_outlive_jobs XS_TYPE_SIZE ligand ligand_ctor get_atom_types
           num_heavy_atoms flexibility_penalty_factor unit add_to_result_container
           monte_carlo_task grid_energy num_probes eng ligand_line
           cast_fl cast_size_t cast_int64 past_end lig_of [job0; job0] 1 w_first 0%nat).
  reflexivity.
Defined.

(** The queue: the example job as a pending document, and a pending
    document that has no box. *)
Definition queued_job0 : doc := <["progress" := BDouble 0]> job0.

Definition boxless_job : doc :=
  list_to_map [("_id", BString "job1"); ("slice", BString "0"); ("progress", BDouble 0)].

(** No job has a folder. *)
Definition no_folder (id : string) : option (list string) := None.

Definition loop : nat → nat → Queue.collection → worker → run * Queue.collection :=
  worker_loop ligand get_atom_types num_heavy_atoms flexibility_penalty_factor unit
    add_to_result_container monte_carlo_task grid_energy num_probes eng ligand_line
    cast_fl cast_size_t cast_int64 past_end no_folder lig_of.

Lemma pending_queued : Queue.pending [queued_job0] = [queued_job0].
Proof. vm_compute. reflexivity. Qed.

(** Two iterations on a queue that holds the example job run that job, once. *)
Lemma worker_loop_jobs_witness :
  (loop 2 0 [queued_job0] w_init).1
  = job_loop ligand get_atom_types num_heavy_atoms flexibility_penalty_factor unit
      add_to_result_container monte_carlo_task grid_energy num_probes eng ligand_line
      cast_fl cast_size_t cast_int64 past_end lig_of 0 (take 2 (Queue.pending [queued_job0])) w_init.
Proof.
  apply (worker_loop_jobs ligand get_atom_types num_heavy_atoms flexibility_penalty_factor
           unit add_to_result_container monte_carlo_task grid_energy num_probes eng
           ligand_line cast_fl cast_size_t cast_int64 past_end no_folder lig_of 2 0
           [queued_job0] w_init).
  - unfold Queue.unique_ids. apply NoDup_singleton.
  - rewrite pending_queued. constructor; [|constructor].
    split; eexists; vm_compute; reflexivity.
Defined.

(** The document without a box is claimed, and the worker is left at once. *)
Lemma claimed_job_abandoned_witness :
  loop 1 0 [boxless_job] w_init
  = (Throw (issue [Act (Fetch 0)] w_init),
     Queue.update_one (Queue.id_is "job1") Queue.inc_progress [boxless_job]) ∧
  tasks_run (new_cmds w_init (loop 1 0 [boxless_job] w_init).1) = [] ∧
  csv_file (state (loop 1 0 [boxless_job] w_init).1) = csv_file w_init ∧
  Queue.pending (Queue.update_one (Queue.id_is "job1") Queue.inc_progress [boxless_job])
    = tail (Queue.pending [boxless_job]) ∧
  Forall (λ q, Queue.id_is "job1" q = false)
    (Queue.pending (Queue.update_one (Queue.id_is "job1") Queue.inc_progress [boxless_job])).
Proof.
  apply (claimed_job_abandoned ligand get_atom_types num_heavy_atoms
           flexibility_penalty_factor unit add_to_result_container monte_carlo_task
           grid_energy num_probes eng ligand_line cast_fl cast_size_t cast_int64 past_end
           no_folder lig_of 0 0 [boxless_job]
           (Queue.update_one (Queue.id_is "job1") Queue.inc_progress [boxless_job])
           w_init boxless_job "job1" "0").
  - unfold Queue.unique_ids. apply NoDup_singleton.
  - vm_compute. reflexivity.
  - vm_compute. reflexivity.
Defined.

End Example.
